(** * Elevator control system: dispatcher, factory and control service

    A shallow embedding of [lib/constants.ts], [types/elevator.ts],
    [lib/elevatorDispatch.ts], [lib/elevatorFactory.ts] and
    [services/ElevatorControlService.ts], with the properties of the
    dispatch and scheduling core proved about it.

    Conventions of the embedding.
    - A JavaScript [number] that holds a floor, an identifier, a score or a
      time stamp is a [Z]; a [Set<number>] is a [gset Z]; an array is a
      [list].
    - An [Elevator] object lives in the array [state.elevators] and is
      mutated in place; a reference to it is its index in that array.
    - [Date.now()] and [Math.random()] are read from two oracles, the
      k-th call returning the k-th value; a value of [Math.random()] is a
      rational, taken in the interval [0,1) where a property depends on it.
    - [setTimeout] appends the scheduled callback, as data, to the list of
      pending timers.
    - The subscriber callbacks ([logCallback], [stateChangeCallback]) and
      [console.log] are observers outside the core and are left out; so
      are the [try]/[catch] blocks of the service, since nothing in the
      embedded code throws inside them.
    - A template literal that makes a log message is a constructor of
      [LogMessage] carrying the interpolated values. *)

From stdpp Require Import base numbers list sorting gmap sets.
From Stdlib Require Import QArith Qround Lia.

Local Open Scope Z_scope.
#[local] Set Warnings "-clear-no-such-hyp".

(** ** lib/constants.ts *)

Definition FLOORS : Z := 10.
Definition ELEVATOR_COUNT : nat := 4.
Definition MOVE_DURATION_MS : Z := 10000.
Definition LOADING_DURATION_MS : Z := 10000.
Definition MAX_LOG_ENTRIES : Z := 100.

(** [ELEVATOR_STATES]: ['idle'], ['up'], ['down']. *)
Inductive ElevatorDirection := IDLE | MOVING_UP | MOVING_DOWN.

(** [CALL_DIRECTIONS]: ['up'], ['down']. *)
Inductive CallDirection := UP | DOWN.

(** [LOG_TYPES]. *)
Inductive LogType := CALL | PICKUP | DROPOFF | MOVEMENT | SYSTEM.

#[global] Instance ElevatorDirection_eq_dec : EqDecision ElevatorDirection.
Proof. solve_decision. Defined.
#[global] Instance CallDirection_eq_dec : EqDecision CallDirection.
Proof. solve_decision. Defined.
#[global] Instance LogType_eq_dec : EqDecision LogType.
Proof. solve_decision. Defined.

(** A call direction and an elevator direction are the same string when
    both are ['up'] or both are ['down']. *)
Definition as_elevator_direction (d : CallDirection) : ElevatorDirection :=
  match d with UP => MOVING_UP | DOWN => MOVING_DOWN end.

(** ** types/elevator.ts *)

Record Elevator := mkElevator {
  id : Z;
  currentFloor : Z;
  direction : ElevatorDirection;
  isMoving : bool;
  isLoading : bool;
  destinationFloors : gset Z;
  passengers : nat;
  lastActivity : Z
}.

(** The identifier [`call-${counter}-${Date.now()}`] is kept as the pair of
    its two numbers. *)
Definition CallId : Type := Z * Z.

Record FloorCall := mkFloorCall {
  call_id : CallId;
  floor : Z;
  call_direction : CallDirection;
  call_timestamp : Z;
  assignedElevator : option Z
}.

(** The text of a log entry: one constructor per template literal of the
    source, carrying the interpolated values. *)
Inductive LogMessage :=
  | MsgInitialized
  | MsgNoAvailableElevator (fl : Z) (d : CallDirection)
  | MsgCallAssigned (fl : Z) (d : CallDirection) (elevator : Z)
  | MsgReassigned (fl : Z) (d : CallDirection) (elevator : Z)
  | MsgDisembarked (elevator fl : Z)
  | MsgNowIdle (elevator fl : Z)
  | MsgLoading (elevator fl : Z)
  | MsgFinishedLoading (elevator : Z) (destinations : gset Z)
  | MsgMoving (elevator : Z) (d : ElevatorDirection) (from to : Z)
  | MsgArrived (elevator fl : Z)
  | MsgSimulation (started : bool)
  | MsgLogsCleared.

(** The identifier [`log-${Date.now()}-${random}`] is kept as the pair of
    the time stamp and the random draw. *)
Record LogEntry := mkLogEntry {
  log_id : Z * Q;
  log_timestamp : Z;
  log_type : LogType;
  log_message : LogMessage;
  log_elevatorId : option Z;
  log_floor : option Z
}.

(** ** JavaScript library functions used by the source *)

(** [Array.prototype.sort(cmp)]: a stable sort; [cmp a b > 0] puts [a]
    after [b]. *)
Fixpoint sort_insert {A} (cmp : A → A → Z) (x : A) (l : list A) : list A :=
  match l with
  | [] => [x]
  | y :: l' => if 0 <? cmp x y then y :: sort_insert cmp x l' else x :: l
  end.

Definition array_sort {A} (cmp : A → A → Z) (l : list A) : list A :=
  foldr (sort_insert cmp) [] l.

(** [Array.prototype.reduce(f)] without an initial value, on a non-empty
    array; [None] stands for the [TypeError] on an empty one. *)
Definition array_reduce {A} (f : A → A → A) (l : list A) : option A :=
  match l with
  | [] => None
  | x :: l' => Some (foldl f x l')
  end.

(** [Array.prototype.slice(start)]: a negative [start] counts from the
    end. *)
Definition array_slice {A} (start : Z) (l : list A) : list A :=
  let len := Z.of_nat (length l) in
  let k := if start <? 0 then Z.max (len + start) 0 else Z.min start len in
  drop (Z.to_nat k) l.

(** ** lib/elevatorDispatch.ts *)

Definition is_available (e : Elevator) : bool :=
  negb (isMoving e) && negb (isLoading e).

Definition canPickupWithoutDirectionChange (elevator : Elevator) (call : FloorCall) : bool :=
  if decide (direction elevator = IDLE) then true
  else if decide (direction elevator = as_elevator_direction (call_direction call)) then
    if decide (as_elevator_direction (call_direction call) = MOVING_UP)
    then currentFloor elevator <=? floor call
    else currentFloor elevator >=? floor call
  else false.

Definition calculateElevatorScore (elevator : Elevator) (call : FloorCall) : Z :=
  let score := 0 in
  let distance := Z.abs (currentFloor elevator - floor call) in
  let score := score + Z.max 0 (100 - distance * 10) in
  let score :=
    if decide (direction elevator = as_elevator_direction (call_direction call))
    then score + 50 else score in
  let score := if decide (direction elevator = IDLE) then score + 25 else score in
  let score :=
    if canPickupWithoutDirectionChange elevator call then score + 75 else score in
  let score := score - Z.of_nat (size (destinationFloors elevator)) * 5 in
  score.

Definition findBestElevator (elevators : list Elevator) (call : FloorCall) : option Elevator :=
  let availableElevators := filter (λ e, is_available e = true) elevators in
  if decide (length availableElevators = 0%nat) then None
  else
    let scoredElevators :=
      map (λ e, (e, calculateElevatorScore e call)) availableElevators in
    let sorted := array_sort (λ a b, snd b - snd a) scoredElevators in
    fst <$> head sorted.

Definition isCallCompatibleWithDirection (call : FloorCall) (elevatorDirection : ElevatorDirection) : bool :=
  bool_decide (elevatorDirection = IDLE)
  || bool_decide (as_elevator_direction (call_direction call) = elevatorDirection).

Definition shouldElevatorStop (elevator : Elevator) (fl : Z) (pendingCalls : list FloorCall) : bool :=
  if decide (fl ∈ destinationFloors elevator) then true
  else
    existsb (λ call,
      bool_decide (floor call = fl)
      && bool_decide (assignedElevator call = Some (id elevator))
      && isCallCompatibleWithDirection call (direction elevator)) pendingCalls.

(** The reducer of both [reduce] calls of [getNextDestination]. *)
Definition closer (currentFloor : Z) (closest fl : Z) : Z :=
  if Z.abs (fl - currentFloor) <? Z.abs (closest - currentFloor) then fl else closest.

Definition getNextDestination (elevator : Elevator) (pendingCalls : list FloorCall) : option Z :=
  let assignedCalls :=
    filter (λ call, assignedElevator call = Some (id elevator)) pendingCalls in
  let allDestinations : gset Z :=
    destinationFloors elevator ∪ list_to_set (map floor assignedCalls) in
  if decide (size allDestinations = 0%nat) then None
  else
    let destinations := array_sort (λ a b, a - b) (elements allDestinations) in
    let nearest := array_reduce (closer (currentFloor elevator)) destinations in
    if decide (direction elevator = IDLE) then nearest
    else
      let down_or_nearest :=
        if decide (direction elevator = MOVING_DOWN) then
          let downDestinations :=
            filter (λ fl, fl < currentFloor elevator) destinations in
          if decide (0 < length downDestinations)%nat
          then last downDestinations else nearest
        else nearest in
      if decide (direction elevator = MOVING_UP) then
        let upDestinations :=
          filter (λ fl, currentFloor elevator < fl) destinations in
        if decide (0 < length upDestinations)%nat
        then head upDestinations else down_or_nearest
      else down_or_nearest.

(** ** The mutable world of the program

    The service's [state], the pending [setTimeout] callbacks, the static
    [callIdCounter] of the factory, and the two oracles with the number of
    values already read from each. *)

Record ElevatorSystemState := mkState {
  elevators : list Elevator;
  pendingCalls : list FloorCall;
  logs : list LogEntry;
  isSimulationRunning : bool;
  systemStartTime : Z;
  totalCallsProcessed : Z
}.

(** The two callbacks handed to [setTimeout], with the variables they
    close over: the elevator (by reference) and a floor. *)
Inductive Callback :=
  | LoadingDone (elevator : nat) (fl : Z)
  | MoveDone (elevator : nat) (targetFloor : Z).

Record World := mkWorld {
  state : ElevatorSystemState;
  timers : list (Callback * Z);
  callIdCounter : Z;
  Date_now : nat → Z;
  clock_reads : nat;
  Math_random : nat → Q;
  random_reads : nat
}.

#[global] Instance Elevator_inhabited : Inhabited Elevator :=
  populate (mkElevator 0 0 IDLE false false ∅ 0 0).

(** *** Field updates *)

Definition set_currentFloor (v : Z) (e : Elevator) : Elevator :=
  mkElevator (id e) v (direction e) (isMoving e) (isLoading e)
    (destinationFloors e) (passengers e) (lastActivity e).
Definition set_direction (v : ElevatorDirection) (e : Elevator) : Elevator :=
  mkElevator (id e) (currentFloor e) v (isMoving e) (isLoading e)
    (destinationFloors e) (passengers e) (lastActivity e).
Definition set_isMoving (v : bool) (e : Elevator) : Elevator :=
  mkElevator (id e) (currentFloor e) (direction e) v (isLoading e)
    (destinationFloors e) (passengers e) (lastActivity e).
Definition set_isLoading (v : bool) (e : Elevator) : Elevator :=
  mkElevator (id e) (currentFloor e) (direction e) (isMoving e) v
    (destinationFloors e) (passengers e) (lastActivity e).
Definition set_destinationFloors (v : gset Z) (e : Elevator) : Elevator :=
  mkElevator (id e) (currentFloor e) (direction e) (isMoving e) (isLoading e)
    v (passengers e) (lastActivity e).
Definition set_passengers (v : nat) (e : Elevator) : Elevator :=
  mkElevator (id e) (currentFloor e) (direction e) (isMoving e) (isLoading e)
    (destinationFloors e) v (lastActivity e).
Definition set_lastActivity (v : Z) (e : Elevator) : Elevator :=
  mkElevator (id e) (currentFloor e) (direction e) (isMoving e) (isLoading e)
    (destinationFloors e) (passengers e) v.

(** [{ ...call, assignedElevator: v }] *)
Definition set_assignedElevator (v : Z) (c : FloorCall) : FloorCall :=
  mkFloorCall (call_id c) (floor c) (call_direction c) (call_timestamp c) (Some v).

Definition set_elevators (v : list Elevator) (s : ElevatorSystemState) :=
  mkState v (pendingCalls s) (logs s) (isSimulationRunning s)
    (systemStartTime s) (totalCallsProcessed s).
Definition set_pendingCalls (v : list FloorCall) (s : ElevatorSystemState) :=
  mkState (elevators s) v (logs s) (isSimulationRunning s)
    (systemStartTime s) (totalCallsProcessed s).
Definition set_logs (v : list LogEntry) (s : ElevatorSystemState) :=
  mkState (elevators s) (pendingCalls s) v (isSimulationRunning s)
    (systemStartTime s) (totalCallsProcessed s).
Definition set_isSimulationRunning (v : bool) (s : ElevatorSystemState) :=
  mkState (elevators s) (pendingCalls s) (logs s) v
    (systemStartTime s) (totalCallsProcessed s).
Definition set_totalCallsProcessed (v : Z) (s : ElevatorSystemState) :=
  mkState (elevators s) (pendingCalls s) (logs s) (isSimulationRunning s)
    (systemStartTime s) v.

Definition set_state (v : ElevatorSystemState) (w : World) : World :=
  mkWorld v (timers w) (callIdCounter w)
    (Date_now w) (clock_reads w) (Math_random w) (random_reads w).

(** *** Effectful computations: a state monad over the world *)

Definition Eff (A : Type) : Type := World → A * World.

Definition ret {A} (a : A) : Eff A := λ w, (a, w).
Definition bind {A B} (m : Eff A) (k : A → Eff B) : Eff B :=
  λ w, let '(a, w') := m w in k a w'.

Notation "x <- m ;; k" := (bind m (λ x, k))
  (at level 100, m at next level, right associativity).
Notation "m ;; k" := (bind m (λ _, k))
  (at level 100, right associativity).

(** The world after a computation, and its result. *)
Definition exec {A} (m : Eff A) (w : World) : World := (m w).2.
Definition eval {A} (m : Eff A) (w : World) : A := (m w).1.

Definition when (b : bool) (m : Eff unit) : Eff unit :=
  if b then m else ret tt.

(** [Array.prototype.forEach] *)
Fixpoint forEach {A} (l : list A) (f : A → Eff unit) : Eff unit :=
  match l with
  | [] => ret tt
  | x :: l' => f x ;; forEach l' f
  end.

Definition get_state : Eff ElevatorSystemState := λ w, (state w, w).
Definition modify_state (f : ElevatorSystemState → ElevatorSystemState) : Eff unit :=
  λ w, (tt, set_state (f (state w)) w).

(** [Date.now()] *)
Definition now : Eff Z := λ w,
  (Date_now w (clock_reads w),
   mkWorld (state w) (timers w) (callIdCounter w)
     (Date_now w) (S (clock_reads w)) (Math_random w) (random_reads w)).

(** [Math.random()] *)
Definition random : Eff Q := λ w,
  (Math_random w (random_reads w),
   mkWorld (state w) (timers w) (callIdCounter w)
     (Date_now w) (clock_reads w) (Math_random w) (S (random_reads w))).

(** [Math.floor(Math.random() * n)] *)
Definition random_below (n : Z) : Eff Z :=
  r <- random ;; ret (Qfloor (r * inject_Z n)).

(** [++this.callIdCounter] *)
Definition next_callId : Eff Z := λ w,
  (callIdCounter w + 1,
   mkWorld (state w) (timers w) (callIdCounter w + 1)
     (Date_now w) (clock_reads w) (Math_random w) (random_reads w)).

(** [setTimeout(callback, ms)] *)
Definition setTimeout (callback : Callback) (ms : Z) : Eff unit := λ w,
  (tt,
   mkWorld (state w) (timers w ++ [(callback, ms)]) (callIdCounter w)
     (Date_now w) (clock_reads w) (Math_random w) (random_reads w)).

(** Reading and mutating the elevator object behind a reference. *)
Definition read_elevator (i : nat) : Eff Elevator :=
  λ w, (elevators (state w) !!! i, w).
Definition update_elevator (i : nat) (f : Elevator → Elevator) : Eff unit :=
  modify_state (λ s, set_elevators (alter f i (elevators s)) s).

(** ** lib/elevatorFactory.ts *)

(** The three [throw new Error(...)] of [createFloorCall]. *)
Inductive FactoryError :=
  | InvalidFloor (fl : Z)
  | CannotGoDownFromGroundFloor
  | CannotGoUpFromTopFloor.

Inductive Result (A : Type) :=
  | Returned (a : A)
  | Thrown (err : FactoryError).
Arguments Returned {A} a.
Arguments Thrown {A} err.

Definition createInitialElevators : Eff (list Elevator) :=
  (fix from_indices (indices : list nat) : Eff (list Elevator) :=
     match indices with
     | [] => ret []
     | index :: rest =>
         t <- now ;;
         es <- from_indices rest ;;
         ret (mkElevator (Z.of_nat index + 1) 1 IDLE false false ∅ 0 t :: es)
     end) (seq 0 ELEVATOR_COUNT).

Definition generateRandomCall : Eff FloorCall :=
  n <- random_below FLOORS ;;
  let fl := n + 1 in
  r <- random ;;
  let direction := if Qlt_le_dec (1 # 2) r then UP else DOWN in
  let direction := if decide (fl = 1) then UP else direction in
  let direction := if decide (fl = FLOORS) then DOWN else direction in
  counter <- next_callId ;;
  t <- now ;;
  timestamp <- now ;;
  ret (mkFloorCall (counter, t) fl direction timestamp None).

Definition createFloorCall (fl : Z) (direction : CallDirection) : Eff (Result FloorCall) :=
  if (fl <? 1) || (fl >? FLOORS) then ret (Thrown (InvalidFloor fl))
  else if bool_decide (fl = 1) && bool_decide (direction = DOWN)
  then ret (Thrown CannotGoDownFromGroundFloor)
  else if bool_decide (fl = FLOORS) && bool_decide (direction = UP)
  then ret (Thrown CannotGoUpFromTopFloor)
  else
    counter <- next_callId ;;
    t <- now ;;
    timestamp <- now ;;
    ret (Returned (mkFloorCall (counter, t) fl direction timestamp None)).

Definition createLogEntry (type : LogType) (message : LogMessage)
    (elevatorId fl : option Z) : Eff LogEntry :=
  t <- now ;;
  r <- random ;;
  timestamp <- now ;;
  ret (mkLogEntry (t, r) timestamp type message elevatorId fl).

(** The [do ... while] loop of [generatePassengerDestinations]: it draws a
    floor and counts the attempt, and goes round again while the floor is
    rejected and fewer than 10 attempts were made. [budget] bounds the
    number of further rounds; it is never what stops the loop (lemma
    [draw_destination_budget]). The result is the last floor drawn and the
    number of attempts. *)
Fixpoint draw_destination (budget : nat) (currentFloor : Z)
    (destinations : gset Z) (attempts : Z) : Eff (Z * Z) :=
  n <- random_below FLOORS ;;
  let destination := n + 1 in
  let attempts := attempts + 1 in
  match budget with
  | S budget' =>
      if (bool_decide (destination = currentFloor)
          || bool_decide (destination ∈ destinations))
         && (attempts <? 10)
      then draw_destination budget' currentFloor destinations attempts
      else ret (destination, attempts)
  | O => ret (destination, attempts)
  end.

(** The body of the [for] loop, run for the remaining iterations. *)
Fixpoint fill_destinations (iterations : nat) (currentFloor : Z)
    (destinations : gset Z) : Eff (gset Z) :=
  match iterations with
  | O => ret destinations
  | S iterations' =>
      drawn <- draw_destination 10 currentFloor destinations 0 ;;
      let destination := drawn.1 in
      let attempts := drawn.2 in
      let destinations :=
        if attempts <? 10 then {[destination]} ∪ destinations else destinations in
      fill_destinations iterations' currentFloor destinations
  end.

Definition generatePassengerDestinations (currentFloor : Z) (maxDestinations : Z) : Eff (gset Z) :=
  n <- random_below maxDestinations ;;
  let numDestinations := n + 1 in
  fill_destinations (Z.to_nat numDestinations) currentFloor ∅.

Definition createInitialSystemState : Eff ElevatorSystemState :=
  es <- createInitialElevators ;;
  t <- now ;;
  ret (mkState es [] [] false t 0).

(** ** services/ElevatorControlService.ts *)

Definition addLog (type : LogType) (message : LogMessage)
    (elevatorId fl : option Z) : Eff unit :=
  logEntry <- createLogEntry type message elevatorId fl ;;
  s <- get_state ;;
  when (Z.of_nat (length (logs s)) >=? MAX_LOG_ENTRIES)
    (modify_state (λ s, set_logs (array_slice (- MAX_LOG_ENTRIES + 1) (logs s)) s)) ;;
  modify_state (λ s, set_logs (logs s ++ [logEntry]) s).

(** [constructor()] *)
Definition constructor : Eff unit :=
  s <- createInitialSystemState ;;
  modify_state (λ _, s) ;;
  addLog SYSTEM MsgInitialized None None.

Definition addFloorCall (call : FloorCall) : Eff unit :=
  s <- get_state ;;
  match findBestElevator (elevators s) call with
  | None =>
      addLog SYSTEM (MsgNoAvailableElevator (floor call) (call_direction call))
        None None ;;
      modify_state (λ s, set_pendingCalls (pendingCalls s ++ [call]) s)
  | Some bestElevator =>
      let assignedCall := set_assignedElevator (id bestElevator) call in
      modify_state (λ s, set_pendingCalls (pendingCalls s ++ [assignedCall]) s) ;;
      addLog CALL
        (MsgCallAssigned (floor call) (call_direction call) (id bestElevator))
        (Some (id bestElevator)) (Some (floor call))
  end.

(** [!call.assignedElevator]: true for [undefined] and for [0]. *)
Definition not_assigned (call : FloorCall) : bool :=
  match assignedElevator call with
  | None => true
  | Some n => n =? 0
  end.

Definition reassignUnassignedCalls : Eff unit :=
  s <- get_state ;;
  let unassignedCalls := filter (λ call, not_assigned call = true) (pendingCalls s) in
  forEach unassignedCalls (λ call,
    s <- get_state ;;
    match findBestElevator (elevators s) call with
    | Some bestElevator =>
        match list_find (λ c, call_id c = call_id call) (pendingCalls s) with
        | Some (callIndex, _) =>
            modify_state (λ s,
              set_pendingCalls
                (<[callIndex := set_assignedElevator (id bestElevator) call]>
                   (pendingCalls s)) s) ;;
            addLog SYSTEM
              (MsgReassigned (floor call) (call_direction call) (id bestElevator))
              (Some (id bestElevator)) (Some (floor call))
        | None => ret tt
        end
    | None => ret tt
    end).

Definition handlePassengerDropoff (elevator : nat) (fl : Z) : Eff unit :=
  update_elevator elevator
    (λ e, set_destinationFloors (destinationFloors e ∖ {[fl]}) e) ;;
  update_elevator elevator
    (λ e, set_passengers (size (destinationFloors e)) e) ;;
  t <- now ;;
  update_elevator elevator (set_lastActivity t) ;;
  e <- read_elevator elevator ;;
  addLog DROPOFF (MsgDisembarked (id e) fl) (Some (id e)) (Some fl) ;;
  e <- read_elevator elevator ;;
  when (bool_decide (size (destinationFloors e) = 0%nat))
    (update_elevator elevator (set_direction IDLE) ;;
     addLog SYSTEM (MsgNowIdle (id e) fl) (Some (id e)) (Some fl)).

Definition handlePassengerPickup (elevator : nat) (fl : Z) (call : FloorCall) : Eff unit :=
  update_elevator elevator (set_isLoading true) ;;
  t <- now ;;
  update_elevator elevator (set_lastActivity t) ;;
  e <- read_elevator elevator ;;
  addLog PICKUP (MsgLoading (id e) fl) (Some (id e)) (Some fl) ;;
  modify_state (λ s,
    set_pendingCalls (filter (λ c, call_id c ≠ call_id call) (pendingCalls s)) s) ;;
  modify_state (λ s, set_totalCallsProcessed (totalCallsProcessed s + 1) s) ;;
  setTimeout (LoadingDone elevator fl) LOADING_DURATION_MS.

Definition handleElevatorAtFloor (elevator : nat) : Eff unit :=
  e <- read_elevator elevator ;;
  let currentFloor := currentFloor e in
  s <- get_state ;;
  if negb (shouldElevatorStop e currentFloor (pendingCalls s)) then ret tt
  else
    when (bool_decide (currentFloor ∈ destinationFloors e))
      (handlePassengerDropoff elevator currentFloor) ;;
    s <- get_state ;;
    let pickupCall :=
      find (λ call, bool_decide (floor call = currentFloor)
                    && bool_decide (assignedElevator call = Some (id e)))
        (pendingCalls s) in
    match pickupCall with
    | Some pickupCall => handlePassengerPickup elevator currentFloor pickupCall
    | None => ret tt
    end.

Definition moveElevator (elevator : nat) (targetFloor : Z) : Eff unit :=
  e <- read_elevator elevator ;;
  let direction :=
    if targetFloor >? currentFloor e then MOVING_UP else MOVING_DOWN in
  update_elevator elevator (set_isMoving true) ;;
  update_elevator elevator (set_direction direction) ;;
  t <- now ;;
  update_elevator elevator (set_lastActivity t) ;;
  e <- read_elevator elevator ;;
  addLog MOVEMENT (MsgMoving (id e) direction (currentFloor e) targetFloor)
    (Some (id e)) None ;;
  setTimeout (MoveDone elevator targetFloor) MOVE_DURATION_MS.

Definition moveElevatorToNextDestination (elevator : nat) : Eff unit :=
  e <- read_elevator elevator ;;
  s <- get_state ;;
  let nextDestination := getNextDestination e (pendingCalls s) in
  let settle :=
    when (bool_decide (direction e ≠ IDLE))
      (update_elevator elevator (set_direction IDLE) ;;
       addLog SYSTEM (MsgNowIdle (id e) (currentFloor e))
         (Some (id e)) (Some (currentFloor e))) in
  match nextDestination with
  | None => settle
  | Some targetFloor =>
      (* [!nextDestination] also holds for the number [0] *)
      if (targetFloor =? 0) || (targetFloor =? currentFloor e) then settle
      else moveElevator elevator targetFloor
  end.

(** The arrow function [processElevatorLogic] hands to [forEach]. *)
Definition process_elevator (elevator : nat) : Eff unit :=
  e <- read_elevator elevator ;;
  if isMoving e || isLoading e then ret tt
  else
    handleElevatorAtFloor elevator ;;
    moveElevatorToNextDestination elevator.

Definition processElevatorLogic : Eff unit :=
  s <- get_state ;;
  forEach (seq 0 (length (elevators s))) process_elevator ;;
  reassignUnassignedCalls.

(** The callback of [handlePassengerPickup], run when its timer fires. *)
Definition loading_done (elevator : nat) (fl : Z) : Eff unit :=
  e <- read_elevator elevator ;;
  when (isLoading e)
    (destinations <- generatePassengerDestinations fl 3 ;;
     update_elevator elevator
       (λ e, set_destinationFloors (destinationFloors e ∪ destinations) e) ;;
     update_elevator elevator
       (λ e, set_passengers (size (destinationFloors e)) e) ;;
     update_elevator elevator (set_isLoading false) ;;
     addLog SYSTEM (MsgFinishedLoading (id e) destinations)
       (Some (id e)) (Some fl)).

(** The callback of [moveElevator], run when its timer fires. *)
Definition move_done (elevator : nat) (targetFloor : Z) : Eff unit :=
  e <- read_elevator elevator ;;
  when (isMoving e)
    (update_elevator elevator (set_currentFloor targetFloor) ;;
     update_elevator elevator (set_isMoving false) ;;
     addLog MOVEMENT (MsgArrived (id e) targetFloor)
       (Some (id e)) (Some targetFloor)).

Definition run_callback (callback : Callback) : Eff unit :=
  match callback with
  | LoadingDone elevator fl => loading_done elevator fl
  | MoveDone elevator targetFloor => move_done elevator targetFloor
  end.

Definition toggleSimulation : Eff unit :=
  modify_state (λ s, set_isSimulationRunning (negb (isSimulationRunning s)) s) ;;
  s <- get_state ;;
  addLog SYSTEM (MsgSimulation (isSimulationRunning s)) None None.

Definition clearLogs : Eff unit :=
  modify_state (set_logs []) ;;
  addLog SYSTEM MsgLogsCleared None None.


(** [generateRandomCall()] of the service; the factory function of the
    same name makes the call. *)
Module ElevatorControlService.
Definition generateRandomCall : Eff unit :=
  call <- generateRandomCall ;;
  addFloorCall call.
End ElevatorControlService.

(** [getSystemMetrics()] *)
Record SystemMetrics := mkSystemMetrics {
  uptime : Z;
  metrics_totalCallsProcessed : Z;
  metrics_pendingCalls : nat;
  activeElevators : nat;
  idleElevators : nat
}.

Definition getSystemMetrics : Eff SystemMetrics :=
  t <- now ;;
  s <- get_state ;;
  let uptime := t - systemStartTime s in
  ret (mkSystemMetrics uptime
         (totalCallsProcessed s)
         (length (pendingCalls s))
         (length (filter (λ e, isMoving e || isLoading e = true) (elevators s)))
         (length (filter (λ e, direction e = IDLE) (elevators s)))).

(** ** components/ControlPanel.tsx *)

(** The three shapes of the text [formatUptime] makes: [`${h}h ${m}m`],
    [`${m}m ${s}s`] and [`${s}s`]. *)
Inductive UptimeText :=
  | Hours_minutes (h m : Z)
  | Minutes_seconds (m s : Z)
  | Seconds (s : Z).

(** [Math.floor(a / b)] is [a / b] on [Z]; the operator [%] of JavaScript
    is the remainder of the truncated division, [Z.rem]. *)
Definition formatUptime (uptime : Z) : UptimeText :=
  let seconds := uptime / 1000 in
  let minutes := seconds / 60 in
  let hours := minutes / 60 in
  if hours >? 0 then Hours_minutes hours (Z.rem minutes 60)
  else if minutes >? 0 then Minutes_seconds minutes (Z.rem seconds 60)
  else Seconds seconds.

(** ** hooks/useElevatorSystem.ts *)

(** [handleFloorCall]: the result is the value it leaves in the [error]
    state of the hook, [None] for [setError(null)]. *)
Definition handleFloorCall (fl : Z) (direction : CallDirection) : Eff (option FactoryError) :=
  created <- createFloorCall fl direction ;;
  match created with
  | Returned call => addFloorCall call ;; ret None
  | Thrown err => ret (Some err)
  end.

(** ** The call buttons of a floor ([FloorCallButtons]) *)

Definition canGoUp (fl : Z) : bool := fl <? FLOORS.
Definition canGoDown (fl : Z) : bool := fl >? 1.

(** [handleUpCall] and [handleDownCall], with [onFloorCall] the
    [handleFloorCall] of the hook, as the page wires them. The result is
    [None] when the click does nothing. *)
Definition handleUpCall (fl : Z) : Eff (option (option FactoryError)) :=
  if canGoUp fl then err <- handleFloorCall fl UP ;; ret (Some err)
  else ret None.
Definition handleDownCall (fl : Z) : Eff (option (option FactoryError)) :=
  if canGoDown fl then err <- handleFloorCall fl DOWN ;; ret (Some err)
  else ret None.

(** ** The earlier dispatch functions (module-level functions with the
    constants [FLOORS = 10] and [ELEVATOR_COUNT = 4]) *)

Module Legacy.

(** The reducer of both [reduce] calls of [findBestElevator]. *)
Definition closer_car (call : FloorCall) (closest current : Elevator) : Elevator :=
  let closestDistance := Z.abs (currentFloor closest - floor call) in
  let currentDistance := Z.abs (currentFloor current - floor call) in
  if currentDistance <? closestDistance then current else closest.

Definition findBestElevator (elevators : list Elevator) (call : FloorCall) : option Elevator :=
  let availableElevators := filter (λ e, is_available e = true) elevators in
  if decide (length availableElevators = 0%nat) then None
  else
    let sameDirectionElevators :=
      filter (λ elevator,
        (if decide (direction elevator = IDLE) then true
         else if decide (direction elevator = as_elevator_direction (call_direction call))
         then
           if decide (call_direction call = UP)
           then currentFloor elevator <=? floor call
           else currentFloor elevator >=? floor call
         else false) = true) availableElevators in
    if decide (0 < length sameDirectionElevators)%nat
    then array_reduce (closer_car call) sameDirectionElevators
    else array_reduce (closer_car call) availableElevators.

Definition getNextDestination (elevator : Elevator) (pendingCalls : list FloorCall) : option Z :=
  let relevantCalls :=
    filter (λ call, assignedElevator call = Some (id elevator)) pendingCalls in
  let allDestinations : gset Z :=
    destinationFloors elevator ∪ list_to_set (map floor relevantCalls) in
  if decide (size allDestinations = 0%nat) then None
  else
    let destinations := array_sort (λ a b, a - b) (elements allDestinations) in
    let first := head destinations in
    let down_or_first :=
      if decide (direction elevator = MOVING_DOWN ∨ direction elevator = IDLE) then
        let downDestinations :=
          filter (λ fl, fl < currentFloor elevator) destinations in
        if decide (0 < length downDestinations)%nat
        then last downDestinations else first
      else first in
    if decide (direction elevator = MOVING_UP ∨ direction elevator = IDLE) then
      let upDestinations :=
        filter (λ fl, currentFloor elevator < fl) destinations in
      if decide (0 < length upDestinations)%nat
      then head upDestinations else down_or_first
    else down_or_first.

End Legacy.

(** * Vocabulary of the properties *)

(** The car reaches the call floor without reversing: it is idle, or it
    moves in the direction of the call and is on the approach side. *)
Definition reaches_without_reversing (car : Elevator) (call : FloorCall) : Prop :=
  direction car = IDLE
  ∨ (direction car = as_elevator_direction (call_direction call)
     ∧ match call_direction call with
       | UP => (currentFloor car ≤ floor call)%Z
       | DOWN => (floor call ≤ currentFloor car)%Z
       end).

#[global] Instance reaches_without_reversing_dec car call :
  Decision (reaches_without_reversing car call).
Proof. unfold reaches_without_reversing. destruct (call_direction call); apply _. Defined.

(** [x] is a floor the car has to visit: a destination of its passengers or
    the floor of a pending call assigned to it. *)
Definition is_destination (car : Elevator) (calls : list FloorCall) (x : Z) : Prop :=
  x ∈ destinationFloors car
  ∨ ∃ c, c ∈ calls ∧ assignedElevator c = Some (id car) ∧ floor c = x.

(** [r] is the floor to visit nearest the car's floor, the lower one of two
    at the same distance. *)
Definition nearest_destination (car : Elevator) (calls : list FloorCall) (r : Z) : Prop :=
  is_destination car calls r
  ∧ ∀ x, is_destination car calls x →
      Z.abs (r - currentFloor car) ≤ Z.abs (x - currentFloor car)
      ∧ (Z.abs (x - currentFloor car) = Z.abs (r - currentFloor car) → r ≤ x).

(** [r] is the lowest floor to visit above the car. *)
Definition next_above (car : Elevator) (calls : list FloorCall) (r : Z) : Prop :=
  is_destination car calls r ∧ currentFloor car < r
  ∧ ∀ x, is_destination car calls x → currentFloor car < x → r ≤ x.

(** [r] is the highest floor to visit below the car. *)
Definition next_below (car : Elevator) (calls : list FloorCall) (r : Z) : Prop :=
  is_destination car calls r ∧ r < currentFloor car
  ∧ ∀ x, is_destination car calls x → x < currentFloor car → x ≤ r.

(** The entry [createLogEntry] builds in world [w]. *)
Definition new_log_entry (w : World) (type : LogType) (message : LogMessage)
    (elevatorId fl : option Z) : LogEntry :=
  mkLogEntry (Date_now w (clock_reads w), Math_random w (random_reads w))
    (Date_now w (S (clock_reads w))) type message elevatorId fl.

(** What [addLog] does to the array of logs. *)
Definition push_log (entry : LogEntry) (logs : list LogEntry) : list LogEntry :=
  (if Z.of_nat (length logs) >=? MAX_LOG_ENTRIES
   then array_slice (- MAX_LOG_ENTRIES + 1) logs else logs) ++ [entry].

(** The newest [n] elements of an array. *)
Definition newest {A} (n : nat) (l : list A) : list A := drop (length l - n) l.

(** An event handed to [addLog]: its four arguments. *)
Record LogEvent := mkLogEvent {
  ev_type : LogType;
  ev_message : LogMessage;
  ev_elevatorId : option Z;
  ev_floor : option Z
}.

Definition log_event (ev : LogEvent) : Eff unit :=
  addLog (ev_type ev) (ev_message ev) (ev_elevatorId ev) (ev_floor ev).

Definition event_of (entry : LogEntry) : LogEvent :=
  mkLogEvent (log_type entry) (log_message entry)
    (log_elevatorId entry) (log_floor entry).

(** The elevator behind the reference [i] is [e]; the others are those of
    the world [w]. *)
Definition elevator_becomes (w w' : World) (i : nat) (e : Elevator) : Prop :=
  elevators (state w') = <[i := e]> (elevators (state w)).

(** [c] is a pending call for the car [e] at the floor where it stands. *)
Definition waits_for (e : Elevator) (c : FloorCall) : Prop :=
  floor c = currentFloor e ∧ assignedElevator c = Some (id e).

(** The car is at rest: available, idle and without destinations. *)
Definition at_rest (e : Elevator) : Prop :=
  isMoving e = false ∧ isLoading e = false
  ∧ direction e = IDLE ∧ destinationFloors e = ∅.

(** Every identifier handed out so far carries a counter value that is not
    above the factory's [callIdCounter]. *)
Definition issued_so_far (w : World) (ids : list CallId) : Prop :=
  ∀ i, i ∈ ids → i.1 ≤ callIdCounter w.

(** Every value of the [Math.random()] oracle lies in the interval [0,1). *)
Definition random_in_unit_interval (w : World) : Prop :=
  ∀ k, (0 <= Math_random w k)%Q ∧ (Math_random w k < 1)%Q.

(** The floor [Math.floor(Math.random() * FLOORS) + 1] made from the k-th
    value of the oracle. *)
Definition floor_draw (w : World) (k : nat) : Z :=
  Qfloor (Math_random w k * inject_Z FLOORS) + 1.

(** One more value read from the [Math.random()] oracle. *)
Definition after_random (w : World) : World :=
  mkWorld (state w) (timers w) (callIdCounter w)
    (Date_now w) (clock_reads w) (Math_random w) (S (random_reads w)).

(** A world for examples: the clock counts from 1000, every random draw
    is [r], and the fleet is the one the constructor makes. *)
Definition blank_world (r : Q) : World :=
  mkWorld (mkState [] [] [] false 0 0) [] 0
    (λ k, 1000 + Z.of_nat k) 0 (λ _, r) 0.

Definition initial_world (r : Q) : World := exec constructor (blank_world r).

Definition car (n fl : Z) (d : ElevatorDirection) (dests : gset Z) : Elevator :=
  mkElevator n fl d false false dests (size dests) 0.

Definition call_at (n fl : Z) (d : CallDirection) (assigned : option Z) : FloorCall :=
  mkFloorCall (n, 0) fl d 0 assigned.

(** A car at floor 5 with the single destination 5, in a fleet of two. *)
Definition dropoff_car : Elevator :=
  mkElevator 1 5 MOVING_UP false false {[5]} 1 0.

Definition dropoff_world : World :=
  mkWorld (mkState [dropoff_car; car 2 1 IDLE ∅] [] [] false 0 0) [] 0
    (λ k, 1000 + Z.of_nat k) 0 (λ _, 0%Q) 0.

(** Two calls assigned to car 1 wait at floor 5, where it stands idle. *)
Definition pickup_world : World :=
  mkWorld
    (mkState [car 1 5 IDLE ∅; car 2 1 IDLE ∅]
       [call_at 7 3 UP (Some 1); call_at 8 5 UP (Some 1); call_at 9 5 DOWN (Some 1)]
       [] false 0 0)
    [] 9 (λ k, 1000 + Z.of_nat k) 0 (λ _, 0%Q) 0.

Definition clear_event : LogEvent := mkLogEvent SYSTEM MsgLogsCleared None None.

(** The request is one the factory accepts: a floor of the building, not
    down from the ground floor and not up from the top floor. *)
Definition legal_request (fl : Z) (d : CallDirection) : Prop :=
  1 ≤ fl ≤ FLOORS ∧ ¬ (fl = 1 ∧ d = DOWN) ∧ ¬ (fl = FLOORS ∧ d = UP).

#[global] Instance legal_request_dec fl d : Decision (legal_request fl d).
Proof. unfold legal_request. apply _. Defined.

(** The computation keeps the property [P] of the world. *)
Definition preserves {A} (P : World → Prop) (m : Eff A) : Prop :=
  ∀ w, P w → P (exec m w).

(** The log is within its cap. *)
Definition log_bounded (s : ElevatorSystemState) : Prop :=
  (length (logs s) ≤ Z.to_nat MAX_LOG_ENTRIES)%nat.

(** The identifiers and the floors of the fleet, in fleet order. *)
Definition fleet_positions (s : ElevatorSystemState) : list (Z * Z) :=
  (λ e, (id e, currentFloor e)) <$> elevators s.

(** The fleet is in the positions [l]. *)
Definition positioned (l : list (Z * Z)) (s : ElevatorSystemState) : Prop :=
  fleet_positions s = l.

(** The elevator behind the reference [j] is [e]. *)
Definition elevator_is (j : nat) (e : Elevator) (s : ElevatorSystemState) : Prop :=
  elevators s !! j = Some e.

(** The car departs for the floor [getNextDestination] gives: a floor
    other than its own (and other than [0], which the test
    [!nextDestination] takes for no floor). *)
Definition departure (e : Elevator) (calls : list FloorCall) : option Z :=
  match getNextDestination e calls with
  | Some t => if (t =? 0) || (t =? currentFloor e) then None else Some t
  | None => None
  end.

(** The world [w'] is [w] after some more values were read from the
    [Math.random()] oracle. *)
Definition more_random_reads (w w' : World) : Prop :=
  ∃ k, w' = mkWorld (state w) (timers w) (callIdCounter w)
              (Date_now w) (clock_reads w) (Math_random w) k.

#[global] Instance FloorCall_eq_dec : EqDecision FloorCall.
Proof. unfold CallId. solve_decision. Defined.

(** The arrow function [reassignUnassignedCalls] hands to [forEach]. *)
Definition reassign_call (call : FloorCall) : Eff unit :=
  s <- get_state ;;
  match findBestElevator (elevators s) call with
  | Some bestElevator =>
      match list_find (λ c, call_id c = call_id call) (pendingCalls s) with
      | Some (callIndex, _) =>
          modify_state (λ s,
            set_pendingCalls
              (<[callIndex := set_assignedElevator (id bestElevator) call]>
                 (pendingCalls s)) s) ;;
          addLog SYSTEM
            (MsgReassigned (floor call) (call_direction call) (id bestElevator))
            (Some (id bestElevator)) (Some (floor call))
      | None => ret tt
      end
  | None => ret tt
  end.

(** What a reassignment pass makes of a pending call, for a given fleet:
    a call without an elevator gets the best car when there is one. *)
Definition reassigned (fleet : list Elevator) (call : FloorCall) : FloorCall :=
  if not_assigned call then
    match findBestElevator fleet call with
    | Some best => set_assignedElevator (id best) call
    | None => call
    end
  else call.

(** Every car counts as many passengers as it has destinations. *)
Definition passengers_counted (s : ElevatorSystemState) : Prop :=
  ∀ e, e ∈ elevators s → passengers e = size (destinationFloors e).

(** ** The life of a service

    What happens to a service once it is constructed, as the page drives
    it: a click on a call button, a random call, a tick of the control
    loop, a pending timer that fires (and is gone), the two buttons of the
    control panel, and the metrics being read. *)
Inductive Event :=
  | FloorButton (fl : Z) (direction : CallDirection)
  | RandomCall
  | Tick
  | Timeout (n : nat)
  | Toggle
  | Clear
  | Metrics.

(** The [n]-th pending timer fires: it leaves the pending timers and its
    callback runs. *)
Definition fire (n : nat) : Eff unit := λ w,
  match timers w !! n with
  | Some (callback, _) =>
      run_callback callback
        (mkWorld (state w) (delete n (timers w)) (callIdCounter w)
           (Date_now w) (clock_reads w) (Math_random w) (random_reads w))
  | None => (tt, w)
  end.

Definition happen (ev : Event) : Eff unit :=
  match ev with
  | FloorButton fl direction => handleFloorCall fl direction ;; ret tt
  | RandomCall => ElevatorControlService.generateRandomCall
  | Tick => processElevatorLogic
  | Timeout n => fire n
  | Toggle => toggleSimulation
  | Clear => clearLogs
  | Metrics => getSystemMetrics ;; ret tt
  end.

(** A service is constructed and lives through the events [evs]. *)
Definition lifetime (evs : list Event) : Eff unit :=
  constructor ;; forEach evs happen.

(** The floor is one of the building. *)
Definition in_building (fl : Z) : Prop := 1 ≤ fl ≤ FLOORS.

(** Every car stands at a floor of the building and has its destinations
    there, every pending call is a legal request, and every pending arrival
    is at a floor of the building. *)
Definition floors_in_building (w : World) : Prop :=
  (∀ e, e ∈ elevators (state w) →
     in_building (currentFloor e)
     ∧ ∀ x, x ∈ destinationFloors e → in_building x)
  ∧ (∀ c, c ∈ pendingCalls (state w) →
       legal_request (floor c) (call_direction c))
  ∧ (∀ i t ms, (MoveDone i t, ms) ∈ timers w → in_building t).

(** The pending calls have distinct identifiers, issued by the factory
    since its counter stood at [c0]; and every call issued since then is
    either pending or counted as processed. *)
Definition calls_accounted (c0 : Z) (w : World) : Prop :=
  NoDup (call_id <$> pendingCalls (state w))
  ∧ (∀ c, c ∈ pendingCalls (state w) → c0 < (call_id c).1 ≤ callIdCounter w)
  ∧ 0 ≤ totalCallsProcessed (state w)
  ∧ Z.of_nat (length (pendingCalls (state w))) + totalCallsProcessed (state w)
    = callIdCounter w - c0.

(** The queue, the counter of processed calls and the factory's counter
    are the given ones. *)
Definition queue_is (pcs : list FloorCall) (total ctr : Z) (w : World) : Prop :=
  pendingCalls (state w) = pcs
  ∧ totalCallsProcessed (state w) = total
  ∧ callIdCounter w = ctr.

(** The fleet, the queue and the pending timers are the given ones. *)
Definition scene_is (fleet : list Elevator) (queue : list FloorCall)
    (pending : list (Callback * Z)) (w : World) : Prop :=
  elevators (state w) = fleet
  ∧ pendingCalls (state w) = queue
  ∧ timers w = pending.

(** The clock never runs backwards. *)
Definition monotone_clock (w : World) : Prop :=
  ∀ j k, (j ≤ k)%nat → Date_now w j ≤ Date_now w k.

(** The service was started at the [j]-th reading of the clock [D]. *)
Definition clock_started (D : nat → Z) (j : nat) (w : World) : Prop :=
  Date_now w = D ∧ (j ≤ clock_reads w)%nat ∧ systemStartTime (state w) = D j.

(** The identifiers of the fleet, in fleet order. *)
Definition numbered (l : list Z) (s : ElevatorSystemState) : Prop :=
  id <$> elevators s = l.

Definition counter_is (c : Z) (w : World) : Prop := callIdCounter w = c.

Definition processed_so_far (s : ElevatorSystemState) : Prop :=
  0 ≤ totalCallsProcessed s.

(** The duration a text of [formatUptime] stands for, in milliseconds, and
    the step between two durations it can tell apart. *)
Definition shown_ms (t : UptimeText) : Z :=
  match t with
  | Hours_minutes h m => (h * 60 + m) * 60000
  | Minutes_seconds m s => (m * 60 + s) * 1000
  | Seconds s => s * 1000
  end.

Definition resolution_ms (t : UptimeText) : Z :=
  match t with
  | Hours_minutes _ _ => 60000
  | _ => 1000
  end.

(** The fields of the text are in the ranges of a clock. *)
Definition well_formed (t : UptimeText) : Prop :=
  match t with
  | Hours_minutes h m => 1 ≤ h ∧ 0 ≤ m < 60
  | Minutes_seconds m s => 1 ≤ m < 60 ∧ 0 ≤ s < 60
  | Seconds s => s < 60
  end.

(** Worlds for examples. A fleet of two in which the first car is on its
    way to floor 3 and a call waits for a car. *)
Definition moving_car : Elevator := mkElevator 1 1 MOVING_UP true false ∅ 0 0.

Definition busy_world : World :=
  mkWorld (mkState [moving_car; car 2 1 IDLE ∅] [call_at 1 5 UP None] [] false 0 0)
    [(MoveDone 0 3, MOVE_DURATION_MS)] 1 (λ k, 1000 + Z.of_nat k) 0 (λ _, 0%Q) 0.

(** The first car stands idle at floor 1 and has a call at floor 5; a
    second call has no car yet. *)
Definition call_world : World :=
  mkWorld
    (mkState [car 1 1 IDLE ∅; car 2 1 IDLE ∅]
       [call_at 1 5 UP (Some 1); call_at 2 7 DOWN None] [] false 0 0)
    [] 2 (λ k, 1000 + Z.of_nat k) 0 (λ _, 0%Q) 0.

(** The first car is loading at floor 5. *)
Definition loading_car : Elevator := mkElevator 1 5 IDLE false true {[8]} 1 0.

Definition loading_world : World :=
  mkWorld (mkState [loading_car; car 2 1 IDLE ∅] [] [] false 0 1)
    [(LoadingDone 0 5, LOADING_DURATION_MS)] 1
    (λ k, 1000 + Z.of_nat k) 0 (λ _, (1 # 2)%Q) 0.

(** The distance between a car and the floor of a call. *)
Definition distance_to (call : FloorCall) (car : Elevator) : Z :=
  Z.abs (currentFloor car - floor call).

(** A car the earlier dispatcher may choose: an available car, and one
    that reaches the call without reversing if the fleet [fleet] has an
    available car that does. *)
Definition candidate (fleet : list Elevator) (call : FloorCall) (car : Elevator) : Prop :=
  is_available car = true
  ∧ ((∃ c, c ∈ fleet ∧ is_available c = true ∧ reaches_without_reversing c call) →
     reaches_without_reversing car call).

(** [r] is the lowest floor the car has to visit. *)
Definition lowest_destination (car : Elevator) (calls : list FloorCall) (r : Z) : Prop :=
  is_destination car calls r ∧ ∀ x, is_destination car calls x → r ≤ x.

(** The first car, on its way up to floor 5, has reached floor 3, where a
    call for it waits. *)
Definition passing_car : Elevator := mkElevator 1 3 MOVING_UP false false {[5]} 1 0.

Definition passing_world : World :=
  mkWorld
    (mkState [passing_car; car 2 1 IDLE ∅] [call_at 1 3 UP (Some 1)] [] false 0 0)
    [] 1 (λ k, 1000 + Z.of_nat k) 0 (λ _, 0%Q) 0.

(** * Properties *)

(** ** The state monad *)

Lemma exec_bind {A B} (m : Eff A) (k : A → Eff B) w :
  exec (bind m k) w = exec (k (eval m w)) (exec m w).
Proof. unfold exec, eval, bind. by destruct (m w). Qed.

Lemma eval_bind {A B} (m : Eff A) (k : A → Eff B) w :
  eval (bind m k) w = eval (k (eval m w)) (exec m w).
Proof. unfold exec, eval, bind. by destruct (m w). Qed.

Lemma exec_ret {A} (a : A) w : exec (ret a) w = w.
Proof. reflexivity. Qed.

Lemma exec_forEach_app {A} (l1 l2 : list A) (f : A → Eff unit) w :
  exec (forEach (l1 ++ l2) f) w = exec (forEach l2 f) (exec (forEach l1 f) w).
Proof.
  revert w. induction l1 as [|x l1 IH]; intros w; simpl; [done|].
  rewrite !exec_bind. apply IH.
Qed.

(** ** The sort *)

Section Sort.
Context {A : Type} (cmp : A → A → Z).

Lemma sort_insert_perm x l : sort_insert cmp x l ≡ₚ x :: l.
Proof.
  induction l as [|y l IH]; simpl; [done|].
  destruct (0 <? cmp x y); [|done].
  rewrite IH. apply Permutation_swap.
Qed.

Lemma array_sort_perm l : array_sort cmp l ≡ₚ l.
Proof.
  induction l as [|x l IH]; simpl; [done|].
  rewrite sort_insert_perm. by f_equiv.
Qed.

Lemma array_sort_nil_inv l : array_sort cmp l = [] → l = [].
Proof.
  intros H. apply Permutation_nil_r. rewrite <- H.
  symmetry. apply array_sort_perm.
Qed.

(** The head of the sorted array is found by one pass from the right:
    an element takes the head unless the head so far must come before
    it. *)
Lemma head_sort_insert x l :
  head (sort_insert cmp x l) =
  match head l with
  | None => Some x
  | Some y => if 0 <? cmp x y then Some y else Some x
  end.
Proof. destruct l as [|y l]; simpl; [done|]. by destruct (0 <? cmp x y). Qed.
End Sort.

(** Ascending order of numbers. *)
Lemma sort_insert_sorted x l :
  Sorted Z.le l → Sorted Z.le (sort_insert (λ a b, a - b) x l).
Proof.
  induction l as [|y l IH]; intros Hs; simpl.
  - repeat constructor.
  - destruct (Z.ltb_spec 0 (x - y)).
    + apply Sorted_inv in Hs as [Hs Hhd]. constructor; [by apply IH|].
      destruct l as [|z l]; simpl.
      * constructor. lia.
      * destruct (Z.ltb_spec 0 (x - z)); constructor; try lia.
        by inversion Hhd.
    + constructor; [done|]. constructor. lia.
Qed.

Lemma array_sort_sorted l : Sorted Z.le (array_sort (λ a b, a - b) l).
Proof.
  induction l as [|x l IH]; simpl; [constructor|].
  by apply sort_insert_sorted.
Qed.

(** ** The dispatcher *)

Lemma canPickupWithoutDirectionChange_spec car call :
  canPickupWithoutDirectionChange car call = true ↔ reaches_without_reversing car call.
Proof.
  unfold canPickupWithoutDirectionChange, reaches_without_reversing.
  destruct (direction car), (call_direction call); simpl;
    rewrite ?Z.leb_le, ?Z.geb_le; split;
    first [ by left | by intros [?|[? _]] | by intros [?|[_ ?]]
          | by right | intros _; by left | idtac ].
Qed.

(** C2. The dispatch score of a car for a call is the sum of the distance
    term [max(0, 100 - 10·|currentFloor - floor|)], 50 when the car moves in
    the direction of the call, 25 when the car is idle, 75 when the car
    reaches the call floor without reversing, minus 5 for every destination
    of the car. *)
Theorem calculateElevatorScore_formula (car : Elevator) (call : FloorCall) :
  calculateElevatorScore car call =
    Z.max 0 (100 - 10 * Z.abs (currentFloor car - floor call))
    + (if decide (direction car = as_elevator_direction (call_direction call))
       then 50 else 0)
    + (if decide (direction car = IDLE) then 25 else 0)
    + (if decide (reaches_without_reversing car call) then 75 else 0)
    - 5 * Z.of_nat (size (destinationFloors car)).
Proof.
  unfold calculateElevatorScore.
  pose proof (canPickupWithoutDirectionChange_spec car call) as Hreach.
  destruct (canPickupWithoutDirectionChange car call);
    destruct (decide (reaches_without_reversing car call)) as [Hr|Hr];
    try (exfalso; apply Hr; by apply Hreach);
    try (apply Hreach in Hr; discriminate);
    repeat case_decide; lia.
Qed.

(** The head of the scored candidates sorted by descending score is the
    first candidate of maximal score. *)
Lemma head_sorted_by_score (score : Elevator → Z) (l : list Elevator) best s :
  head (array_sort (λ a b : Elevator * Z, b.2 - a.2) (map (λ e, (e, score e)) l))
    = Some (best, s) →
  ∃ l1 l2, l = l1 ++ best :: l2
    ∧ (∀ e, e ∈ l1 → score e < score best)
    ∧ (∀ e, e ∈ l2 → score e ≤ score best).
Proof.
  revert best s. induction l as [|x l IH]; intros best s; simpl; [done|].
  rewrite head_sort_insert.
  destruct (head (array_sort _ (map _ l))) as [[y sy]|] eqn:Hhd.
  - destruct (IH _ _ eq_refl) as (l1 & l2 & -> & Hlt & Hle).
    assert (sy = score y) as ->.
    { apply head_Some_elem_of in Hhd. rewrite array_sort_perm in Hhd.
      apply list_elem_of_fmap in Hhd as (e & [= -> ->] & _). done. }
    simpl. destruct (Z.ltb_spec 0 (score y - score x)); intros [= <- <-].
    + exists (x :: l1), l2. split_and!; [done| |done].
      intros e [->|?]%elem_of_cons; [lia|auto].
    + exists [], (l1 ++ y :: l2). split_and!; [done|by intros ? ?%elem_of_nil|].
      intros e [?|[->|?]%elem_of_cons]%elem_of_app.
      * apply Hlt in H0. lia.
      * lia.
      * apply Hle in H0. lia.
  - intros [= <- <-]. apply head_None in Hhd.
    apply array_sort_nil_inv, fmap_nil_inv in Hhd as ->.
    exists [], []. split_and!; [done|by intros ? ?%elem_of_nil..].
Qed.

Lemma filter_split {A} (P : A → Prop) `{∀ x, Decision (P x)} (l l1 l2 : list A) x :
  filter P l = l1 ++ x :: l2 →
  ∃ k1 k2, l = k1 ++ x :: k2 ∧ filter P k1 = l1 ∧ filter P k2 = l2 ∧ P x.
Proof.
  revert l1. induction l as [|a l IH]; intros l1; [by destruct l1|].
  rewrite filter_cons. destruct (decide (P a)) as [Ha|Ha].
  - destruct l1 as [|b l1]; simpl.
    + intros [= -> <-]. by exists [], l.
    + intros [= -> Hl]. destruct (IH _ Hl) as (k1 & k2 & -> & <- & <- & Hx).
      exists (b :: k1), k2. rewrite filter_cons, decide_True by done. done.
  - intros Hl. destruct (IH _ Hl) as (k1 & k2 & -> & <- & <- & Hx).
    exists (a :: k1), k2. rewrite filter_cons, decide_False by done. done.
Qed.

(** C3. [findBestElevator] returns nothing exactly when no car of the fleet
    is available (neither moving nor loading); otherwise it returns an
    available car of maximal score, and every available car before it in
    fleet order has a strictly smaller score: it is the first car of
    maximal score. Being a function of the fleet and the call, it returns
    the same car whenever it is invoked on the same inputs. *)
Theorem findBestElevator_first_best (fleet : list Elevator) (call : FloorCall) :
  (findBestElevator fleet call = None ↔ ∀ car, car ∈ fleet → is_available car = false)
  ∧ (∀ best, findBestElevator fleet call = Some best →
       ∃ i, fleet !! i = Some best
         ∧ is_available best = true
         ∧ (∀ car, car ∈ fleet → is_available car = true →
              calculateElevatorScore car call ≤ calculateElevatorScore best call)
         ∧ (∀ j car, (j < i)%nat → fleet !! j = Some car →
              is_available car = true →
              calculateElevatorScore car call < calculateElevatorScore best call))
  ∧ (∀ fleet' call', fleet' = fleet → call' = call →
       findBestElevator fleet' call' = findBestElevator fleet call).
Proof.
  split_and!.
  - unfold findBestElevator. case_decide as Hlen.
    + split; [intros _|done]. apply nil_length_inv in Hlen.
      intros car Hin. destruct (is_available car) eqn:Hav; [|done].
      assert (car ∈ filter (λ e, is_available e = true) fleet) as Hf
        by by apply list_elem_of_filter.
      rewrite Hlen in Hf. by apply elem_of_nil in Hf.
    + split.
      * intros Hnone. apply fmap_None, head_None, array_sort_nil_inv,
          fmap_nil_inv in Hnone. by rewrite Hnone in Hlen.
      * intros Hall. exfalso. apply Hlen.
        destruct (filter _ fleet) as [|car l] eqn:Hf; [done|].
        assert (car ∈ filter (λ e, is_available e = true) fleet) as Hin
          by (rewrite Hf; left).
        apply list_elem_of_filter in Hin as [Hav Hin].
        rewrite (Hall _ Hin) in Hav. done.
  - intros best. unfold findBestElevator. case_decide as Hlen; [done|].
    intros Hbest. apply fmap_Some in Hbest as ([b s] & Hhd & ->). simpl.
    apply head_sorted_by_score in Hhd as (l1 & l2 & Hf & Hlt & Hle).
    pose proof Hf as Hfilter.
    apply filter_split in Hf as (k1 & k2 & -> & <- & <- & Hav).
    exists (length k1). split_and!.
    + by rewrite list_lookup_middle.
    + done.
    + intros car Hin Hcar.
      assert (car ∈ filter (λ e, is_available e = true) (k1 ++ b :: k2)) as Hc
        by by apply list_elem_of_filter.
      rewrite Hfilter in Hc.
      apply elem_of_app in Hc as [Hc|[->|Hc]%elem_of_cons].
      * apply Hlt in Hc. lia.
      * lia.
      * by apply Hle.
    + intros j car Hj Hlook Hcar. apply Hlt, list_elem_of_filter.
      split; [done|]. rewrite lookup_app_l in Hlook by done.
      by eapply list_elem_of_lookup_2.
  - by intros ? ? -> ->.
Qed.

(** *** The next destination *)

Lemma foldl_closer c a l :
  StronglySorted Z.le (a :: l) →
  let r := foldl (closer c) a l in
  r ∈ a :: l
  ∧ ∀ y, y ∈ a :: l →
      Z.abs (r - c) ≤ Z.abs (y - c) ∧ (Z.abs (y - c) = Z.abs (r - c) → r ≤ y).
Proof.
  revert a. induction l as [|b l IH]; intros a Hs; simpl.
  - split; [left|]. intros y ->%list_elem_of_singleton. lia.
  - apply StronglySorted_inv in Hs as [Hs Ha].
    pose proof Hs as [Hs' Hb]%StronglySorted_inv.
    apply Forall_cons in Ha as [Hab Ha].
    assert (StronglySorted Z.le (closer c a b :: l)) as Hs''.
    { unfold closer. destruct (_ <? _); by constructor. }
    destruct (IH _ Hs'') as [Hin Hmin]. clear IH.
    set (r := foldl (closer c) (closer c a b) l) in *.
    assert (r ≤ a → a ≤ b → r ≤ b) as Htrans by lia.
    unfold closer in Hin, Hmin.
    destruct (Z.ltb_spec (Z.abs (b - c)) (Z.abs (a - c))) as [Hlt|Hge].
    + split; [by right|]. intros y [->|Hy]%elem_of_cons; [|by apply Hmin].
      destruct (Hmin b) as [? _]; [left|]. lia.
    + destruct (Hmin a) as [Hra Htie]; [left|]. split.
      { apply elem_of_cons in Hin as [->|?]; [left|by do 2 right]. }
      intros y [->|[->|Hy]%elem_of_cons]%elem_of_cons.
      * done.
      * split; [lia|]. intros Heq. apply Htrans; [|done]. apply Htie. lia.
      * apply Hmin. by right.
Qed.

Lemma head_filter_sorted (P : Z → Prop) `{∀ x, Decision (P x)} l r :
  StronglySorted Z.le l → head (filter P l) = Some r →
  r ∈ l ∧ P r ∧ ∀ y, y ∈ l → P y → r ≤ y.
Proof.
  induction l as [|a l IH]; intros Hs; [done|].
  apply StronglySorted_inv in Hs as [Hs Ha]. rewrite Forall_forall in Ha.
  rewrite filter_cons. destruct (decide (P a)) as [HPa|HPa]; simpl.
  - intros [= ->]. split_and!; [left|done|].
    intros y [->|Hy]%elem_of_cons _; [done|by apply Ha].
  - intros Hhd. destruct (IH Hs Hhd) as (Hin & HPr & Hmin).
    split_and!; [by right|done|].
    intros y [->|Hy]%elem_of_cons HPy; [done|by apply Hmin].
Qed.

Lemma last_filter_sorted (P : Z → Prop) `{∀ x, Decision (P x)} l r :
  StronglySorted Z.le l → last (filter P l) = Some r →
  r ∈ l ∧ P r ∧ ∀ y, y ∈ l → P y → y ≤ r.
Proof.
  induction l as [|a l IH]; intros Hs; [done|].
  apply StronglySorted_inv in Hs as [Hs Ha]. rewrite Forall_forall in Ha.
  rewrite filter_cons. destruct (decide (P a)) as [HPa|HPa]; simpl.
  - rewrite last_cons. destruct (last (filter P l)) as [r'|] eqn:Hlast.
    + intros [= ->]. destruct (IH Hs eq_refl) as (Hin & HPr & Hmax).
      split_and!; [by right|done|].
      intros y [->|Hy]%elem_of_cons HPy; [by apply Ha|by apply Hmax].
    + intros [= ->]. apply last_None in Hlast. split_and!; [left|done|].
      intros y [->|Hy]%elem_of_cons HPy; [done|].
      assert (y ∈ filter P l) as Hf by by apply list_elem_of_filter.
      rewrite Hlast in Hf. by apply elem_of_nil in Hf.
  - intros Hlast. destruct (IH Hs Hlast) as (Hin & HPr & Hmax).
    split_and!; [by right|done|].
    intros y [->|Hy]%elem_of_cons HPy; [done|by apply Hmax].
Qed.

(** The floors to visit, as the source collects and sorts them. *)
Lemma sorted_destinations car calls :
  let allDestinations : gset Z :=
    destinationFloors car ∪
    list_to_set (map floor
      (filter (λ call, assignedElevator call = Some (id car)) calls)) in
  let destinations := array_sort (λ a b, a - b) (elements allDestinations) in
  StronglySorted Z.le destinations
  ∧ (∀ x, x ∈ destinations ↔ is_destination car calls x)
  ∧ (size allDestinations = 0%nat ↔ ∀ x, ¬ is_destination car calls x).
Proof.
  intros D l.
  assert (∀ x, x ∈ D ↔ is_destination car calls x) as HD.
  { intros x. unfold D, is_destination.
    rewrite elem_of_union, elem_of_list_to_set, list_elem_of_fmap.
    setoid_rewrite list_elem_of_filter. naive_solver. }
  split_and!.
  - apply Sorted_StronglySorted; [apply _|]. apply array_sort_sorted.
  - intros x. unfold l. rewrite array_sort_perm, elem_of_elements. apply HD.
  - rewrite size_empty_iff. split.
    + intros Hempty x Hx%HD. by apply Hempty in Hx.
    + intros Hnone x. split; [intros Hx%HD; by apply Hnone in Hx|].
      by intros ?%not_elem_of_empty.
Qed.

Lemma array_reduce_nearest car calls l :
  StronglySorted Z.le l →
  (∀ x, x ∈ l ↔ is_destination car calls x) →
  (∃ x, is_destination car calls x) →
  ∃ r, array_reduce (closer (currentFloor car)) l = Some r
       ∧ nearest_destination car calls r.
Proof.
  intros Hs Hl [x Hx]. destruct l as [|a l]; [by apply Hl, elem_of_nil in Hx|].
  simpl. eexists; split; [done|].
  destruct (foldl_closer (currentFloor car) a l Hs) as [Hin Hmin].
  split; [by apply Hl|]. intros y Hy%Hl. by apply Hmin.
Qed.

Lemma getNextDestination_None car calls :
  getNextDestination car calls = None ↔ ∀ x, ¬ is_destination car calls x.
Proof.
  destruct (sorted_destinations car calls) as (Hs & Hl & Hsize).
  pose proof (array_reduce_nearest car calls _ Hs Hl) as Hnearest.
  unfold getNextDestination.
  set (D := destinationFloors car ∪ _) in *.
  set (l := array_sort _ (elements D)) in *.
  case_decide as H0; [by rewrite <- Hsize|].
  split; [|by intros ?%Hsize].
  assert (∃ x, is_destination car calls x) as Hex.
  { apply size_non_empty_iff, set_choose in H0 as [x Hx].
    exists x. apply Hl. unfold l. by rewrite array_sort_perm, elem_of_elements. }
  destruct (Hnearest Hex) as (r & Hr & _). intros Hnone.
  destruct (direction car); repeat case_decide; try congruence.
  - destruct (filter _ l) eqn:Hf; simpl in *; [lia|done].
  - destruct (filter (λ fl, fl < currentFloor car) l) as [|? ? _] eqn:Hf
      using rev_ind; simpl in *; [lia|]. by rewrite last_snoc in Hnone.
Qed.

(** C1. With [D] the destinations of the car together with the floors of
    the pending calls assigned to it, [getNextDestination] returns nothing
    exactly when [D] is empty. For an idle car it returns the floor of [D]
    nearest the car, the lower one on a tie. For a car moving up it returns
    the lowest floor of [D] above the car when there is one, for a car
    moving down the highest floor of [D] below the car when there is one;
    and when [D] has no floor in the direction of travel, the nearest floor
    of [D], with the same tie-break. *)
Theorem getNextDestination_spec (car : Elevator) (calls : list FloorCall) :
  (getNextDestination car calls = None ↔ ∀ x, ¬ is_destination car calls x)
  ∧ (direction car = IDLE → (∃ x, is_destination car calls x) →
       ∃ r, getNextDestination car calls = Some r ∧ nearest_destination car calls r)
  ∧ (direction car = MOVING_UP →
       (∃ x, is_destination car calls x ∧ currentFloor car < x) →
       ∃ r, getNextDestination car calls = Some r ∧ next_above car calls r)
  ∧ (direction car = MOVING_DOWN →
       (∃ x, is_destination car calls x ∧ x < currentFloor car) →
       ∃ r, getNextDestination car calls = Some r ∧ next_below car calls r)
  ∧ (direction car = MOVING_UP →
       (∃ x, is_destination car calls x) →
       (∀ x, is_destination car calls x → x ≤ currentFloor car) →
       ∃ r, getNextDestination car calls = Some r ∧ nearest_destination car calls r)
  ∧ (direction car = MOVING_DOWN →
       (∃ x, is_destination car calls x) →
       (∀ x, is_destination car calls x → currentFloor car ≤ x) →
       ∃ r, getNextDestination car calls = Some r ∧ nearest_destination car calls r).
Proof.
  destruct (sorted_destinations car calls) as (Hs & Hl & Hsize).
  pose proof (array_reduce_nearest car calls _ Hs Hl) as Hnearest.
  unfold getNextDestination.
  set (D := destinationFloors car ∪ _) in *.
  set (l := array_sort _ (elements D)) in *.
  assert ((∃ x, is_destination car calls x) → size D ≠ 0%nat) as Hne.
  { intros [x Hx] H0. exact (proj1 Hsize H0 x Hx). }
  split_and!.
  - apply getNextDestination_None.
  - intros Hd Hex. rewrite decide_False by auto. rewrite Hd. simpl. auto.
  - intros Hd (x & Hx & Hgt). rewrite decide_False by eauto. rewrite Hd. simpl.
    assert (x ∈ filter (λ fl, currentFloor car < fl) l) as Hf
      by (apply list_elem_of_filter; split; [done|by apply Hl]).
    destruct (filter (λ fl, currentFloor car < fl) l) as [|r up] eqn:Hup;
      [by apply elem_of_nil in Hf|].
    rewrite decide_True by (simpl; lia). exists r. split; [done|].
    destruct (head_filter_sorted (λ fl, currentFloor car < fl) l r Hs) as (? & ? & Hmin);
      [by rewrite Hup|].
    split_and!; [by apply Hl|done|]. intros y Hy%Hl. by apply Hmin.
  - intros Hd (x & Hx & Hlt). rewrite decide_False by eauto. rewrite Hd. simpl.
    assert (x ∈ filter (λ fl, fl < currentFloor car) l) as Hf
      by (apply list_elem_of_filter; split; [done|by apply Hl]).
    destruct (last (filter (λ fl, fl < currentFloor car) l)) as [r|] eqn:Hlast;
      [|apply last_None in Hlast; rewrite Hlast in Hf; by apply elem_of_nil in Hf].
    rewrite decide_True
      by (destruct (filter (λ fl, fl < currentFloor car) l); [done|simpl; lia]).
    exists r. split; [done|].
    destruct (last_filter_sorted (λ fl, fl < currentFloor car) l r Hs Hlast)
      as (? & ? & Hmax).
    split_and!; [by apply Hl|done|]. intros y Hy%Hl. by apply Hmax.
  - intros Hd Hex Hnone. rewrite decide_False by auto. rewrite Hd. simpl.
    assert (filter (λ fl, currentFloor car < fl) l = []) as ->.
    { destruct (filter _ l) as [|y ?] eqn:Hf; [done|].
      assert (y ∈ filter (λ fl, currentFloor car < fl) l) as Hy by (rewrite Hf; left).
      apply list_elem_of_filter in Hy as [Hgt Hy%Hl%Hnone]. lia. }
    rewrite decide_False by (simpl; lia). auto.
  - intros Hd Hex Hnone. rewrite decide_False by auto. rewrite Hd. simpl.
    assert (filter (λ fl, fl < currentFloor car) l = []) as ->.
    { destruct (filter _ l) as [|y ?] eqn:Hf; [done|].
      assert (y ∈ filter (λ fl, fl < currentFloor car) l) as Hy by (rewrite Hf; left).
      apply list_elem_of_filter in Hy as [Hgt Hy%Hl%Hnone]. lia. }
    rewrite decide_False by (simpl; lia). auto.
Qed.

(** ** The log *)

Lemma addLog_run type message elevatorId fl w :
  addLog type message elevatorId fl w =
  (tt, mkWorld
         (set_logs (push_log (new_log_entry w type message elevatorId fl)
                      (logs (state w))) (state w))
         (timers w) (callIdCounter w)
         (Date_now w) (S (S (clock_reads w)))
         (Math_random w) (S (random_reads w))).
Proof.
  unfold addLog, createLogEntry, bind, ret, when, get_state, modify_state,
    now, random, push_log, new_log_entry. simpl.
  by destruct (_ >=? _).
Qed.

#[global] Opaque addLog.

Lemma newest_length {A} n (l : list A) : length (newest n l) = (length l `min` n)%nat.
Proof. unfold newest. rewrite length_drop. lia. Qed.

Lemma newest_snoc {A} n (l : list A) x :
  (1 ≤ n)%nat → newest n (newest n l ++ [x]) = newest n (l ++ [x]).
Proof.
  intros Hn. unfold newest at 1 3. rewrite !length_app, newest_length. simpl.
  unfold newest. destruct (decide (length l ≤ n)%nat) as [Hle|Hgt].
  - replace (length l - n)%nat with 0%nat by lia. simpl.
    by replace (length l `min` n)%nat with (length l) by lia.
  - replace (length l `min` n + 1 - n)%nat with 1%nat by lia.
    rewrite drop_app_le by (rewrite length_drop; lia).
    rewrite drop_drop, drop_app_le by lia.
    do 2 f_equal. lia.
Qed.

Lemma push_log_newest entry logs :
  (length logs ≤ Z.to_nat MAX_LOG_ENTRIES)%nat →
  push_log entry logs = newest (Z.to_nat MAX_LOG_ENTRIES) (logs ++ [entry]).
Proof.
  unfold push_log, newest, array_slice, MAX_LOG_ENTRIES. intros Hlen.
  rewrite length_app. simpl.
  destruct (Z.geb_spec (Z.of_nat (length logs)) 100) as [Hge|Hlt].
  - replace (Z.to_nat ((Z.of_nat (length logs) + (- (100) + 1)) `max` 0))
      with 1%nat by lia.
    replace (length logs + 1 - Z.to_nat 100)%nat with 1%nat by lia.
    rewrite drop_app_le by lia. done.
  - replace (length logs + 1 - Z.to_nat 100)%nat with 0%nat by lia. done.
Qed.

(** C5. The log never holds more than [MAX_LOG_ENTRIES] entries: from a
    state whose log holds at most that many, after any sequence of events
    is appended by [addLog] the log is made of the newest
    [min(total, MAX_LOG_ENTRIES)] entries of the old log followed by the
    entries of the appended events, in their order; the older ones are
    gone. *)
Theorem addLog_keeps_newest (w : World) (events : list LogEvent) :
  (length (logs (state w)) ≤ Z.to_nat MAX_LOG_ENTRIES)%nat →
  let w' := exec (forEach events log_event) w in
  ∃ entries,
    event_of <$> entries = events
    ∧ logs (state w') =
        newest (Z.to_nat MAX_LOG_ENTRIES) (logs (state w) ++ entries)
    ∧ length (logs (state w')) =
        ((length (logs (state w)) + length events) `min` Z.to_nat MAX_LOG_ENTRIES)%nat
    ∧ (length (logs (state w')) ≤ Z.to_nat MAX_LOG_ENTRIES)%nat.
Proof.
  intros Hlen. simpl.
  induction events as [|ev events IH] using rev_ind.
  - exists []. change (exec (forEach [] log_event) w) with w.
    simpl. rewrite app_nil_r. unfold newest.
    replace (length (logs (state w)) - Z.to_nat MAX_LOG_ENTRIES)%nat
      with 0%nat by lia.
    split_and!; [done|done|lia|lia].
  - destruct IH as (entries & Hev & Hlogs & Hlen' & Hcap).
    rewrite exec_forEach_app. set (w1 := exec (forEach events log_event) w) in *.
    simpl. unfold exec, bind, ret, log_event. rewrite addLog_run. simpl.
    set (entry := new_log_entry w1 _ _ _ _).
    exists (entries ++ [entry]).
    assert (push_log entry (logs (state w1)) =
            newest (Z.to_nat MAX_LOG_ENTRIES) (logs (state w) ++ entries ++ [entry]))
      as Hpush.
    { rewrite push_log_newest by done. rewrite Hlogs, app_assoc.
      apply newest_snoc. unfold MAX_LOG_ENTRIES. lia. }
    split_and!.
    + rewrite fmap_app, Hev. by destruct ev.
    + done.
    + rewrite Hpush, newest_length, !length_app. simpl.
      rewrite <- Hev, length_fmap. lia.
    + rewrite Hpush, newest_length. lia.
Qed.

(** ** Adding a call *)

(** C10. [addFloorCall] modifies no car: the array of elevators, hence
    every car's floor, direction, movement flags, destinations and
    passenger count, is the same afterwards. The pending-call list grows by
    exactly one entry, the call itself with or without an assignment to a
    car of the fleet; besides it only the log changes. *)
Theorem addFloorCall_frame (call : FloorCall) (w : World) :
  let w' := exec (addFloorCall call) w in
  elevators (state w') = elevators (state w)
  ∧ (∃ queued,
       pendingCalls (state w') = pendingCalls (state w) ++ [queued]
       ∧ call_id queued = call_id call
       ∧ floor queued = floor call
       ∧ call_direction queued = call_direction call
       ∧ call_timestamp queued = call_timestamp call
       ∧ (queued = call
          ∨ ∃ car, car ∈ elevators (state w)
                   ∧ assignedElevator queued = Some (id car)))
  ∧ isSimulationRunning (state w') = isSimulationRunning (state w)
  ∧ systemStartTime (state w') = systemStartTime (state w)
  ∧ totalCallsProcessed (state w') = totalCallsProcessed (state w)
  ∧ timers w' = timers w
  ∧ callIdCounter w' = callIdCounter w.
Proof.
  simpl. unfold exec, addFloorCall, bind, get_state. simpl.
  destruct (findBestElevator (elevators (state w)) call) as [best|] eqn:Hbest.
  - unfold bind, modify_state. simpl. rewrite addLog_run. simpl.
    split_and!; try done.
    exists (set_assignedElevator (id best) call). split_and!; try done.
    right. exists best. split; [|done].
    unfold findBestElevator in Hbest. case_decide; [done|].
    apply fmap_Some in Hbest as ([b s] & Hhd%head_Some_elem_of & ->).
    rewrite array_sort_perm in Hhd.
    apply list_elem_of_fmap in Hhd as (e & [= -> _] & Hin).
    by apply list_elem_of_filter in Hin as [_ Hin].
  - unfold bind, modify_state. rewrite addLog_run. simpl.
    split_and!; try done. exists call. split_and!; try done. by left.
Qed.

(** ** The control loop *)

(** An elevator reference that is valid splits the array around the
    object it points to. *)
Lemma elevator_split (l : list Elevator) i e :
  l !! i = Some e → ∃ l1 l2, l = l1 ++ e :: l2 ∧ i = length l1.
Proof.
  intros Hi. exists (take i l), (drop (S i) l). split.
  - by rewrite take_drop_middle.
  - rewrite length_take. apply lookup_lt_Some in Hi. lia.
Qed.

Lemma lookup_total_middle (l1 l2 : list Elevator) e :
  (l1 ++ e :: l2) !!! length l1 = e.
Proof. apply list_lookup_total_correct, list_lookup_middle. done. Qed.

Lemma alter_middle (f : Elevator → Elevator) l1 l2 e :
  alter f (length l1) (l1 ++ e :: l2) = l1 ++ f e :: l2.
Proof. induction l1 as [|x l1 IH]; simpl; [done|]. f_equal. apply IH. Qed.

Lemma insert_middle (l1 l2 : list Elevator) e e' :
  <[length l1 := e']> (l1 ++ e :: l2) = l1 ++ e' :: l2.
Proof. induction l1 as [|x l1 IH]; simpl; [done|]. f_equal. apply IH. Qed.

Lemma addLog_bind {B} type message elevatorId fl (k : unit → Eff B) w :
  bind (addLog type message elevatorId fl) k w =
  k tt (mkWorld
          (set_logs (push_log (new_log_entry w type message elevatorId fl)
                       (logs (state w))) (state w))
          (timers w) (callIdCounter w)
          (Date_now w) (S (S (clock_reads w)))
          (Math_random w) (S (random_reads w))).
Proof. unfold bind. by rewrite addLog_run. Qed.

Lemma bind_assoc {A B C} (m : Eff A) (k1 : A → Eff B) (k2 : B → Eff C) w :
  bind (bind m k1) k2 w = bind m (λ x, bind (k1 x) k2) w.
Proof. unfold bind. by destruct (m w). Qed.

Arguments when !b _ /.
Arguments new_log_entry !w _ _ _ _ /.
Arguments set_state v !w /.
Arguments set_elevators v !s /.
Arguments set_pendingCalls v !s /.
Arguments set_logs v !s /.
Arguments set_isSimulationRunning v !s /.
Arguments set_totalCallsProcessed v !s /.
Arguments set_currentFloor v !e /.
Arguments set_direction v !e /.
Arguments set_isMoving v !e /.
Arguments set_isLoading v !e /.
Arguments set_destinationFloors v !e /.
Arguments set_passengers v !e /.
Arguments set_lastActivity v !e /.

(** Running a computation of the service on a world given by its parts. *)
Ltac eff_step :=
  unfold exec, eval;
  cbn [bind ret when forEach get_state modify_state now random
       setTimeout read_elevator update_elevator
       set_state set_elevators set_pendingCalls set_logs
       set_isSimulationRunning set_totalCallsProcessed
       set_currentFloor set_direction set_isMoving set_isLoading
       set_destinationFloors set_passengers set_lastActivity
       state timers callIdCounter Date_now clock_reads Math_random random_reads
       elevators pendingCalls logs isSimulationRunning systemStartTime
       totalCallsProcessed
       id currentFloor direction isMoving isLoading destinationFloors
       passengers lastActivity fst snd negb andb orb];
  rewrite ?bind_assoc, ?addLog_bind, ?addLog_run, ?alter_middle,
    ?lookup_total_middle.

Ltac eff_run := repeat progress eff_step.

(** What one pass of [handleElevatorAtFloor] does, in terms of the three
    decisions it takes: whether to stop, whether passengers leave, and
    which call is picked up. *)
Lemma handleElevatorAtFloor_effect i w e :
  elevators (state w) !! i = Some e →
  let w' := exec (handleElevatorAtFloor i) w in
  let calls := pendingCalls (state w) in
  let stop := shouldElevatorStop e (currentFloor e) calls in
  let dropoff := stop && bool_decide (currentFloor e ∈ destinationFloors e) in
  let remaining := destinationFloors e ∖ {[currentFloor e]} in
  let pickupCall :=
    if stop
    then find (λ call, bool_decide (floor call = currentFloor e)
                       && bool_decide (assignedElevator call = Some (id e))) calls
    else None in
  (∃ e', elevator_becomes w w' i e'
     ∧ id e' = id e
     ∧ currentFloor e' = currentFloor e
     ∧ isMoving e' = isMoving e
     ∧ isLoading e' = (if pickupCall is Some _ then true else isLoading e)
     ∧ destinationFloors e' = (if dropoff then remaining else destinationFloors e)
     ∧ passengers e' = (if dropoff then size remaining else passengers e)
     ∧ direction e' =
         (if dropoff && bool_decide (size remaining = 0%nat)
          then IDLE else direction e))
  ∧ pendingCalls (state w') =
      match pickupCall with
      | Some call => filter (λ c, call_id c ≠ call_id call) calls
      | None => calls
      end
  ∧ totalCallsProcessed (state w') =
      totalCallsProcessed (state w) + (if pickupCall is Some _ then 1 else 0)
  ∧ timers w' =
      timers w ++
      (if pickupCall is Some _
       then [(LoadingDone i (currentFloor e), LOADING_DURATION_MS)] else []).
Proof.
  intros Hi. destruct w as [[els pcs lgs sim start total] tms ctr clock cr rnd rr].
  simpl in Hi. apply elevator_split in Hi as (l1 & l2 & -> & ->).
  destruct e as [eid cur dir mv ld dests pass act].
  unfold elevator_becomes, handleElevatorAtFloor. eff_run.
  destruct (shouldElevatorStop _ cur pcs); eff_run;
    [|split_and!; [|done|lia|by rewrite app_nil_r];
      eexists; rewrite insert_middle; by split_and!].
  destruct (bool_decide (cur ∈ dests)); unfold handlePassengerDropoff; eff_run.
  - destruct (bool_decide (size (dests ∖ {[cur]}) = 0%nat)); eff_run;
      destruct (find _ pcs) as [call|]; unfold handlePassengerPickup; eff_run;
      (split_and!; [|done|lia|by rewrite ?app_nil_r]);
      eexists; rewrite insert_middle; by split_and!.
  - destruct (find _ pcs) as [call|]; unfold handlePassengerPickup; eff_run;
      (split_and!; [|done|lia|by rewrite ?app_nil_r]);
      eexists; rewrite insert_middle; by split_and!.
Qed.

Lemma shouldElevatorStop_destination e calls :
  currentFloor e ∈ destinationFloors e →
  shouldElevatorStop e (currentFloor e) calls = true.
Proof. intros Hin. unfold shouldElevatorStop. by rewrite decide_True. Qed.

(** C8. For a car whose current floor is one of its destinations, one pass
    of stop handling removes that floor from the destinations and sets the
    passenger count to the number of destinations left; the direction
    becomes idle when none is left and is unchanged otherwise. The other
    cars are untouched. In particular a car at floor 5 whose only
    destination is floor 5 ends with no destination, no passenger and the
    direction idle. *)
Theorem handleElevatorAtFloor_dropoff (i : nat) (w : World) (e : Elevator) :
  elevators (state w) !! i = Some e →
  currentFloor e ∈ destinationFloors e →
  let w' := exec (handleElevatorAtFloor i) w in
  ∃ e', elevators (state w') = <[i := e']> (elevators (state w))
    ∧ id e' = id e
    ∧ currentFloor e' = currentFloor e
    ∧ destinationFloors e' = destinationFloors e ∖ {[currentFloor e]}
    ∧ passengers e' = size (destinationFloors e')
    ∧ (destinationFloors e' = ∅ → direction e' = IDLE)
    ∧ (destinationFloors e' ≠ ∅ → direction e' = direction e)
    ∧ (currentFloor e = 5 → destinationFloors e = {[5]} →
         destinationFloors e' = ∅ ∧ passengers e' = 0%nat ∧ direction e' = IDLE).
Proof.
  intros Hi Hin.
  destruct (handleElevatorAtFloor_effect i w e Hi)
    as ((e' & He' & Hid & Hcur & _ & _ & Hdest & Hpass & Hdir) & _).
  rewrite shouldElevatorStop_destination in Hdest, Hpass, Hdir by done.
  rewrite bool_decide_eq_true_2 in Hdest, Hpass, Hdir by done.
  simpl in Hdest, Hpass, Hdir.
  assert (destinationFloors e' = ∅ → direction e' = IDLE) as Hidle.
  { intros Hempty. rewrite Hdir, bool_decide_eq_true_2; [done|].
    by rewrite <- Hdest, Hempty, size_empty. }
  exists e'. split_and!; try done.
  - by rewrite Hpass, Hdest.
  - intros Hne. rewrite Hdir, bool_decide_eq_false_2; [done|].
    rewrite <- Hdest. intros Hsize. by apply size_empty_inv, leibniz_equiv in Hsize.
  - intros H5 Hset.
    assert (destinationFloors e' = ∅) as Hempty
      by (rewrite Hdest, Hset, H5; set_solver).
    split_and!; [done| |by apply Hidle].
    by rewrite Hpass, <- Hdest, Hempty, size_empty.
Qed.

(** *** Picking up a call *)

Lemma find_split {A} (f : A → bool) (l : list A) x :
  find f l = Some x →
  ∃ l1 l2, l = l1 ++ x :: l2 ∧ f x = true ∧ ∀ y, y ∈ l1 → f y = false.
Proof.
  induction l as [|a l IH]; simpl; [done|].
  destruct (f a) eqn:Ha.
  - intros [= ->]. exists [], l. split_and!; [done..|]. by intros ? ?%elem_of_nil.
  - intros (l1 & l2 & -> & Hx & Hl1)%IH. exists (a :: l1), l2.
    split_and!; [done..|]. by intros y [->|?]%elem_of_cons; auto.
Qed.

Lemma find_none_iff {A} (f : A → bool) (l : list A) :
  find f l = None ↔ ∀ y, y ∈ l → f y = false.
Proof.
  induction l as [|a l IH]; simpl.
  - split; [by intros _ ? ?%elem_of_nil|done].
  - destruct (f a) eqn:Ha.
    + split; [done|]. intros H. rewrite H in Ha; [done|left].
    + rewrite IH. split.
      * by intros H y [->|?]%elem_of_cons; auto.
      * intros H y Hy. apply H. by right.
Qed.

Lemma filter_keeps_all {A} (P : A → Prop) `{∀ x, Decision (P x)} (l : list A) :
  (∀ x, x ∈ l → P x) → filter P l = l.
Proof.
  induction l as [|a l IH]; intros Hall; [done|].
  rewrite filter_cons_True by (apply Hall; left).
  f_equal. apply IH. intros x Hx. apply Hall. by right.
Qed.

(** With distinct identifiers, filtering out the identifier of one call
    removes that call and no other. *)
Lemma filter_call_id (l1 l2 : list FloorCall) call :
  NoDup (call_id <$> (l1 ++ call :: l2)) →
  filter (λ c, call_id c ≠ call_id call) (l1 ++ call :: l2) = l1 ++ l2.
Proof.
  rewrite fmap_app, fmap_cons. intros Hnd.
  apply NoDup_app in Hnd as (_ & Hl1 & [Hl2 _]%NoDup_cons).
  rewrite filter_app, filter_cons, decide_False by (by intros []).
  f_equal; apply filter_keeps_all; intros c Hc Heq.
  - apply (Hl1 (call_id c)); [by apply list_elem_of_fmap_2|]. rewrite Heq. left.
  - apply Hl2. rewrite <- Heq. by apply list_elem_of_fmap_2.
Qed.

(** C9. One pass of stop handling removes at most one pending call and
    raises the processed-call counter by at most one, however many calls
    assigned to the car wait at its floor (the identifiers of the pending
    calls being pairwise distinct, as the factory makes them). When the car
    stops and a call assigned to it waits at its floor, the first such call
    of the queue is removed and the counter grows by one; otherwise the
    queue and the counter are unchanged. *)
Theorem handleElevatorAtFloor_one_pickup (i : nat) (w : World) (e : Elevator) :
  elevators (state w) !! i = Some e →
  NoDup (call_id <$> pendingCalls (state w)) →
  let w' := exec (handleElevatorAtFloor i) w in
  let calls := pendingCalls (state w) in
  let picks_up :=
    shouldElevatorStop e (currentFloor e) calls = true
    ∧ ∃ c, c ∈ calls ∧ waits_for e c in
  (picks_up →
     ∃ before call after,
       calls = before ++ call :: after
       ∧ waits_for e call
       ∧ (∀ c, c ∈ before → ¬ waits_for e c)
       ∧ pendingCalls (state w') = before ++ after
       ∧ totalCallsProcessed (state w') = totalCallsProcessed (state w) + 1)
  ∧ (¬ picks_up →
       pendingCalls (state w') = calls
       ∧ totalCallsProcessed (state w') = totalCallsProcessed (state w))
  ∧ (length calls ≤ length (pendingCalls (state w')) + 1)%nat
  ∧ totalCallsProcessed (state w') ≤ totalCallsProcessed (state w) + 1.
Proof.
  intros Hi Hnd.
  destruct (handleElevatorAtFloor_effect i w e Hi) as (_ & Hcalls & Htotal & _).
  simpl in *.
  set (calls := pendingCalls (state w)) in *.
  set (f := λ call, bool_decide (floor call = currentFloor e)
                    && bool_decide (assignedElevator call = Some (id e))) in *.
  assert (∀ c, f c = true ↔ waits_for e c) as Hf.
  { intros c. unfold f, waits_for.
    by rewrite andb_true_iff, !bool_decide_eq_true. }
  assert (∀ c, f c = false ↔ ¬ waits_for e c) as Hf'.
  { intros c. rewrite <- Hf. by destruct (f c). }
  destruct (shouldElevatorStop e (currentFloor e) calls) eqn:Hstop;
    [destruct (find f calls) as [call|] eqn:Hfind|].
  - apply find_split in Hfind as (before & after & Hsplit & Hcall & Hbefore).
    rewrite Hcalls, Htotal, Hsplit, filter_call_id by by rewrite <- Hsplit.
    split_and!.
    + intros _. exists before, call, after. split_and!; try done.
      * by apply Hf.
      * intros c Hc. by apply Hf', Hbefore.
    + intros Hno. exfalso. apply Hno. split; [done|]. exists call. split.
      * apply elem_of_app. right. left.
      * by apply Hf.
    + rewrite !length_app. simpl. lia.
    + lia.
  - rewrite Hcalls, Htotal. split_and!; [|split; [done|lia]|lia|lia].
    intros [_ (c & Hc & Hw)]. apply Hf in Hw.
    by rewrite (proj1 (find_none_iff f calls) Hfind c Hc) in Hw.
  - rewrite Hcalls, Htotal. split_and!; [by intros [? _]|split; [done|lia]|lia|lia].
Qed.

(** *** A tick with nothing to do *)

Lemma process_elevator_at_rest i w e :
  elevators (state w) !! i = Some e → at_rest e →
  pendingCalls (state w) = [] →
  exec (process_elevator i) w = w.
Proof.
  intros Hi (Hmv & Hld & Hdir & Hdest) Hcalls.
  assert (getNextDestination e [] = None) as Hnext.
  { apply getNextDestination_None. intros x [Hx|(c & Hc & _)].
    - rewrite Hdest in Hx. by apply not_elem_of_empty in Hx.
    - by apply elem_of_nil in Hc. }
  assert (shouldElevatorStop e (currentFloor e) [] = false) as Hstop.
  { unfold shouldElevatorStop. rewrite decide_False; [done|].
    rewrite Hdest. apply not_elem_of_empty. }
  destruct w as [[els pcs lgs sim start total] tms ctr clock cr rnd rr].
  simpl in Hi, Hcalls. subst pcs.
  apply elevator_split in Hi as (l1 & l2 & -> & ->).
  unfold process_elevator. eff_run. rewrite Hmv, Hld. eff_run.
  unfold handleElevatorAtFloor. eff_run. rewrite Hstop. eff_run.
  unfold moveElevatorToNextDestination. eff_run. rewrite Hnext, Hdir.
  by eff_run.
Qed.

Lemma forEach_unchanged {A} (l : list A) (f : A → Eff unit) w :
  (∀ x, x ∈ l → exec (f x) w = w) → exec (forEach l f) w = w.
Proof.
  induction l as [|x l IH]; intros Hf; [done|].
  simpl. rewrite exec_bind, Hf by left. apply IH.
  intros y Hy. apply Hf. by right.
Qed.

(** C7. A state with no pending call in which every car is available, idle
    and without destinations is a fixed point of the tick: after one call
    of [processElevatorLogic], and so after any number of them, the fleet,
    the pending-call list and the rest of the state are what they were. *)
Theorem processElevatorLogic_fixed_point (w : World) (ticks : nat) :
  pendingCalls (state w) = [] →
  (∀ e, e ∈ elevators (state w) → at_rest e) →
  Nat.iter ticks (exec processElevatorLogic) w = w.
Proof.
  intros Hcalls Hrest.
  assert (exec processElevatorLogic w = w) as Htick.
  { unfold processElevatorLogic.
    rewrite exec_bind. change (eval get_state w) with (state w).
    change (exec get_state w) with w.
    rewrite exec_bind.
    rewrite forEach_unchanged.
    - unfold reassignUnassignedCalls. rewrite exec_bind.
      change (eval get_state w) with (state w).
      change (exec get_state w) with w. by rewrite Hcalls.
    - intros i [_ Hi]%elem_of_seq.
      destruct (lookup_lt_is_Some_2 (elevators (state w)) i) as [e He]; [lia|].
      apply (process_elevator_at_rest i w e); [done| |done].
      by eapply Hrest, list_elem_of_lookup_2. }
  induction ticks as [|n IH]; simpl; [done|]. by rewrite IH.
Qed.

(** ** The factory *)

(** C6. [createFloorCall] throws exactly when the floor is outside
    [1, FLOORS], or is 1 with direction down, or is [FLOORS] with direction
    up. For a floor strictly between 1 and [FLOORS] and either direction it
    returns a call with that floor and direction and no assigned elevator,
    whose identifier is fresh: it carries the incremented counter, so it
    differs from every identifier handed out before. *)
Theorem createFloorCall_spec (fl : Z) (d : CallDirection) (w : World) :
  ((∃ err, eval (createFloorCall fl d) w = Thrown err)
     ↔ (fl < 1 ∨ FLOORS < fl) ∨ (fl = 1 ∧ d = DOWN) ∨ (fl = FLOORS ∧ d = UP))
  ∧ (fl < 1 ∨ FLOORS < fl → eval (createFloorCall fl d) w = Thrown (InvalidFloor fl))
  ∧ ((∃ err, eval (createFloorCall fl d) w = Thrown err) →
       exec (createFloorCall fl d) w = w)
  ∧ (1 < fl < FLOORS →
       ∃ call, eval (createFloorCall fl d) w = Returned call
         ∧ floor call = fl
         ∧ call_direction call = d
         ∧ assignedElevator call = None
         ∧ (call_id call).1 = callIdCounter w + 1
         ∧ callIdCounter (exec (createFloorCall fl d) w) = callIdCounter w + 1
         ∧ ∀ ids, issued_so_far w ids →
             (call_id call ∉ ids)
             ∧ issued_so_far (exec (createFloorCall fl d) w) (call_id call :: ids)).
Proof.
  unfold createFloorCall, FLOORS.
  destruct (Z.ltb_spec fl 1) as [Hlo|Hlo]; simpl.
  { split_and!; [|done|done|lia]. split; [left; lia|eauto]. }
  destruct (Z.gtb_spec fl 10) as [Hhi|Hhi]; simpl.
  { split_and!; [|done|done|lia]. split; [left; lia|eauto]. }
  destruct (decide (fl = 1)) as [->|H1], d; simpl;
    try (split_and!; [|lia|done|lia]; split; [naive_solver|eauto]).
  - split_and!; [|lia|by intros [? [=]]|lia].
    split; [by intros [? [=]]|]. intros [?|[[_ [=]]|[[=] _]]]. lia.
  - rewrite (bool_decide_eq_false_2 (fl = 1)) by done. simpl.
    destruct (decide (fl = 10)) as [->|H10].
    + split_and!; [|lia|done|lia]. split; [naive_solver|eauto].
    + rewrite (bool_decide_eq_false_2 (fl = 10)) by done. simpl.
      split_and!; [|lia|by intros [? [=]]|].
      * split; [by intros [? [=]]|]. intros [?|[[? _]|[? _]]]; lia.
      * intros _. eexists. split_and!; try done.
        intros ids Hids. split.
        -- intros Hin%Hids. simpl in Hin. lia.
        -- intros j [->|Hj%Hids]%elem_of_cons; simpl in *; lia.
  - rewrite (bool_decide_eq_false_2 (fl = 1)) by done. simpl.
    rewrite andb_false_r. simpl.
    split_and!; [|lia|by intros [? [=]]|].
    + split; [by intros [? [=]]|]. intros [?|[[? _]|[_ [=]]]]; lia.
    + intros _. eexists. split_and!; try done.
      intros ids Hids. split.
      * intros Hin%Hids. simpl in Hin. lia.
      * intros j [->|Hj%Hids]%elem_of_cons; simpl in *; lia.
Qed.

(** *** Passenger destinations *)

Lemma Qfloor_scaled (r : Q) (n : Z) :
  (0 <= r)%Q → (r < 1)%Q → 1 ≤ n → 0 ≤ Qfloor (r * inject_Z n) < n.
Proof.
  intros H0 H1 Hn. split.
  - change 0 with (Qfloor (inject_Z 0)). apply Qfloor_resp_le.
    apply Qmult_le_0_compat; [done|].
    change 0%Q with (inject_Z 0). rewrite <- Zle_Qle. lia.
  - apply Z.lt_nge. intros Hge.
    assert (inject_Z n <= r * inject_Z n)%Q as Hle.
    { eapply Qle_trans; [|apply Qfloor_le]. by rewrite <- Zle_Qle. }
    assert (r * inject_Z n < 1 * inject_Z n)%Q as Hlt.
    { apply Qmult_lt_compat_r; [|done].
      change 0%Q with (inject_Z 0). rewrite <- Zlt_Qlt. lia. }
    rewrite Qmult_1_l in Hlt. by apply Qlt_not_le in Hlt.
Qed.

Lemma floor_draw_range w k :
  random_in_unit_interval w → 1 ≤ floor_draw w k ≤ FLOORS.
Proof.
  intros Hr. destruct (Hr k) as [H0 H1]. unfold floor_draw.
  pose proof (Qfloor_scaled _ FLOORS H0 H1 ltac:(done)). lia.
Qed.

Lemma random_below_run n w :
  random_below n w =
  (Qfloor (Math_random w (random_reads w) * inject_Z n), after_random w).
Proof. reflexivity. Qed.

Lemma draw_destination_unfold budget cur dests attempts w :
  draw_destination budget cur dests attempts w =
  let destination := floor_draw w (random_reads w) in
  match budget with
  | S budget' =>
      if (bool_decide (destination = cur) || bool_decide (destination ∈ dests))
         && (attempts + 1 <? 10)
      then draw_destination budget' cur dests (attempts + 1) (after_random w)
      else ((destination, attempts + 1), after_random w)
  | O => ((destination, attempts + 1), after_random w)
  end.
Proof.
  destruct budget; simpl; unfold bind; rewrite random_below_run; [done|].
  unfold floor_draw. by destruct (_ && _).
Qed.

(** What the [do ... while] loop returns: a floor of the building, which
    is acceptable whenever fewer than 10 attempts were needed. *)
Lemma draw_destination_spec budget cur dests attempts w :
  random_in_unit_interval w →
  let drawn := draw_destination budget cur dests attempts w in
  1 ≤ drawn.1.1 ≤ FLOORS
  ∧ Math_random drawn.2 = Math_random w
  ∧ (10 ≤ attempts + 1 + Z.of_nat budget → drawn.1.2 < 10 →
       drawn.1.1 ≠ cur ∧ drawn.1.1 ∉ dests).
Proof.
  revert attempts w. induction budget as [|budget IH]; intros attempts w Hr;
    rewrite draw_destination_unfold; simpl.
  - split; [by apply floor_draw_range|]. split; [done|lia].
  - destruct (_ && _) eqn:Hcond.
    + destruct (IH (attempts + 1) (after_random w) Hr) as (? & ? & Hok).
      split; [done|]. split; [done|]. intros ? ?. apply Hok; [lia|done].
    + simpl. split; [by apply floor_draw_range|]. split; [done|].
      intros _ Hlt. apply andb_false_iff in Hcond as [Hcond|Hcond].
      * apply orb_false_iff in Hcond as [?%bool_decide_eq_false ?%bool_decide_eq_false].
        done.
      * apply Z.ltb_ge in Hcond. lia.
Qed.

(** The budget is never what stops the loop: a larger one changes
    nothing. *)
Lemma draw_destination_budget budget budget' cur dests attempts w :
  (10 ≤ attempts + 1 + Z.of_nat budget) → (budget ≤ budget')%nat →
  draw_destination budget' cur dests attempts w =
  draw_destination budget cur dests attempts w.
Proof.
  revert budget' attempts w.
  induction budget as [|budget IH]; intros budget' attempts w Hb Hle;
    rewrite !(draw_destination_unfold _ cur dests attempts w); simpl.
  - destruct budget' as [|budget']; [done|].
    destruct (Z.ltb_spec (attempts + 1) 10); [lia|]. by rewrite andb_false_r.
  - destruct budget' as [|budget']; [lia|].
    destruct (_ && _); [|done]. apply IH; lia.
Qed.

(** With no destination chosen yet, the loop accepts a floor as soon as
    one of the draws differs from the current floor. *)
Lemma draw_destination_accepts budget cur attempts w j :
  (j ≤ budget)%nat → attempts + Z.of_nat j + 1 < 10 →
  floor_draw w (random_reads w + j) ≠ cur →
  (draw_destination budget cur ∅ attempts w).1.2 < 10.
Proof.
  revert budget attempts w.
  induction j as [|j IH]; intros budget attempts w Hj Hatt Hdraw;
    rewrite draw_destination_unfold; simpl.
  - rewrite Nat.add_0_r in Hdraw.
    rewrite (bool_decide_eq_false_2 (_ = cur)) by done.
    rewrite (bool_decide_eq_false_2 (_ ∈ ∅)) by apply not_elem_of_empty.
    destruct budget; simpl; lia.
  - destruct budget as [|budget]; [lia|].
    destruct (_ && _).
    + apply IH; [lia|lia|]. unfold floor_draw, after_random in *.
      cbn [Math_random random_reads].
      by replace (S (random_reads w) + j)%nat with (random_reads w + S j)%nat by lia.
    + simpl. lia.
Qed.

Lemma fill_destinations_unfold n cur dests w :
  fill_destinations (S n) cur dests w =
  let drawn := draw_destination 10 cur dests 0 w in
  fill_destinations n cur
    (if drawn.1.2 <? 10 then {[drawn.1.1]} ∪ dests else dests) drawn.2.
Proof.
  cbn [fill_destinations]. unfold bind.
  by destruct (draw_destination 10 cur dests 0 w) as [[? ?] ?].
Qed.

(** The [for] loop keeps what was chosen, adds at most one floor per
    iteration, and only floors of the building other than the current
    one. *)
Lemma fill_destinations_spec n cur dests w :
  random_in_unit_interval w →
  (∀ x, x ∈ dests → 1 ≤ x ≤ FLOORS ∧ x ≠ cur) →
  let result := (fill_destinations n cur dests w).1 in
  (∀ x, x ∈ result → 1 ≤ x ≤ FLOORS ∧ x ≠ cur)
  ∧ dests ⊆ result
  ∧ (size result ≤ size dests + n)%nat.
Proof.
  revert dests w. induction n as [|n IH]; intros dests w Hr Hdests.
  - simpl. split_and!; [done|done|lia].
  - rewrite fill_destinations_unfold. cbv zeta.
    destruct (draw_destination_spec 10 cur dests 0 w Hr) as (Hrange & Hrnd & Hok).
    set (drawn := draw_destination 10 cur dests 0 w) in *.
    assert (random_in_unit_interval drawn.2) as Hr'
      by (unfold random_in_unit_interval; by rewrite Hrnd).
    destruct (Z.ltb_spec drawn.1.2 10) as [Hlt|Hge].
    + destruct (Hok ltac:(lia) Hlt) as [Hcur Hfresh].
      destruct (IH ({[drawn.1.1]} ∪ dests) drawn.2 Hr') as (Hres & Hsub & Hsize).
      { intros x [->%elem_of_singleton|Hx]%elem_of_union; [done|by apply Hdests]. }
      split_and!; [done|set_solver|].
      rewrite size_union, size_singleton in Hsize by set_solver. lia.
    + destruct (IH dests drawn.2 Hr' Hdests) as (Hres & Hsub & Hsize).
      split_and!; [done|done|lia].
Qed.

(** C4 (amended). For every current floor, every [maxDestinations ≥ 1] and
    every sequence of random draws in [0,1), [generatePassengerDestinations]
    returns a set of floors of the building that leaves out the current
    floor and has at most [maxDestinations] elements. The set is non-empty
    whenever one of the first nine floors drawn (the draws that follow the
    one for the number of slots) differs from the current floor. *)
Theorem generatePassengerDestinations_spec (cur maxDestinations : Z) (w : World) :
  1 ≤ maxDestinations →
  random_in_unit_interval w →
  let result := eval (generatePassengerDestinations cur maxDestinations) w in
  (∀ x, x ∈ result → 1 ≤ x ≤ FLOORS ∧ x ≠ cur)
  ∧ Z.of_nat (size result) ≤ maxDestinations
  ∧ ((∃ k, (1 ≤ k ≤ 9)%nat ∧ floor_draw w (random_reads w + k) ≠ cur) →
       result ≠ ∅).
Proof.
  intros Hmax Hr. unfold eval, generatePassengerDestinations, bind.
  rewrite random_below_run. cbv zeta.
  destruct (Hr (random_reads w)) as [H0 H1].
  pose proof (Qfloor_scaled _ maxDestinations H0 H1 Hmax) as Hn.
  set (n := Qfloor _) in *.
  assert (random_in_unit_interval (after_random w)) as Hr' by done.
  destruct (fill_destinations_spec (Z.to_nat (n + 1)) cur ∅ (after_random w) Hr')
    as (Hres & _ & Hsize); [by intros ? ?%not_elem_of_empty|].
  split; [done|]. split; [rewrite size_empty in Hsize; lia|].
  intros (k & Hk & Hdraw).
  destruct (Z.to_nat (n + 1)) as [|m] eqn:Hm; [lia|].
  rewrite fill_destinations_unfold. cbv zeta.
  assert ((draw_destination 10 cur ∅ 0 (after_random w)).1.2 < 10) as Hlt.
  { apply (draw_destination_accepts 10 cur 0 (after_random w) (k - 1)); [lia|lia|].
    unfold floor_draw, after_random in *. cbn [Math_random random_reads].
    by replace (S (random_reads w) + (k - 1))%nat with (random_reads w + k)%nat by lia. }
  destruct (draw_destination_spec 10 cur ∅ 0 (after_random w) Hr') as (_ & Hrnd & _).
  set (drawn := draw_destination 10 cur ∅ 0 (after_random w)) in *.
  rewrite (proj2 (Z.ltb_lt _ _) Hlt).
  destruct (fill_destinations_spec m cur ({[drawn.1.1]} ∪ ∅) drawn.2)
    as (_ & Hsub & _).
  - unfold random_in_unit_interval. by rewrite Hrnd.
  - destruct (draw_destination_spec 10 cur ∅ 0 (after_random w) Hr')
      as (Hrange & _ & Hok).
    intros x [->%elem_of_singleton|?%not_elem_of_empty]%elem_of_union; [|done].
    split; [done|]. apply Hok; [lia|done].
  - intros Hempty. rewrite Hempty in Hsub. set_solver.
Qed.

(** C4, as first stated, fails: on floor 1 of the 10-floor building, when
    every random draw is 0 each attempt draws floor 1 again, the budget
    of the only slot runs out and the set returned is empty. *)
Lemma generatePassengerDestinations_can_be_empty :
  1 ≤ 1 ≤ FLOORS ∧ 1 ≤ 3 ∧ 2 ≤ FLOORS
  ∧ random_in_unit_interval (blank_world 0)
  ∧ eval (generatePassengerDestinations 1 3) (blank_world 0) = ∅.
Proof.
  split_and!; [done..|by intros k|by vm_compute].
Qed.

Lemma generatePassengerDestinations_spec_witness :
  1 ≤ 3
  ∧ random_in_unit_interval (blank_world (1 # 2))
  ∧ (∀ x, x ∈ eval (generatePassengerDestinations 5 3) (blank_world (1 # 2)) →
       1 ≤ x ≤ FLOORS ∧ x ≠ 5)
  ∧ Z.of_nat (size (eval (generatePassengerDestinations 5 3) (blank_world (1 # 2)))) ≤ 3
  ∧ eval (generatePassengerDestinations 5 3) (blank_world (1 # 2)) ≠ ∅.
Proof.
  assert (1 ≤ 3) as Hmax by lia.
  assert (random_in_unit_interval (blank_world (1 # 2))) as Hr.
  { intros k. split; vm_compute; [discriminate|reflexivity]. }
  destruct (generatePassengerDestinations_spec 5 3 (blank_world (1 # 2)) Hmax Hr)
    as (Hrange & Hsize & Hne).
  split; [exact Hmax|]. split; [exact Hr|]. split; [exact Hrange|].
  split; [exact Hsize|]. apply Hne. exists 1%nat. split; [lia|].
  vm_compute. discriminate.
Defined.

(** The last attempt of a slot is lost even when it draws an acceptable
    floor: nine draws of the current floor followed by another floor
    leave the set empty. *)
Example tenth_draw_is_discarded :
  let w := mkWorld (mkState [] [] [] false 0 0) [] 0 (λ _, 0) 0
             (λ k, if (k <? 10)%nat then 0%Q else 1 # 2) 0 in
  floor_draw w 10 = 6
  ∧ eval (generatePassengerDestinations 1 3) w = ∅.
Proof. by vm_compute. Qed.

(** ** Examples and instances *)

(** Up/down continuity and the idle nearest floor. *)
Example next_destination_continues_up :
  getNextDestination (car 1 3 MOVING_UP {[2; 5]}) [] = Some 5.
Proof. by vm_compute. Qed.

Example next_destination_continues_down :
  getNextDestination (car 1 7 MOVING_DOWN {[5; 9]}) [] = Some 5.
Proof. by vm_compute. Qed.

Example next_destination_idle_nearest :
  getNextDestination (car 1 5 IDLE {[3; 8]}) [] = Some 3.
Proof. by vm_compute. Qed.

Example next_destination_tie_goes_down :
  getNextDestination (car 1 5 IDLE {[7]}) [call_at 1 3 UP (Some 1)] = Some 3.
Proof. by vm_compute. Qed.

Example next_destination_falls_through :
  getNextDestination (car 1 9 MOVING_UP {[2; 6]}) [] = Some 6.
Proof. by vm_compute. Qed.

(** Distance preference, direction preference, and the first car on a
    tie. *)
Example best_car_is_closer :
  id <$> findBestElevator [car 1 4 IDLE ∅; car 2 8 IDLE ∅] (call_at 1 5 UP None)
  = Some 1.
Proof. by vm_compute. Qed.

Example best_car_moves_in_direction :
  id <$> findBestElevator [car 1 3 MOVING_UP ∅; car 2 4 MOVING_DOWN ∅]
           (call_at 1 5 UP None)
  = Some 1.
Proof. by vm_compute. Qed.

Example best_car_first_on_tie :
  id <$> findBestElevator [car 1 8 IDLE ∅; car 2 4 IDLE ∅; car 3 6 IDLE ∅]
           (call_at 1 5 UP None)
  = Some 2.
Proof. by vm_compute. Qed.

Example score_of_idle_car :
  calculateElevatorScore (car 1 4 IDLE {[7]}) (call_at 1 5 UP None) = 185.
Proof. by vm_compute. Qed.

Lemma handleElevatorAtFloor_dropoff_witness :
  elevators (state dropoff_world) !! 0%nat = Some dropoff_car
  ∧ currentFloor dropoff_car ∈ destinationFloors dropoff_car
  ∧ ∃ e', elevators (state (exec (handleElevatorAtFloor 0) dropoff_world)) =
            [e'; car 2 1 IDLE ∅]
      ∧ destinationFloors e' = ∅
      ∧ passengers e' = 0%nat
      ∧ direction e' = IDLE.
Proof.
  assert (elevators (state dropoff_world) !! 0%nat = Some dropoff_car) as Hi
    by reflexivity.
  assert (currentFloor dropoff_car ∈ destinationFloors dropoff_car) as Hin
    by (apply (bool_decide_unpack _); vm_compute; exact I).
  split; [exact Hi|]. split; [exact Hin|].
  destruct (handleElevatorAtFloor_dropoff 0 dropoff_world dropoff_car Hi Hin)
    as (e' & He' & _ & _ & _ & _ & _ & _ & H5).
  exists e'. split; [exact He'|]. apply H5; reflexivity.
Defined.

Lemma handleElevatorAtFloor_one_pickup_witness :
  elevators (state pickup_world) !! 0%nat = Some (car 1 5 IDLE ∅)
  ∧ NoDup (call_id <$> pendingCalls (state pickup_world))
  ∧ (length (pendingCalls (state pickup_world))
       ≤ length (pendingCalls (state (exec (handleElevatorAtFloor 0) pickup_world))) + 1)%nat
  ∧ totalCallsProcessed (state (exec (handleElevatorAtFloor 0) pickup_world))
      ≤ totalCallsProcessed (state pickup_world) + 1.
Proof.
  assert (elevators (state pickup_world) !! 0%nat = Some (car 1 5 IDLE ∅)) as Hi
    by reflexivity.
  assert (NoDup (call_id <$> pendingCalls (state pickup_world))) as Hnd.
  { apply (bool_decide_unpack _). vm_compute. exact I. }
  split; [exact Hi|]. split; [exact Hnd|].
  exact (proj2 (proj2
    (handleElevatorAtFloor_one_pickup 0 pickup_world (car 1 5 IDLE ∅) Hi Hnd))).
Defined.

Example pickup_takes_first_waiting_call :
  let w' := exec (handleElevatorAtFloor 0) pickup_world in
  pendingCalls (state w') = [call_at 7 3 UP (Some 1); call_at 9 5 DOWN (Some 1)]
  ∧ totalCallsProcessed (state w') = 1
  ∧ isLoading <$> elevators (state w') = [true; false]
  ∧ timers w' = [(LoadingDone 0 5, LOADING_DURATION_MS)].
Proof. by vm_compute. Qed.

(** Were two queued calls to share an identifier, the pickup of one would
    remove both: the identifiers of the queue have to be distinct. *)
Example pickup_removes_every_call_of_that_id :
  let w := mkWorld
     (mkState [car 1 5 IDLE ∅]
        [call_at 8 5 UP (Some 1); call_at 8 5 UP (Some 1)] [] false 0 0)
     [] 9 (λ k, 1000 + Z.of_nat k) 0 (λ _, 0%Q) 0 in
  let w' := exec (handleElevatorAtFloor 0) w in
  pendingCalls (state w') = [] ∧ totalCallsProcessed (state w') = 1.
Proof. by vm_compute. Qed.

Lemma processElevatorLogic_fixed_point_witness :
  pendingCalls (state (initial_world 0)) = []
  ∧ (∀ e, e ∈ elevators (state (initial_world 0)) → at_rest e)
  ∧ Nat.iter 3 (exec processElevatorLogic) (initial_world 0) = initial_world 0.
Proof.
  assert (pendingCalls (state (initial_world 0)) = []) as Hcalls
    by (vm_compute; reflexivity).
  assert (∀ e, e ∈ elevators (state (initial_world 0)) → at_rest e) as Hrest.
  { apply Forall_forall. vm_compute. repeat constructor. }
  split; [exact Hcalls|]. split; [exact Hrest|].
  exact (processElevatorLogic_fixed_point (initial_world 0) 3 Hcalls Hrest).
Defined.

Example initial_fleet :
  (λ e, (id e, currentFloor e, direction e, is_available e))
    <$> elevators (state (initial_world 0))
  = [(1, 1, IDLE, true); (2, 1, IDLE, true); (3, 1, IDLE, true); (4, 1, IDLE, true)].
Proof. by vm_compute. Qed.

Lemma addLog_keeps_newest_witness :
  (length (logs (state (initial_world 0))) ≤ Z.to_nat MAX_LOG_ENTRIES)%nat
  ∧ length (logs (state (exec (forEach (replicate 120 clear_event) log_event)
                           (initial_world 0)))) = 100%nat.
Proof.
  assert (length (logs (state (initial_world 0))) ≤ Z.to_nat MAX_LOG_ENTRIES)%nat
    as Hlen by (vm_compute; lia).
  split; [exact Hlen|].
  destruct (addLog_keeps_newest (initial_world 0) (replicate 120 clear_event) Hlen)
    as (entries & _ & _ & Hsize & _).
  rewrite Hsize. vm_compute. reflexivity.
Defined.

Example log_keeps_the_newest_entries :
  let w := exec (forEach (replicate 120 clear_event) log_event) (initial_world 0) in
  log_timestamp <$> take 2 (logs (state w)) = [1048; 1050]
  ∧ log_timestamp <$> drop 98 (logs (state w)) = [1244; 1246].
Proof. by vm_compute. Qed.

(** Calls made by the factory, added to the service, and a tick. *)
Example created_calls_have_distinct_ids :
  let m :=
    a <- createFloorCall 5 UP ;;
    b <- createFloorCall 5 UP ;;
    c <- createFloorCall 1 DOWN ;;
    d <- createFloorCall 10 UP ;;
    e <- createFloorCall 11 UP ;;
    ret (a, b, c, d, e) in
  match eval m (initial_world 0) with
  | (Returned a, Returned b, Thrown CannotGoDownFromGroundFloor,
     Thrown CannotGoUpFromTopFloor, Thrown (InvalidFloor 11)) =>
      call_id a = (1, 1007) ∧ call_id b = (2, 1009) ∧ assignedElevator a = None
  | _ => False
  end.
Proof. by vm_compute. Qed.

Example unassigned_call_is_retried :
  let busy :=
    mkWorld (mkState [mkElevator 1 1 IDLE true false ∅ 0 0] [] [] false 0 0)
      [(MoveDone 0 3, MOVE_DURATION_MS)] 0 (λ k, 1000 + Z.of_nat k) 0 (λ _, 0%Q) 0 in
  let w1 := exec (addFloorCall (call_at 1 5 UP None)) busy in
  let w2 := exec (processElevatorLogic) w1 in
  let w3 := exec (run_callback (MoveDone 0 3) ;; processElevatorLogic) w2 in
  assignedElevator <$> pendingCalls (state w1) = [None]
  ∧ assignedElevator <$> pendingCalls (state w2) = [None]
  ∧ assignedElevator <$> pendingCalls (state w3) = [Some 1]
  ∧ currentFloor <$> elevators (state w3) = [3].
Proof. by vm_compute. Qed.

(** * Further properties *)

(** ** Stopping at a floor *)

(** X1. A car stops at a floor exactly when the floor is one of its
    destinations, or a pending call at that floor is assigned to it and the
    car is idle or moves in the direction of the call. In particular calls
    that are unassigned or assigned to another car never stop it. *)
Theorem shouldElevatorStop_iff (e : Elevator) (fl : Z) (calls : list FloorCall) :
  shouldElevatorStop e fl calls = true ↔
    fl ∈ destinationFloors e
    ∨ ∃ c, c ∈ calls ∧ floor c = fl ∧ assignedElevator c = Some (id e)
           ∧ (direction e = IDLE
              ∨ as_elevator_direction (call_direction c) = direction e).
Proof.
  unfold shouldElevatorStop, isCallCompatibleWithDirection.
  destruct (decide (fl ∈ destinationFloors e)) as [Hin|Hout]; [naive_solver|].
  rewrite existsb_exists. setoid_rewrite <- list_elem_of_In. split.
  - intros (c & Hc & Hb). right. exists c.
    apply andb_true_iff in Hb as [[H1 H2]%andb_true_iff H3].
    apply bool_decide_eq_true in H1, H2. apply orb_true_iff in H3.
    rewrite !bool_decide_eq_true in H3. by split_and!.
  - intros [?|(c & Hc & H1 & H2 & H3)]; [done|]. exists c. split; [done|].
    rewrite !andb_true_iff, orb_true_iff, !bool_decide_eq_true.
    by split_and!.
Qed.

(** ** Making calls *)

Lemma createFloorCall_legal fl d w :
  legal_request fl d →
  createFloorCall fl d w =
  (Returned (mkFloorCall (callIdCounter w + 1, Date_now w (clock_reads w))
               fl d (Date_now w (S (clock_reads w))) None),
   mkWorld (state w) (timers w) (callIdCounter w + 1)
     (Date_now w) (S (S (clock_reads w))) (Math_random w) (random_reads w)).
Proof.
  intros ([Hlo Hhi] & Hdown & Hup). unfold createFloorCall.
  rewrite (proj2 (Z.ltb_ge fl 1)) by lia.
  destruct (Z.gtb_spec fl FLOORS) as [?|_]; [lia|]. simpl.
  destruct (bool_decide (fl = 1) && bool_decide (d = DOWN)) eqn:H1.
  { apply andb_true_iff in H1 as [?%bool_decide_eq_true ?%bool_decide_eq_true].
    by destruct Hdown. }
  destruct (bool_decide (fl = FLOORS) && bool_decide (d = UP)) eqn:H2.
  { apply andb_true_iff in H2 as [?%bool_decide_eq_true ?%bool_decide_eq_true].
    by destruct Hup. }
  reflexivity.
Qed.

Lemma createFloorCall_illegal fl d w :
  ¬ legal_request fl d → ∃ err, createFloorCall fl d w = (Thrown err, w).
Proof.
  intros Hill. unfold createFloorCall.
  destruct (Z.ltb_spec fl 1); simpl; [by eexists|].
  destruct (Z.gtb_spec fl FLOORS); simpl; [by eexists|].
  destruct (bool_decide (fl = 1) && bool_decide (d = DOWN)) eqn:H1; [by eexists|].
  destruct (bool_decide (fl = FLOORS) && bool_decide (d = UP)) eqn:H2; [by eexists|].
  exfalso. apply Hill. split; [lia|].
  split; intros [-> ->]; by rewrite !bool_decide_eq_true_2 in * by done.
Qed.

(** What [addFloorCall] does to the queue; the rest of the state but the
    log is untouched. *)
Lemma addFloorCall_effect call w :
  let w' := exec (addFloorCall call) w in
  let queued :=
    match findBestElevator (elevators (state w)) call with
    | Some best => set_assignedElevator (id best) call
    | None => call
    end in
  elevators (state w') = elevators (state w)
  ∧ pendingCalls (state w') = pendingCalls (state w) ++ [queued]
  ∧ totalCallsProcessed (state w') = totalCallsProcessed (state w)
  ∧ isSimulationRunning (state w') = isSimulationRunning (state w)
  ∧ timers w' = timers w
  ∧ callIdCounter w' = callIdCounter w
  ∧ Math_random w' = Math_random w.
Proof.
  destruct w as [[els pcs lgs sim start total] tms ctr clock cr rnd rr].
  unfold addFloorCall. eff_run.
  destruct (findBestElevator els call); eff_run; done.
Qed.

Lemma generateRandomCall_effect w :
  random_in_unit_interval w →
  let call := eval generateRandomCall w in
  let w' := exec generateRandomCall w in
  legal_request (floor call) (call_direction call)
  ∧ (floor call = 1 → call_direction call = UP)
  ∧ (floor call = FLOORS → call_direction call = DOWN)
  ∧ assignedElevator call = None
  ∧ (call_id call).1 = callIdCounter w + 1
  ∧ callIdCounter w' = callIdCounter w + 1
  ∧ state w' = state w
  ∧ Math_random w' = Math_random w
  ∧ timers w' = timers w.
Proof.
  intros Hr. destruct (Hr (random_reads w)) as [H0 H1].
  pose proof (Qfloor_scaled _ FLOORS H0 H1 ltac:(done)) as Hn.
  unfold eval, exec, generateRandomCall, bind. rewrite random_below_run.
  cbn [random next_callId now ret fst snd after_random
       state timers callIdCounter Date_now clock_reads Math_random random_reads
       floor call_direction assignedElevator call_id].
  set (n := Qfloor _) in *.
  set (d := if decide (n + 1 = FLOORS) then DOWN else _).
  assert (legal_request (n + 1) d) as Hlegal.
  { unfold legal_request, d, FLOORS in *. split; [lia|].
    repeat case_decide; split; intros [? ?]; simplify_eq; lia. }
  split_and!; try done.
  - unfold d, FLOORS. intros ?. by rewrite decide_False, decide_True by lia.
  - unfold d. intros ?. by rewrite decide_True.
Qed.

(** X2. The factory's [generateRandomCall] only makes requests that
    [createFloorCall] accepts: the floor is in the building and the
    direction is up on the ground floor and down on the top floor. The call
    is unassigned and carries the incremented counter in its identifier;
    the state of the service is untouched. *)
Theorem generateRandomCall_legal (w : World) :
  random_in_unit_interval w →
  let call := eval generateRandomCall w in
  let w' := exec generateRandomCall w in
  legal_request (floor call) (call_direction call)
  ∧ (floor call = 1 → call_direction call = UP)
  ∧ (floor call = FLOORS → call_direction call = DOWN)
  ∧ assignedElevator call = None
  ∧ (call_id call).1 = callIdCounter w + 1
  ∧ callIdCounter w' = callIdCounter w + 1
  ∧ state w' = state w
  ∧ ¬ (∃ err, eval (createFloorCall (floor call) (call_direction call)) w
              = Thrown err).
Proof.
  intros Hr.
  destruct (generateRandomCall_effect w Hr)
    as (Hlegal & H1 & HF & Hnone & Hid & Hctr & Hstate & _).
  split_and!; try done.
  intros [err Herr]. unfold eval in Herr.
  by rewrite (createFloorCall_legal _ _ _ Hlegal) in Herr.
Qed.

Lemma generateRandomCall_legal_witness :
  random_in_unit_interval (initial_world (1 # 2))
  ∧ floor (eval generateRandomCall (initial_world (1 # 2))) = 6
  ∧ legal_request (floor (eval generateRandomCall (initial_world (1 # 2))))
      (call_direction (eval generateRandomCall (initial_world (1 # 2)))).
Proof.
  assert (random_in_unit_interval (initial_world (1 # 2))) as Hr.
  { intros k. split; vm_compute; [discriminate|reflexivity]. }
  split; [exact Hr|]. split; [vm_compute; reflexivity|].
  exact (proj1 (generateRandomCall_legal (initial_world (1 # 2)) Hr)).
Defined.

(** X3. [handleFloorCall] of the hook puts a request in the queue exactly
    when it is legal. A legal request appends one call with that floor and
    direction and a fresh identifier, changes no car and clears the error;
    an illegal one sets the error and leaves the whole world, queue and
    counter included, as it was. *)
Theorem handleFloorCall_spec (fl : Z) (d : CallDirection) (w : World) :
  let error := eval (handleFloorCall fl d) w in
  let w' := exec (handleFloorCall fl d) w in
  (legal_request fl d →
     error = None
     ∧ elevators (state w') = elevators (state w)
     ∧ totalCallsProcessed (state w') = totalCallsProcessed (state w)
     ∧ callIdCounter w' = callIdCounter w + 1
     ∧ ∃ queued,
         pendingCalls (state w') = pendingCalls (state w) ++ [queued]
         ∧ floor queued = fl
         ∧ call_direction queued = d
         ∧ call_id queued = (callIdCounter w + 1, Date_now w (clock_reads w)))
  ∧ (¬ legal_request fl d → (∃ err, error = Some err) ∧ w' = w).
Proof.
  unfold eval, exec, handleFloorCall, bind. split.
  - intros Hlegal. rewrite (createFloorCall_legal _ _ _ Hlegal).
    set (call := mkFloorCall _ _ _ _ _). set (w1 := mkWorld _ _ _ _ _ _ _).
    destruct (addFloorCall_effect call w1) as (Hels & Hcalls & Htotal & _ & _ & Hctr & _).
    unfold exec in *. destruct (addFloorCall call w1) as [[] w2]. simpl in *.
    split_and!; try done.
    eexists. split; [exact Hcalls|]. by destruct (findBestElevator _ _).
  - intros Hill. destruct (createFloorCall_illegal fl d w Hill) as [err ->].
    simpl. eauto.
Qed.

Lemma handleFloorCall_run_legal fl d w :
  legal_request fl d → ∃ w', handleFloorCall fl d w = (None, w').
Proof.
  intros Hlegal. unfold handleFloorCall, bind.
  rewrite (createFloorCall_legal _ _ _ Hlegal).
  destruct (addFloorCall _ _) as [[] w']. by exists w'.
Qed.

(** X4. On every floor of the building a call button is enabled exactly
    when the factory accepts the request it would make; so a click on a
    button never ends in an error, and a click on a disabled button changes
    nothing. *)
Theorem call_buttons_only_make_legal_requests (fl : Z) (w : World) :
  1 ≤ fl ≤ FLOORS →
  (canGoUp fl = true ↔ legal_request fl UP)
  ∧ (canGoDown fl = true ↔ legal_request fl DOWN)
  ∧ (∀ err, eval (handleUpCall fl) w ≠ Some (Some err))
  ∧ (∀ err, eval (handleDownCall fl) w ≠ Some (Some err))
  ∧ (canGoUp fl = false → exec (handleUpCall fl) w = w)
  ∧ (canGoDown fl = false → exec (handleDownCall fl) w = w).
Proof.
  intros Hfl.
  assert (canGoUp fl = true ↔ legal_request fl UP) as Hup.
  { unfold canGoUp, legal_request. rewrite Z.ltb_lt. split.
    - intros ?. split; [lia|]. split; intros [? ?]; [done|lia].
    - intros (_ & _ & Htop). destruct (decide (fl = FLOORS)); [|lia].
      by destruct Htop. }
  assert (canGoDown fl = true ↔ legal_request fl DOWN) as Hdown.
  { unfold canGoDown, legal_request. rewrite Z.gtb_gt. split.
    - intros ?. split; [lia|]. split; intros [? ?]; [lia|done].
    - intros (_ & Hground & _). destruct (decide (fl = 1)); [|lia].
      by destruct Hground. }
  split_and!; try done.
  - intros err. unfold handleUpCall, eval.
    destruct (canGoUp fl) eqn:Hb; [|done].
    destruct (handleFloorCall_run_legal fl UP w (proj1 Hup eq_refl)) as [w' Hrun].
    unfold bind. by rewrite Hrun.
  - intros err. unfold handleDownCall, eval.
    destruct (canGoDown fl) eqn:Hb; [|done].
    destruct (handleFloorCall_run_legal fl DOWN w (proj1 Hdown eq_refl)) as [w' Hrun].
    unfold bind. by rewrite Hrun.
  - intros Hb. unfold handleUpCall. by rewrite Hb.
  - intros Hb. unfold handleDownCall. by rewrite Hb.
Qed.

Lemma call_buttons_only_make_legal_requests_witness :
  1 ≤ 10 ≤ FLOORS
  ∧ canGoUp 10 = false
  ∧ exec (handleUpCall 10) (initial_world 0) = initial_world 0
  ∧ canGoDown 10 = true
  ∧ legal_request 10 DOWN.
Proof.
  assert (1 ≤ 10 ≤ FLOORS) as Hfl by (vm_compute; split; discriminate).
  destruct (call_buttons_only_make_legal_requests 10 (initial_world 0) Hfl)
    as (_ & Hdown & _ & _ & Hup & _).
  split; [exact Hfl|]. split; [reflexivity|]. split; [exact (Hup eq_refl)|].
  split; [reflexivity|]. exact (proj1 Hdown eq_refl).
Defined.

(** X5. [generateRandomCall] of the service appends exactly one call to
    the queue, a legal one, and changes no car. *)
Theorem service_generateRandomCall_spec (w : World) :
  random_in_unit_interval w →
  let w' := exec ElevatorControlService.generateRandomCall w in
  elevators (state w') = elevators (state w)
  ∧ totalCallsProcessed (state w') = totalCallsProcessed (state w)
  ∧ timers w' = timers w
  ∧ callIdCounter w' = callIdCounter w + 1
  ∧ ∃ queued,
      pendingCalls (state w') = pendingCalls (state w) ++ [queued]
      ∧ legal_request (floor queued) (call_direction queued)
      ∧ (call_id queued).1 = callIdCounter w + 1.
Proof.
  intros Hr.
  destruct (generateRandomCall_effect w Hr)
    as (Hlegal & _ & _ & _ & Hid & Hctr & Hstate & _ & Htimers).
  unfold ElevatorControlService.generateRandomCall. simpl.
  rewrite exec_bind.
  set (call := eval generateRandomCall w) in *.
  set (w1 := exec generateRandomCall w) in *.
  destruct (addFloorCall_effect call w1) as (Hels & Hcalls & Htotal & _ & Htm & Hc & _).
  rewrite Hels, Htotal, Hcalls, Hc, Htm, Hctr, Htimers, Hstate.
  split_and!; try done.
  eexists. split; [done|]. by destruct (findBestElevator _ _).
Qed.

Lemma service_generateRandomCall_spec_witness :
  random_in_unit_interval (initial_world (1 # 2))
  ∧ length (pendingCalls (state
      (exec ElevatorControlService.generateRandomCall (initial_world (1 # 2)))))
    = 1%nat.
Proof.
  assert (random_in_unit_interval (initial_world (1 # 2))) as Hr.
  { intros k. split; vm_compute; [discriminate|reflexivity]. }
  split; [exact Hr|].
  destruct (service_generateRandomCall_spec (initial_world (1 # 2)) Hr)
    as (_ & _ & _ & _ & queued & Hq & _).
  rewrite Hq. vm_compute. reflexivity.
Defined.

(** ** Invariants of the service *)

Lemma preserves_ret {A} (P : World → Prop) (a : A) : preserves P (ret a).
Proof. by intros w Hw. Qed.

Lemma preserves_bind {A B} (P : World → Prop) (m : Eff A) (k : A → Eff B) :
  preserves P m → (∀ a, preserves P (k a)) → preserves P (bind m k).
Proof. intros Hm Hk w Hw. rewrite exec_bind. by apply Hk, Hm. Qed.

Lemma preserves_forEach {A} (P : World → Prop) (l : list A) (f : A → Eff unit) :
  (∀ x, x ∈ l → preserves P (f x)) → preserves P (forEach l f).
Proof.
  induction l as [|x l IH]; intros Hf; simpl; [apply preserves_ret|].
  apply preserves_bind; [apply Hf; left|]. intros _. apply IH.
  intros y Hy. apply Hf. by right.
Qed.

(** A computation that leaves the state of the service alone keeps every
    property of that state. *)
Lemma preserves_state_untouched {A} (Q : ElevatorSystemState → Prop) (m : Eff A) :
  (∀ w, state (exec m w) = state w) → preserves (λ w, Q (state w)) m.
Proof. intros Hm w Hw. by rewrite Hm. Qed.

Lemma draw_destination_state budget cur dests attempts w :
  state (draw_destination budget cur dests attempts w).2 = state w.
Proof.
  revert attempts w. induction budget as [|budget IH]; intros attempts w;
    rewrite draw_destination_unfold; cbv zeta; [done|].
  destruct (_ && _); [|done]. by rewrite IH.
Qed.

Lemma fill_destinations_state n cur dests w :
  state (fill_destinations n cur dests w).2 = state w.
Proof.
  revert dests w. induction n as [|n IH]; intros dests w; [done|].
  rewrite fill_destinations_unfold. cbv zeta.
  by rewrite IH, draw_destination_state.
Qed.

Lemma generatePassengerDestinations_state cur maxDestinations w :
  state (exec (generatePassengerDestinations cur maxDestinations) w) = state w.
Proof.
  unfold exec, generatePassengerDestinations, bind. rewrite random_below_run.
  by rewrite fill_destinations_state.
Qed.

Lemma generateRandomCall_state w : state (exec generateRandomCall w) = state w.
Proof.
  unfold exec, generateRandomCall, bind. by rewrite random_below_run.
Qed.

Lemma update_elevator_twice i (f g : Elevator → Elevator) w :
  exec (update_elevator i g) (exec (update_elevator i f) w)
  = exec (update_elevator i (g ∘ f)) w.
Proof.
  destruct w as [[els pcs lgs sim start total] tms ctr clock cr rnd rr].
  unfold exec, update_elevator, modify_state. simpl.
  by rewrite list_alter_alter_eq.
Qed.

(** Two updates of the same elevator in a row count as one: a property may
    fail between them. *)
Lemma preserves_update_update {B} (P : World → Prop) i f g (k : Eff B) :
  preserves P (update_elevator i (g ∘ f)) → preserves P k →
  preserves P (update_elevator i f ;; update_elevator i g ;; k).
Proof.
  intros Hfg Hk w Hw. rewrite !exec_bind, update_elevator_twice.
  by apply Hk, Hfg.
Qed.

(** Taking a computation of the service apart, down to the steps that
    change the state; [known] closes the goals settled beforehand, and [Q]
    is the property of the state that is kept. *)
Ltac preserves_structure Q known :=
  repeat first
    [ known
    | apply preserves_ret
    | apply (preserves_state_untouched Q); intros ?;
      first [ apply generatePassengerDestinations_state
            | apply generateRandomCall_state ]
    | apply preserves_update_update
    | apply preserves_bind; [|intros ?]
    | apply preserves_forEach; intros ? _
    | apply (preserves_state_untouched Q); intros ?; reflexivity
    | lazymatch goal with
      | |- preserves _ (when ?b _) => destruct b; cbn [when]
      | |- preserves _ (if ?c then _ else _) => destruct c
      | |- preserves _ (match ?x with _ => _ end) => destruct x
      end
    | progress cbv zeta
    | progress unfold processElevatorLogic, process_elevator,
        handleElevatorAtFloor, handlePassengerDropoff, handlePassengerPickup,
        moveElevatorToNextDestination, moveElevator, reassignUnassignedCalls,
        addFloorCall, toggleSimulation, clearLogs, run_callback,
        loading_done, move_done, ElevatorControlService.generateRandomCall,
        handleFloorCall, handleUpCall, handleDownCall, createFloorCall ].

(** Running one step on a world given by its parts. *)
Ltac preserves_step_run :=
  let w := fresh "w" in
  let Hw := fresh "Hw" in
  intros w Hw;
  destruct w as [[els pcs lgs sim start total] tms ctr clock cr rnd rr];
  cbn [state logs elevators pendingCalls totalCallsProcessed systemStartTime
       timers callIdCounter Date_now clock_reads Math_random] in Hw;
  eff_run.

(** *** The cap of the log *)

Lemma push_log_length entry lgs :
  (length lgs ≤ Z.to_nat MAX_LOG_ENTRIES)%nat →
  (length (push_log entry lgs) ≤ Z.to_nat MAX_LOG_ENTRIES)%nat.
Proof.
  intros Hlen. rewrite push_log_newest, newest_length by done. lia.
Qed.

Lemma log_bounded_addLog type message elevatorId fl :
  preserves (λ w, log_bounded (state w)) (addLog type message elevatorId fl).
Proof.
  unfold log_bounded. preserves_step_run. by apply push_log_length.
Qed.

(** Proving that a computation keeps [Q]: take it apart, run each step
    that is left, and finish. *)
Ltac preserves_by_steps Q known finish :=
  preserves_structure Q known;
  unfold log_bounded, positioned, fleet_positions, passengers_counted,
    elevator_is, numbered, processed_so_far, getSystemMetrics;
  preserves_step_run; finish.

Ltac log_bounded_finish := first [ assumption | cbn [length]; lia ].

Ltac log_bounded_steps :=
  preserves_by_steps log_bounded ltac:(apply log_bounded_addLog)
    log_bounded_finish.

(** X6. Every operation of the service keeps the log within
    [MAX_LOG_ENTRIES]: adding a call, a tick, the two timer callbacks,
    toggling the simulation, clearing the log, generating a random call
    and a floor call made through the hook; and the constructor starts with
    a log within the cap. *)
Theorem log_stays_within_cap :
  (∀ call, preserves (λ w, log_bounded (state w)) (addFloorCall call))
  ∧ preserves (λ w, log_bounded (state w)) processElevatorLogic
  ∧ (∀ callback, preserves (λ w, log_bounded (state w)) (run_callback callback))
  ∧ preserves (λ w, log_bounded (state w)) toggleSimulation
  ∧ preserves (λ w, log_bounded (state w)) clearLogs
  ∧ preserves (λ w, log_bounded (state w)) ElevatorControlService.generateRandomCall
  ∧ (∀ fl d, preserves (λ w, log_bounded (state w)) (handleFloorCall fl d))
  ∧ (∀ w, log_bounded (state (exec constructor w))).
Proof.
  split_and!; intros.
  - log_bounded_steps.
  - log_bounded_steps.
  - log_bounded_steps.
  - log_bounded_steps.
  - log_bounded_steps.
  - log_bounded_steps.
  - log_bounded_steps.
  - destruct w as [[els pcs lgs sim start total] tms ctr clock cr rnd rr].
    unfold log_bounded, constructor, createInitialSystemState,
      createInitialElevators, ELEVATOR_COUNT.
    cbn [seq]. eff_run. vm_compute. lia.
Qed.

(** *** Where the cars are *)

Lemma fleet_positions_update l i (f : Elevator → Elevator) :
  (∀ e, id (f e) = id e ∧ currentFloor (f e) = currentFloor e) →
  preserves (λ w, positioned l (state w)) (update_elevator i f).
Proof.
  intros Hf. unfold positioned, fleet_positions. preserves_step_run.
  rewrite <- Hw. clear Hw. revert i.
  induction els as [|e els IH]; intros [|i]; simpl; try done.
  - destruct (Hf e) as [-> ->]. done.
  - f_equal. apply IH.
Qed.

Lemma fleet_positions_addLog l type message elevatorId fl :
  preserves (λ w, positioned l (state w)) (addLog type message elevatorId fl).
Proof. unfold positioned, fleet_positions. by preserves_step_run. Qed.

Ltac fleet_positions_known :=
  first [ apply fleet_positions_addLog
        | apply fleet_positions_update; by intros [] ].

(** X7. No synchronous operation of the service moves a car or changes
    the fleet: after adding a call, a tick, toggling, clearing the log,
    generating a random call, a floor call through the hook, or the end of
    loading, the cars are the same in number, with the same identifiers, at
    the same floors. Only the arrival callback of a move changes a
    floor. *)
Theorem cars_stay_where_they_are (l : list (Z * Z)) :
  (∀ call, preserves (λ w, positioned l (state w)) (addFloorCall call))
  ∧ preserves (λ w, positioned l (state w)) processElevatorLogic
  ∧ preserves (λ w, positioned l (state w)) toggleSimulation
  ∧ preserves (λ w, positioned l (state w)) clearLogs
  ∧ preserves (λ w, positioned l (state w))
      ElevatorControlService.generateRandomCall
  ∧ (∀ fl d, preserves (λ w, positioned l (state w)) (handleFloorCall fl d))
  ∧ (∀ i fl, preserves (λ w, positioned l (state w)) (loading_done i fl)).
Proof.
  split_and!; intros;
    preserves_by_steps (positioned l) fleet_positions_known ltac:(assumption).
Qed.

(** *** The passenger count *)

Lemma passengers_counted_update i (f : Elevator → Elevator) :
  (∀ e, passengers e = size (destinationFloors e) →
        passengers (f e) = size (destinationFloors (f e))) →
  preserves (λ w, passengers_counted (state w)) (update_elevator i f).
Proof.
  intros Hf. unfold passengers_counted. preserves_step_run.
  intros e [j He]%list_elem_of_lookup.
  destruct (decide (i = j)) as [->|Hne].
  - rewrite list_lookup_alter_eq in He.
    destruct (els !! j) as [e0|] eqn:Hj; [|done]. simpl in He.
    injection He as <-. apply Hf, Hw. by eapply list_elem_of_lookup_2.
  - rewrite list_lookup_alter_ne in He by done.
    apply Hw. by eapply list_elem_of_lookup_2.
Qed.

Lemma passengers_counted_addLog type message elevatorId fl :
  preserves (λ w, passengers_counted (state w))
    (addLog type message elevatorId fl).
Proof. unfold passengers_counted. by preserves_step_run. Qed.

Ltac passengers_counted_known :=
  first [ apply passengers_counted_addLog
        | apply passengers_counted_update; by intros [] ].

(** X8. Every car counts as many passengers as it has destinations: the
    constructor starts that way, and a tick, the two timer callbacks,
    adding a call, toggling, clearing the log and generating a random call
    keep it so. *)
Theorem passengers_match_destinations :
  (∀ w, passengers_counted (state (exec constructor w)))
  ∧ preserves (λ w, passengers_counted (state w)) processElevatorLogic
  ∧ (∀ callback, preserves (λ w, passengers_counted (state w)) (run_callback callback))
  ∧ (∀ call, preserves (λ w, passengers_counted (state w)) (addFloorCall call))
  ∧ preserves (λ w, passengers_counted (state w)) toggleSimulation
  ∧ preserves (λ w, passengers_counted (state w)) clearLogs
  ∧ preserves (λ w, passengers_counted (state w))
      ElevatorControlService.generateRandomCall.
Proof.
  split_and!; intros;
    try (preserves_by_steps passengers_counted passengers_counted_known
           ltac:(assumption)).
  destruct w as [[els pcs lgs sim start total] tms ctr clock cr rnd rr].
  unfold passengers_counted, constructor, createInitialSystemState,
    createInitialElevators, ELEVATOR_COUNT.
  cbn [seq]. eff_run.
  intros e He. repeat (apply elem_of_cons in He as [->|He]; [done|]).
  by apply elem_of_nil in He.
Qed.

(** *** Busy cars *)

Lemma elevator_is_update j e i (f : Elevator → Elevator) :
  i ≠ j → preserves (λ w, elevator_is j e (state w)) (update_elevator i f).
Proof.
  intros Hne. unfold elevator_is. preserves_step_run.
  by rewrite list_lookup_alter_ne.
Qed.

Lemma elevator_is_addLog j e type message elevatorId fl :
  preserves (λ w, elevator_is j e (state w)) (addLog type message elevatorId fl).
Proof. unfold elevator_is. by preserves_step_run. Qed.

(** A tick passes over a busy car, and the work on another car does not
    reach it. *)
Lemma elevator_is_process_elevator j e i :
  is_available e = false →
  preserves (λ w, elevator_is j e (state w)) (process_elevator i).
Proof.
  intros Hbusy. destruct (decide (i = j)) as [->|Hne].
  - intros w Hw. unfold process_elevator. rewrite exec_bind.
    change (exec (read_elevator j) w) with w.
    change (eval (read_elevator j) w) with (elevators (state w) !!! j).
    rewrite (list_lookup_total_correct _ _ _ Hw).
    unfold is_available in Hbusy.
    destruct (isMoving e), (isLoading e); done.
  - preserves_by_steps (elevator_is j e)
      ltac:(first [ apply elevator_is_addLog
                  | by apply elevator_is_update ])
      ltac:(assumption).
Qed.

(** X9. A tick leaves every car that is moving or loading exactly as it
    was: nothing of a busy car changes, whatever happens to the others. *)
Theorem tick_leaves_busy_cars_alone (w : World) (j : nat) (e : Elevator) :
  elevators (state w) !! j = Some e →
  is_available e = false →
  elevators (state (exec processElevatorLogic w)) !! j = Some e.
Proof.
  intros Hj Hbusy.
  assert (preserves (λ w, elevator_is j e (state w)) processElevatorLogic) as Hp.
  { unfold processElevatorLogic. apply preserves_bind; [by intros ? ?|].
    intros s. apply preserves_bind.
    - apply preserves_forEach. intros i _.
      by apply elevator_is_process_elevator.
    - intros _.
      preserves_by_steps (elevator_is j e) ltac:(apply elevator_is_addLog)
        ltac:(assumption). }
  by apply Hp.
Qed.

Lemma tick_leaves_busy_cars_alone_witness :
  elevators (state busy_world) !! 0%nat = Some moving_car
  ∧ is_available moving_car = false
  ∧ elevators (state (exec processElevatorLogic busy_world)) !! 0%nat
    = Some moving_car.
Proof.
  assert (elevators (state busy_world) !! 0%nat = Some moving_car) as Hi
    by reflexivity.
  assert (is_available moving_car = false) as Hbusy by reflexivity.
  split; [exact Hi|]. split; [exact Hbusy|].
  exact (tick_leaves_busy_cars_alone busy_world 0 moving_car Hi Hbusy).
Defined.

(** ** Moving *)

(** What [moveElevatorToNextDestination] does, in terms of the departure
    it decides. *)
Lemma moveElevatorToNextDestination_effect i w e :
  elevators (state w) !! i = Some e →
  let w' := exec (moveElevatorToNextDestination i) w in
  let target := departure e (pendingCalls (state w)) in
  (∃ e', elevator_becomes w w' i e'
     ∧ id e' = id e
     ∧ currentFloor e' = currentFloor e
     ∧ isLoading e' = isLoading e
     ∧ destinationFloors e' = destinationFloors e
     ∧ passengers e' = passengers e
     ∧ isMoving e' = (if target is Some _ then true else isMoving e)
     ∧ direction e' =
         match target with
         | Some t => if t >? currentFloor e then MOVING_UP else MOVING_DOWN
         | None => IDLE
         end)
  ∧ pendingCalls (state w') = pendingCalls (state w)
  ∧ totalCallsProcessed (state w') = totalCallsProcessed (state w)
  ∧ timers w' =
      timers w ++
      (if target is Some t then [(MoveDone i t, MOVE_DURATION_MS)] else []).
Proof.
  intros Hi. destruct w as [[els pcs lgs sim start total] tms ctr clock cr rnd rr].
  simpl in Hi. apply elevator_split in Hi as (l1 & l2 & -> & ->).
  destruct e as [eid cur dir mv ld dests pass act].
  unfold elevator_becomes, moveElevatorToNextDestination, departure. eff_run.
  destruct (getNextDestination _ pcs) as [t|]; eff_run;
    [destruct ((t =? 0) || (t =? cur)); unfold moveElevator; eff_run|];
    try (destruct (bool_decide (dir ≠ IDLE)) eqn:Hdir; eff_run);
    (split_and!; [|done|done|by rewrite ?app_nil_r]);
    eexists; rewrite insert_middle; split_and!; try done;
    by apply bool_decide_eq_false, dec_stable in Hdir.
Qed.

(** X10. [moveElevatorToNextDestination] starts a move exactly when
    [getNextDestination] gives a floor other than the car's own (and other
    than 0): the car is then flagged as moving, heads up or down towards
    that floor, and one arrival callback for that floor is scheduled.
    Otherwise the car ends idle and nothing is scheduled. In both cases
    the car's floor, destinations and passengers, the queue and the
    counter are untouched. *)
Theorem moveElevatorToNextDestination_spec (i : nat) (w : World) (e : Elevator) :
  elevators (state w) !! i = Some e →
  let w' := exec (moveElevatorToNextDestination i) w in
  ∃ e', elevators (state w') = <[i := e']> (elevators (state w))
    ∧ currentFloor e' = currentFloor e
    ∧ destinationFloors e' = destinationFloors e
    ∧ passengers e' = passengers e
    ∧ pendingCalls (state w') = pendingCalls (state w)
    ∧ totalCallsProcessed (state w') = totalCallsProcessed (state w)
    ∧ match departure e (pendingCalls (state w)) with
      | Some t =>
          getNextDestination e (pendingCalls (state w)) = Some t
          ∧ t ≠ currentFloor e
          ∧ isMoving e' = true
          ∧ direction e' = (if t >? currentFloor e then MOVING_UP else MOVING_DOWN)
          ∧ timers w' = timers w ++ [(MoveDone i t, MOVE_DURATION_MS)]
      | None =>
          isMoving e' = isMoving e
          ∧ direction e' = IDLE
          ∧ timers w' = timers w
      end.
Proof.
  intros Hi.
  destruct (moveElevatorToNextDestination_effect i w e Hi)
    as ((e' & He' & _ & Hcur & _ & Hdest & Hpass & Hmv & Hdir)
        & Hcalls & Htotal & Htimers).
  exists e'. split_and!; try done.
  unfold departure in *.
  destruct (getNextDestination e (pendingCalls (state w))) as [t|];
    [destruct (Z.eqb_spec t 0), (Z.eqb_spec t (currentFloor e)); simpl in *|];
    rewrite ?app_nil_r in Htimers; by split_and!.
Qed.

Lemma moveElevatorToNextDestination_spec_witness :
  elevators (state call_world) !! 0%nat = Some (car 1 1 IDLE ∅)
  ∧ timers (exec (moveElevatorToNextDestination 0) call_world)
    = [(MoveDone 0 5, MOVE_DURATION_MS)].
Proof.
  assert (elevators (state call_world) !! 0%nat = Some (car 1 1 IDLE ∅)) as Hi
    by reflexivity.
  assert (departure (car 1 1 IDLE ∅) (pendingCalls (state call_world)) = Some 5)
    as Hd by (vm_compute; reflexivity).
  split; [exact Hi|].
  destruct (moveElevatorToNextDestination_spec 0 call_world _ Hi)
    as (e' & _ & _ & _ & _ & _ & _ & Hdep).
  rewrite Hd in Hdep. destruct Hdep as (_ & _ & _ & _ & Htimers). exact Htimers.
Defined.

(** X11. One arrival ends a move, whatever the distance: the callback of
    [moveElevator], fired after it, puts the car on the target floor and
    clears its moving flag, the direction staying the one of the move;
    destinations, passengers, loading flag, queue and counter are
    untouched. Fired for a car that is not moving, the callback changes
    nothing. *)
Theorem move_then_arrival (i : nat) (targetFloor : Z) (w : World) (e : Elevator) :
  elevators (state w) !! i = Some e →
  let w' := exec (moveElevator i targetFloor ;; move_done i targetFloor) w in
  (∃ e', elevators (state w') = <[i := e']> (elevators (state w))
     ∧ id e' = id e
     ∧ currentFloor e' = targetFloor
     ∧ isMoving e' = false
     ∧ direction e' =
         (if targetFloor >? currentFloor e then MOVING_UP else MOVING_DOWN)
     ∧ isLoading e' = isLoading e
     ∧ destinationFloors e' = destinationFloors e
     ∧ passengers e' = passengers e)
  ∧ pendingCalls (state w') = pendingCalls (state w)
  ∧ totalCallsProcessed (state w') = totalCallsProcessed (state w)
  ∧ (isMoving e = false → exec (move_done i targetFloor) w = w).
Proof.
  intros Hi. destruct w as [[els pcs lgs sim start total] tms ctr clock cr rnd rr].
  simpl in Hi. apply elevator_split in Hi as (l1 & l2 & -> & ->).
  destruct e as [eid cur dir mv ld dests pass act].
  split_and!.
  - unfold moveElevator, move_done. eff_run.
    eexists. rewrite insert_middle. by split_and!.
  - unfold moveElevator, move_done. by eff_run.
  - unfold moveElevator, move_done. by eff_run.
  - simpl. intros ->. unfold move_done. by eff_run.
Qed.

Lemma move_then_arrival_witness :
  elevators (state call_world) !! 0%nat = Some (car 1 1 IDLE ∅)
  ∧ ∃ e', elevators (state (exec (moveElevator 0 5 ;; move_done 0 5) call_world))
            = <[0%nat := e']> (elevators (state call_world))
          ∧ currentFloor e' = 5 ∧ isMoving e' = false.
Proof.
  assert (elevators (state call_world) !! 0%nat = Some (car 1 1 IDLE ∅)) as Hi
    by reflexivity.
  split; [exact Hi|].
  destruct (move_then_arrival 0 5 call_world _ Hi)
    as ((e' & He' & _ & Hcur & Hmv & _) & _).
  exists e'. split; [exact He'|]. split; [exact Hcur|exact Hmv].
Defined.

(** ** Loading *)

Lemma draw_destination_reads budget cur dests attempts w :
  more_random_reads w (draw_destination budget cur dests attempts w).2.
Proof.
  revert attempts w. induction budget as [|budget IH]; intros attempts w;
    rewrite draw_destination_unfold; cbv zeta; [by eexists|].
  destruct (_ && _); [|by eexists].
  destruct (IH (attempts + 1) (after_random w)) as [k ->]. by eexists.
Qed.

Lemma fill_destinations_reads n cur dests w :
  more_random_reads w (fill_destinations n cur dests w).2.
Proof.
  revert dests w. induction n as [|n IH]; intros dests w.
  - destruct w. by eexists.
  - rewrite fill_destinations_unfold. cbv zeta.
    destruct (draw_destination_reads 10 cur dests 0 w) as [k Hk].
    rewrite Hk. destruct (IH (if (draw_destination 10 cur dests 0 w).1.2 <? 10
                              then {[(draw_destination 10 cur dests 0 w).1.1]} ∪ dests
                              else dests)
                            (mkWorld (state w) (timers w) (callIdCounter w)
                               (Date_now w) (clock_reads w) (Math_random w) k))
      as [k' ->]. by eexists.
Qed.

(** The destinations generated: floors of the building other than the
    boarding floor, at most [maxDestinations] of them, for the price of
    some random draws. *)
Lemma generatePassengerDestinations_run cur maxDestinations w :
  1 ≤ maxDestinations → random_in_unit_interval w →
  ∃ D k,
    generatePassengerDestinations cur maxDestinations w =
      (D, mkWorld (state w) (timers w) (callIdCounter w)
            (Date_now w) (clock_reads w) (Math_random w) k)
    ∧ (∀ x, x ∈ D → 1 ≤ x ≤ FLOORS ∧ x ≠ cur)
    ∧ (size D ≤ Z.to_nat maxDestinations)%nat.
Proof.
  intros Hmax Hr. unfold generatePassengerDestinations, bind.
  rewrite random_below_run. cbv zeta.
  destruct (Hr (random_reads w)) as [H0 H1].
  pose proof (Qfloor_scaled _ maxDestinations H0 H1 Hmax) as Hn.
  set (n := Qfloor _) in *.
  assert (random_in_unit_interval (after_random w)) as Hr' by done.
  destruct (fill_destinations_spec (Z.to_nat (n + 1)) cur ∅ (after_random w) Hr')
    as (Hres & _ & Hsize); [by intros ? ?%not_elem_of_empty|].
  rewrite size_empty in Hsize.
  destruct (fill_destinations_reads (Z.to_nat (n + 1)) cur ∅ (after_random w))
    as [k Hk].
  destruct (fill_destinations _ _ _ _) as [D w1].
  cbn [fst snd after_random state timers callIdCounter Date_now clock_reads
       Math_random] in *. subst w1.
  exists D, k. split; [done|]. split; [done|lia].
Qed.

Lemma bind_run {A B} (m : Eff A) (k : A → Eff B) w a w1 :
  m w = (a, w1) → bind m k w = k a w1.
Proof. intros Hm. unfold bind. by rewrite Hm. Qed.

(** X12. When loading ends, the callback of [handlePassengerPickup] makes
    the car available for the tick again: the loading flag is cleared, the
    car keeps its destinations and gains at most three, all floors of the
    building other than the boarding floor, and it counts one passenger
    per destination. Floor, direction, moving flag, queue, counter and
    timers are untouched. Fired for a car that is not loading, the
    callback changes nothing. *)
Theorem loading_done_spec (i : nat) (fl : Z) (w : World) (e : Elevator) :
  elevators (state w) !! i = Some e →
  random_in_unit_interval w →
  let w' := exec (loading_done i fl) w in
  (isLoading e = false → w' = w)
  ∧ (isLoading e = true →
       (∃ e', elevators (state w') = <[i := e']> (elevators (state w))
          ∧ isLoading e' = false
          ∧ destinationFloors e ⊆ destinationFloors e'
          ∧ (∀ x, x ∈ destinationFloors e' →
                  x ∈ destinationFloors e ∨ (1 ≤ x ≤ FLOORS ∧ x ≠ fl))
          ∧ (size (destinationFloors e') ≤ size (destinationFloors e) + 3)%nat
          ∧ passengers e' = size (destinationFloors e')
          ∧ id e' = id e
          ∧ currentFloor e' = currentFloor e
          ∧ direction e' = direction e
          ∧ isMoving e' = isMoving e)
       ∧ pendingCalls (state w') = pendingCalls (state w)
       ∧ totalCallsProcessed (state w') = totalCallsProcessed (state w)
       ∧ timers w' = timers w).
Proof.
  intros Hi Hr.
  destruct (generatePassengerDestinations_run fl 3 w ltac:(lia) Hr)
    as (D & k & Hrun & Hrange & Hsize).
  destruct w as [[els pcs lgs sim start total] tms ctr clock cr rnd rr].
  simpl in Hi. apply elevator_split in Hi as (l1 & l2 & -> & ->).
  destruct e as [eid cur dir mv ld dests pass act].
  cbn [state timers callIdCounter Date_now clock_reads Math_random] in Hrun.
  split.
  - simpl. intros ->. unfold loading_done. by eff_run.
  - simpl. intros ->. unfold loading_done. eff_run.
    rewrite !(bind_run _ _ _ _ _ Hrun). eff_run.
    split_and!; try done.
    eexists. rewrite insert_middle. split_and!; try done.
    + set_solver.
    + intros x [?|?%Hrange]%elem_of_union; auto.
    + cbn [destinationFloors]. rewrite size_union_alt.
      assert (size (D ∖ dests) ≤ size D)%nat by (apply subseteq_size; set_solver).
      lia.
Qed.

Lemma loading_done_spec_witness :
  elevators (state loading_world) !! 0%nat = Some loading_car
  ∧ random_in_unit_interval loading_world
  ∧ timers (exec (loading_done 0 5) loading_world) = timers loading_world.
Proof.
  assert (elevators (state loading_world) !! 0%nat = Some loading_car) as Hi
    by reflexivity.
  assert (random_in_unit_interval loading_world) as Hr.
  { intros k. split; vm_compute; [discriminate|reflexivity]. }
  split; [exact Hi|]. split; [exact Hr|].
  destruct (loading_done_spec 0 5 loading_world _ Hi Hr) as [_ Hload].
  destruct (Hload eq_refl) as (_ & _ & _ & Htimers). exact Htimers.
Defined.

Example loading_ends_with_new_destinations :
  let w' := exec (loading_done 0 5) loading_world in
  (λ e, (elements (destinationFloors e), passengers e, isLoading e))
    <$> elevators (state w')
  = [([6; 8], 2%nat, false); ([], 0%nat, false)].
Proof. by vm_compute. Qed.

(** ** Reassigning calls *)

Lemma reassignUnassignedCalls_unfold :
  reassignUnassignedCalls =
  (s <- get_state ;;
   forEach (filter (λ call, not_assigned call = true) (pendingCalls s))
     reassign_call).
Proof. reflexivity. Qed.

Lemma findBestElevator_elem fleet call best :
  findBestElevator fleet call = Some best →
  best ∈ fleet ∧ is_available best = true.
Proof.
  unfold findBestElevator. case_decide; [done|].
  intros ([b s] & Hhd%head_Some_elem_of & ->)%fmap_Some.
  rewrite array_sort_perm in Hhd.
  apply list_elem_of_fmap in Hhd as (e & [= -> _] & Hin).
  apply list_elem_of_filter in Hin as [? ?]. done.
Qed.

Lemma findBestElevator_available fleet call car :
  car ∈ fleet → is_available car = true →
  is_Some (findBestElevator fleet call).
Proof.
  intros Hin Hav. unfold findBestElevator.
  assert (car ∈ filter (λ e, is_available e = true) fleet) as Hf
    by by apply list_elem_of_filter.
  case_decide as Hlen.
  - apply nil_length_inv in Hlen. rewrite Hlen in Hf. by apply elem_of_nil in Hf.
  - destruct (head _) as [x|] eqn:Hhd; [by eexists|].
    apply head_None, array_sort_nil_inv, fmap_nil_inv in Hhd.
    rewrite Hhd in Hf. by apply elem_of_nil in Hf.
Qed.

Lemma findBestElevator_none fleet call :
  (∀ car, car ∈ fleet → is_available car = false) →
  findBestElevator fleet call = None.
Proof.
  intros Hall. destruct (findBestElevator fleet call) as [best|] eqn:Hb; [|done].
  apply findBestElevator_elem in Hb as [Hin Hav].
  by rewrite (Hall _ Hin) in Hav.
Qed.

(** What the pass does with one call of its snapshot. *)
Lemma reassign_call_effect call w :
  let w' := exec (reassign_call call) w in
  elevators (state w') = elevators (state w)
  ∧ totalCallsProcessed (state w') = totalCallsProcessed (state w)
  ∧ timers w' = timers w
  ∧ callIdCounter w' = callIdCounter w
  ∧ pendingCalls (state w') =
      match findBestElevator (elevators (state w)) call,
            list_find (λ c, call_id c = call_id call) (pendingCalls (state w)) with
      | Some best, Some (idx, _) =>
          <[idx := set_assignedElevator (id best) call]> (pendingCalls (state w))
      | _, _ => pendingCalls (state w)
      end.
Proof.
  destruct w as [[els pcs lgs sim start total] tms ctr clock cr rnd rr].
  unfold reassign_call. eff_run.
  destruct (findBestElevator els call); eff_run; [|done].
  destruct (list_find _ pcs) as [[idx x]|]; eff_run; done.
Qed.

Lemma reassign_call_no_car call w :
  findBestElevator (elevators (state w)) call = None →
  exec (reassign_call call) w = w.
Proof.
  intros Hnone. unfold exec, reassign_call, bind, get_state. simpl.
  by rewrite Hnone.
Qed.

(** In a queue with distinct identifiers, the call found by its
    identifier is the call itself. *)
Lemma list_find_call_id (pcs : list FloorCall) call :
  NoDup (call_id <$> pcs) → call ∈ pcs →
  ∃ idx, list_find (λ c, call_id c = call_id call) pcs = Some (idx, call)
         ∧ pcs !! idx = Some call.
Proof.
  intros Hnd [idx Hidx]%list_elem_of_lookup.
  destruct (list_find (λ c, call_id c = call_id call) pcs) as [[j x]|] eqn:Hfind.
  - apply list_find_Some in Hfind as (Hj & Hx & _).
    assert (j = idx) as ->.
    { eapply NoDup_lookup; [done| |]; rewrite list_lookup_fmap.
      - by rewrite Hj.
      - rewrite Hidx. simpl. by rewrite Hx. }
    rewrite Hidx in Hj. injection Hj as <-. eauto.
  - apply list_find_None in Hfind. rewrite Forall_forall in Hfind.
    exfalso. apply (Hfind call); [by eapply list_elem_of_lookup_2|done].
Qed.

Lemma NoDup_call_id_inj (pcs : list FloorCall) c1 c2 :
  NoDup (call_id <$> pcs) → c1 ∈ pcs → c2 ∈ pcs →
  call_id c1 = call_id c2 → c1 = c2.
Proof.
  intros Hnd [i Hi]%list_elem_of_lookup [j Hj]%list_elem_of_lookup Heq.
  assert (i = j) as ->.
  { eapply NoDup_lookup; [done| |]; rewrite list_lookup_fmap.
    - by rewrite Hi.
    - rewrite Hj. simpl. by rewrite Heq. }
  congruence.
Qed.

(** The loop of the pass, for the calls [todo] still to be looked at. *)
Lemma reassign_loop (todo : list FloorCall) w :
  NoDup (call_id <$> pendingCalls (state w)) →
  NoDup (call_id <$> todo) →
  (∀ c, c ∈ todo → c ∈ pendingCalls (state w)) →
  let fleet := elevators (state w) in
  let w' := exec (forEach todo reassign_call) w in
  elevators (state w') = fleet
  ∧ totalCallsProcessed (state w') = totalCallsProcessed (state w)
  ∧ timers w' = timers w
  ∧ callIdCounter w' = callIdCounter w
  ∧ pendingCalls (state w') =
      (λ c, if decide (c ∈ todo)
            then match findBestElevator fleet c with
                 | Some best => set_assignedElevator (id best) c
                 | None => c
                 end
            else c) <$> pendingCalls (state w).
Proof.
  revert w. induction todo as [|call todo IH]; intros w Hnd Htodo Hin; simpl.
  - split_and!; try done. symmetry. apply list_fmap_id.
  - rewrite exec_bind.
    destruct (reassign_call_effect call w) as (Hels & Htotal & Htm & Hctr & Hcalls).
    set (w1 := exec (reassign_call call) w) in *.
    apply NoDup_cons in Htodo as [Hcall Htodo].
    destruct (list_find_call_id (pendingCalls (state w)) call Hnd) as (idx & Hfind & Hidx);
      [apply Hin; left|].
    rewrite Hfind in Hcalls.
    assert (∀ c, c ∈ todo → c ≠ call) as Hne.
    { intros c Hc ->. apply Hcall. by apply list_elem_of_fmap_2. }
    assert (∀ c, c ∈ todo → call_id c ≠ call_id call) as Hne_id.
    { intros c Hc Heq. apply Hcall. rewrite <- Heq. by apply list_elem_of_fmap_2. }
    assert (call_id <$> pendingCalls (state w1) = call_id <$> pendingCalls (state w))
      as Hids.
    { rewrite Hcalls. destruct (findBestElevator _ call); [|done].
      rewrite list_fmap_insert. apply list_insert_id.
      rewrite list_lookup_fmap, Hidx. done. }
    destruct (IH w1) as (Hels' & Htotal' & Htm' & Hctr' & Hcalls').
    { by rewrite Hids. }
    { done. }
    { intros c Hc. rewrite Hcalls. destruct (findBestElevator _ call); [|by apply Hin; right].
      assert (c ∈ call :: todo) as Hc' by (by right).
      apply Hin, list_elem_of_lookup in Hc' as [j Hj].
      apply list_elem_of_lookup. exists j.
      rewrite list_lookup_insert_ne; [done|]. intros <-.
      rewrite Hidx in Hj. injection Hj as <-. by apply (Hne call). }
    rewrite Hels', Htotal', Htm', Hctr', Hcalls', Hels, Htotal, Htm, Hctr.
    split_and!; try done.
    rewrite Hcalls. apply list_eq. intros j. rewrite !list_lookup_fmap.
    destruct (findBestElevator (elevators (state w)) call) as [best|] eqn:Hbest.
    + destruct (decide (j = idx)) as [->|Hj].
      * rewrite list_lookup_insert_eq by by eapply lookup_lt_Some.
        rewrite Hidx. simpl. rewrite decide_False.
        2:{ intros Hc. by apply (Hne_id _ Hc). }
        rewrite decide_True by left. by rewrite Hbest.
      * rewrite list_lookup_insert_ne by done.
        destruct (pendingCalls (state w) !! j) as [c|] eqn:Hc; [|done]. simpl.
        assert (c ≠ call) as Hcne.
        { intros ->. apply Hj. eapply NoDup_lookup; [exact Hnd| |];
            rewrite list_lookup_fmap; [by rewrite Hc|by rewrite Hidx]. }
        f_equal. destruct (decide (c ∈ todo)).
        -- by rewrite decide_True by by right.
        -- rewrite decide_False; [done|]. by intros [?|?]%elem_of_cons.
    + destruct (pendingCalls (state w) !! j) as [c|] eqn:Hc; [|done]. simpl.
      f_equal. destruct (decide (c ∈ todo)).
      * by rewrite decide_True by by right.
      * destruct (decide (c ∈ call :: todo)) as [[->|?]%elem_of_cons|]; try done.
        by rewrite Hbest.
Qed.

Lemma NoDup_call_id_filter (P : FloorCall → Prop) `{∀ c, Decision (P c)} pcs :
  NoDup (call_id <$> pcs) → NoDup (call_id <$> filter P pcs).
Proof.
  intros Hnd. eapply sublist_NoDup; [exact Hnd|].
  apply fmap_sublist, sublist_filter.
Qed.

Lemma reassignUnassignedCalls_closed_form (w : World) :
  NoDup (call_id <$> pendingCalls (state w)) →
  let w' := exec reassignUnassignedCalls w in
  pendingCalls (state w') =
    reassigned (elevators (state w)) <$> pendingCalls (state w)
  ∧ elevators (state w') = elevators (state w)
  ∧ totalCallsProcessed (state w') = totalCallsProcessed (state w)
  ∧ timers w' = timers w.
Proof.
  intros Hnd. simpl. rewrite reassignUnassignedCalls_unfold, exec_bind.
  change (exec get_state w) with w. change (eval get_state w) with (state w).
  destruct (reassign_loop
              (filter (λ call, not_assigned call = true) (pendingCalls (state w))) w)
    as (Hels & Htotal & Htm & _ & Hcalls); [done| |..].
  - by apply NoDup_call_id_filter.
  - by intros c [_ ?]%list_elem_of_filter.
  - split_and!; try done. rewrite Hcalls.
    apply list_fmap_ext. intros i c Hc. unfold reassigned.
    destruct (not_assigned c) eqn:Hna.
    + rewrite decide_True; [done|].
      apply list_elem_of_filter. split; [done|by eapply list_elem_of_lookup_2].
    + rewrite decide_False; [done|].
      intros [Hc' _]%list_elem_of_filter. congruence.
Qed.

(** X13. With distinct call identifiers, a reassignment pass turns the
    queue into the same queue, call by call and in the same order, in
    which every call without an elevator has been given the best car of
    the fleet when there is one; calls that had an elevator are as they
    were. The fleet, the counter and the timers are untouched. *)
Theorem reassignUnassignedCalls_spec (w : World) :
  NoDup (call_id <$> pendingCalls (state w)) →
  let w' := exec reassignUnassignedCalls w in
  pendingCalls (state w') =
    reassigned (elevators (state w)) <$> pendingCalls (state w)
  ∧ elevators (state w') = elevators (state w)
  ∧ totalCallsProcessed (state w') = totalCallsProcessed (state w)
  ∧ timers w' = timers w.
Proof.
  intros Hnd. simpl. rewrite reassignUnassignedCalls_unfold, exec_bind.
  change (exec get_state w) with w. change (eval get_state w) with (state w).
  set (todo := filter (λ call, not_assigned call = true) (pendingCalls (state w))).
  assert (NoDup (call_id <$> todo)) as Htodo by by apply NoDup_call_id_filter.
  assert (∀ c, c ∈ todo → c ∈ pendingCalls (state w)) as Hsub
    by by intros c [_ ?]%list_elem_of_filter.
  destruct (reassign_loop todo w Hnd Htodo Hsub)
    as (Hels & Htotal & Htm & _ & Hcalls).
  split_and!; try done. rewrite Hcalls.
  apply list_fmap_ext. intros i c Hc. unfold reassigned.
  assert (c ∈ pendingCalls (state w)) as Hin by by eapply list_elem_of_lookup_2.
  destruct (not_assigned c) eqn:Hna.
  - rewrite decide_True; [done|]. by apply list_elem_of_filter.
  - rewrite decide_False; [done|].
    intros [Hc' _]%list_elem_of_filter. congruence.
Qed.

Lemma reassignUnassignedCalls_spec_witness :
  NoDup (call_id <$> pendingCalls (state call_world))
  ∧ assignedElevator <$>
      pendingCalls (state (exec reassignUnassignedCalls call_world))
    = [Some 1; Some 1].
Proof.
  assert (NoDup (call_id <$> pendingCalls (state call_world))) as Hnd.
  { apply (bool_decide_unpack _). vm_compute. exact I. }
  split; [exact Hnd|].
  destruct (reassignUnassignedCalls_spec call_world Hnd) as (Hcalls & _).
  rewrite Hcalls. vm_compute. reflexivity.
Defined.

(** X14. A call that could not be placed is retried by every
    reassignment pass: if a car is available when the pass runs (and call
    identifiers are distinct), every call of the queue has an elevator
    afterwards, the newly placed ones an available car of the fleet; if no
    car is available, the pass changes nothing at all. *)
Theorem reassignUnassignedCalls_retries (w : World) :
  let w' := exec reassignUnassignedCalls w in
  ((∀ car, car ∈ elevators (state w) → is_available car = false) → w' = w)
  ∧ (NoDup (call_id <$> pendingCalls (state w)) →
     (∃ car, car ∈ elevators (state w) ∧ is_available car = true) →
     length (pendingCalls (state w')) = length (pendingCalls (state w))
     ∧ ∀ i c c', pendingCalls (state w) !! i = Some c →
         pendingCalls (state w') !! i = Some c' →
         call_id c' = call_id c ∧ floor c' = floor c
         ∧ call_direction c' = call_direction c
         ∧ is_Some (assignedElevator c')
         ∧ (not_assigned c = false → c' = c)
         ∧ (not_assigned c = true →
              ∃ best, best ∈ elevators (state w) ∧ is_available best = true
                      ∧ assignedElevator c' = Some (id best))).
Proof.
  simpl. split.
  - intros Hbusy. rewrite reassignUnassignedCalls_unfold, exec_bind.
    change (exec get_state w) with w. change (eval get_state w) with (state w).
    apply forEach_unchanged. intros c _.
    apply reassign_call_no_car. by apply findBestElevator_none.
  - intros Hnd (car & Hcar & Hav).
    destruct (reassignUnassignedCalls_closed_form w Hnd) as [Hcalls _].
    rewrite Hcalls. split; [by rewrite length_fmap|].
    intros i c c' Hc. rewrite list_lookup_fmap, Hc. intros [= <-].
    unfold reassigned.
    destruct (findBestElevator_available _ c _ Hcar Hav) as [best Hbest].
    rewrite Hbest. destruct (findBestElevator_elem _ _ _ Hbest) as [Hin Havb].
    destruct (not_assigned c) eqn:Hna; simpl.
    + split_and!; try done. intros _. by exists best.
    + split_and!; try done. unfold not_assigned in Hna.
      by destruct (assignedElevator c).
Qed.

Lemma reassignUnassignedCalls_retries_witness :
  NoDup (call_id <$> pendingCalls (state call_world))
  ∧ (∃ car, car ∈ elevators (state call_world) ∧ is_available car = true)
  ∧ length (pendingCalls (state (exec reassignUnassignedCalls call_world)))
    = 2%nat.
Proof.
  assert (NoDup (call_id <$> pendingCalls (state call_world))) as Hnd.
  { apply (bool_decide_unpack _). vm_compute. exact I. }
  assert (∃ car, car ∈ elevators (state call_world) ∧ is_available car = true)
    as Hcar.
  { exists (car 1 1 IDLE ∅). split; [left|reflexivity]. }
  split; [exact Hnd|]. split; [exact Hcar|].
  destruct (reassignUnassignedCalls_retries call_world) as [_ Hsome].
  destruct (Hsome Hnd Hcar) as [Hlen _]. rewrite Hlen. reflexivity.
Defined.

(** ** The constructor *)

(** X15. Whatever the world before, the constructor leaves a fleet of
    [ELEVATOR_COUNT] cars numbered from 1 in fleet order, all at floor 1, at
    rest, without passengers and stamped with successive readings of the
    clock; no pending call, no processed call, the simulation stopped, and
    a log holding the single entry of the initialisation. Timers and the
    factory's counter are untouched. *)
Theorem constructor_spec (w : World) :
  let w' := exec constructor w in
  length (elevators (state w')) = ELEVATOR_COUNT
  ∧ (∀ i e, elevators (state w') !! i = Some e →
       id e = Z.of_nat i + 1
       ∧ currentFloor e = 1
       ∧ at_rest e
       ∧ is_available e = true
       ∧ passengers e = 0%nat
       ∧ lastActivity e = Date_now w (clock_reads w + i))
  ∧ pendingCalls (state w') = []
  ∧ totalCallsProcessed (state w') = 0
  ∧ isSimulationRunning (state w') = false
  ∧ systemStartTime (state w') = Date_now w (clock_reads w + ELEVATOR_COUNT)
  ∧ (∃ entry, logs (state w') = [entry]
       ∧ event_of entry = mkLogEvent SYSTEM MsgInitialized None None)
  ∧ timers w' = timers w
  ∧ callIdCounter w' = callIdCounter w.
Proof.
  destruct w as [[els pcs lgs sim start total] tms ctr clock cr rnd rr].
  unfold constructor, createInitialSystemState, createInitialElevators,
    ELEVATOR_COUNT.
  cbn [seq]. eff_run. split_and!; try done.
  - intros i e Hi.
    destruct i as [|[|[|[|i]]]]; simpl in Hi; try done;
      injection Hi as <-; (split_and!; [done..|simpl; f_equal; lia]).
  - f_equal. lia.
  - eexists. split; reflexivity.
Qed.

(** ** Dispatching a new call *)

Lemma push_log_last entry lgs : last (push_log entry lgs) = Some entry.
Proof. unfold push_log. apply last_snoc. Qed.

(** X16. [addFloorCall] assigns the call exactly when a car is available:
    the call is then queued with the identifier of an available car of the
    fleet, the one [findBestElevator] picks, and the newest log entry is
    the call event for that car and floor. When every car is moving or
    loading the call is queued as it came, and the newest log entry is the
    system event saying that no elevator is available. *)
Theorem addFloorCall_assigns (call : FloorCall) (w : World) :
  let w' := exec (addFloorCall call) w in
  ((∃ car, car ∈ elevators (state w) ∧ is_available car = true) →
     ∃ best entry,
       findBestElevator (elevators (state w)) call = Some best
       ∧ best ∈ elevators (state w)
       ∧ is_available best = true
       ∧ pendingCalls (state w') =
           pendingCalls (state w) ++ [set_assignedElevator (id best) call]
       ∧ last (logs (state w')) = Some entry
       ∧ event_of entry =
           mkLogEvent CALL
             (MsgCallAssigned (floor call) (call_direction call) (id best))
             (Some (id best)) (Some (floor call)))
  ∧ ((∀ car, car ∈ elevators (state w) → is_available car = false) →
     ∃ entry,
       pendingCalls (state w') = pendingCalls (state w) ++ [call]
       ∧ last (logs (state w')) = Some entry
       ∧ event_of entry =
           mkLogEvent SYSTEM
             (MsgNoAvailableElevator (floor call) (call_direction call))
             None None).
Proof.
  destruct w as [[els pcs lgs sim start total] tms ctr clock cr rnd rr].
  cbn [state elevators]. split.
  - intros (car & Hcar & Hav).
    destruct (findBestElevator_available els call car Hcar Hav) as [best Hbest].
    destruct (findBestElevator_elem _ _ _ Hbest) as [Hin Havb].
    unfold addFloorCall. eff_run. rewrite Hbest. eff_run.
    eexists best, _.
    split_and!; [done|done|done|done|apply push_log_last|done].
  - intros Hbusy. pose proof (findBestElevator_none els call Hbusy) as Hnone.
    unfold addFloorCall. eff_run. rewrite Hnone. eff_run.
    eexists. split_and!; [done| |]; [apply push_log_last|done].
Qed.

(** ** Simulation control *)

(** X17. [toggleSimulation] flips the running flag, so two toggles bring
    it back; each toggle logs the state it switched to, and neither
    touches the fleet, the queue, the counter of processed calls or the
    timers. *)
Theorem toggleSimulation_spec (w : World) :
  let w1 := exec toggleSimulation w in
  let w2 := exec toggleSimulation w1 in
  isSimulationRunning (state w1) = negb (isSimulationRunning (state w))
  ∧ isSimulationRunning (state w2) = isSimulationRunning (state w)
  ∧ (∃ entry, last (logs (state w1)) = Some entry
       ∧ event_of entry =
           mkLogEvent SYSTEM
             (MsgSimulation (negb (isSimulationRunning (state w)))) None None)
  ∧ (∃ entry, last (logs (state w2)) = Some entry
       ∧ event_of entry =
           mkLogEvent SYSTEM (MsgSimulation (isSimulationRunning (state w)))
             None None)
  ∧ elevators (state w2) = elevators (state w)
  ∧ pendingCalls (state w2) = pendingCalls (state w)
  ∧ totalCallsProcessed (state w2) = totalCallsProcessed (state w)
  ∧ systemStartTime (state w2) = systemStartTime (state w)
  ∧ timers w2 = timers w.
Proof.
  destruct w as [[els pcs lgs sim start total] tms ctr clock cr rnd rr].
  unfold toggleSimulation. eff_run. rewrite negb_involutive.
  split_and!; try done; eexists; (split; [apply push_log_last|done]).
Qed.

(** X18. [clearLogs] leaves a log of exactly one entry, the system event
    that records the clearing, whatever the log held before; the fleet,
    the queue, the running flag, the start time, the counter of processed
    calls, the timers and the factory's counter are preserved. *)
Theorem clearLogs_spec (w : World) :
  let w' := exec clearLogs w in
  (∃ entry, logs (state w') = [entry] ∧ event_of entry = clear_event)
  ∧ elevators (state w') = elevators (state w)
  ∧ pendingCalls (state w') = pendingCalls (state w)
  ∧ isSimulationRunning (state w') = isSimulationRunning (state w)
  ∧ systemStartTime (state w') = systemStartTime (state w)
  ∧ totalCallsProcessed (state w') = totalCallsProcessed (state w)
  ∧ timers w' = timers w
  ∧ callIdCounter w' = callIdCounter w.
Proof.
  destruct w as [[els pcs lgs sim start total] tms ctr clock cr rnd rr].
  unfold clearLogs. eff_run. split_and!; try done.
  eexists. split; reflexivity.
Qed.

(** ** The metrics *)

Lemma filter_complement_length {A} (P Q : A → Prop)
    `{∀ x, Decision (P x)} `{∀ x, Decision (Q x)} (l : list A) :
  (∀ x, x ∈ l → P x ↔ ¬ Q x) →
  (length (filter P l) + length (filter Q l) = length l)%nat.
Proof.
  induction l as [|a l IH]; intros HPQ; [done|].
  rewrite !filter_cons.
  assert (P a ↔ ¬ Q a) as Ha by (apply HPQ; left).
  assert (length (filter P l) + length (filter Q l) = length l)%nat as IH'.
  { apply IH. intros x Hx. apply HPQ. by right. }
  destruct (decide (P a)), (decide (Q a)); simpl; try lia; tauto.
Qed.

(** X19. [getSystemMetrics] reads the clock once and changes nothing
    else. The cars it reports as active are exactly the cars a tick passes
    over: active and available cars together make up the fleet. The cars
    it reports as idle are counted by direction, so neither count exceeds
    the size of the fleet; the uptime is the time read minus the start
    time, and the two counters are those of the state. *)
Theorem getSystemMetrics_spec (w : World) :
  let m := eval getSystemMetrics w in
  let w' := exec getSystemMetrics w in
  state w' = state w
  ∧ timers w' = timers w
  ∧ clock_reads w' = S (clock_reads w)
  ∧ uptime m = Date_now w (clock_reads w) - systemStartTime (state w)
  ∧ (activeElevators m
     + length (filter (λ e, is_available e = true) (elevators (state w)))
     = length (elevators (state w)))%nat
  ∧ (idleElevators m ≤ length (elevators (state w)))%nat
  ∧ metrics_pendingCalls m = length (pendingCalls (state w))
  ∧ metrics_totalCallsProcessed m = totalCallsProcessed (state w).
Proof.
  destruct w as [[els pcs lgs sim start total] tms ctr clock cr rnd rr].
  unfold getSystemMetrics. eff_run.
  cbn [uptime activeElevators idleElevators metrics_pendingCalls
       metrics_totalCallsProcessed].
  split_and!; try done.
  - apply filter_complement_length. intros e _. unfold is_available.
    destruct (isMoving e), (isLoading e); simpl; split; try done;
      by intros H; destruct H.
  - apply length_filter.
Qed.

Ltac uptime_arith := Z.to_euclidean_division_equations; lia.

(** X20. The text [formatUptime] shows stands for a duration that is at
    most the uptime and less than one step of the display below it: one
    second for the two forms that show seconds, one minute for the form
    that shows hours and minutes. Its fields are in the ranges of a clock,
    and an uptime of less than a minute is shown in seconds only. *)
Theorem formatUptime_spec (up : Z) :
  let text := formatUptime up in
  shown_ms text ≤ up < shown_ms text + resolution_ms text
  ∧ well_formed text
  ∧ (up < 60000 ↔ text = Seconds (up / 1000))
  ∧ (3600000 ≤ up ↔ ∃ h m, text = Hours_minutes h m).
Proof.
  unfold formatUptime. cbv zeta.
  destruct (Z.gtb_spec (up / 1000 / 60 / 60) 0) as [Hh|Hh];
    [|destruct (Z.gtb_spec (up / 1000 / 60) 0) as [Hm|Hm]];
    cbn [shown_ms resolution_ms well_formed].
  - assert (0 ≤ up / 1000 / 60) as Hpos by uptime_arith.
    rewrite Z.rem_mod_nonneg by lia.
    split_and!; try uptime_arith.
    + split; [|done]. intros ?. exfalso. uptime_arith.
    + split; [eauto|]. intros _. uptime_arith.
  - assert (0 ≤ up / 1000) as Hpos by uptime_arith.
    rewrite Z.rem_mod_nonneg by lia.
    split_and!; try uptime_arith.
    + split; [|done]. intros ?. exfalso. uptime_arith.
    + split; [|by intros (? & ? & ?)]. intros ?. exfalso. uptime_arith.
  - split_and!; try uptime_arith.
    + split; [done|]. intros _. uptime_arith.
    + split; [|by intros (? & ? & ?)]. intros ?. exfalso. uptime_arith.
Qed.

Example uptime_texts :
  formatUptime 59999 = Seconds 59
  ∧ formatUptime 60000 = Minutes_seconds 1 0
  ∧ formatUptime 3599999 = Minutes_seconds 59 59
  ∧ formatUptime 3725000 = Hours_minutes 1 2.
Proof. by vm_compute. Qed.

(** ** The life of a service *)

Lemma generatePassengerDestinations_reads cur maxDestinations w :
  more_random_reads w (exec (generatePassengerDestinations cur maxDestinations) w).
Proof.
  unfold exec, generatePassengerDestinations, bind. rewrite random_below_run.
  cbv beta iota zeta.
  match goal with
  | |- more_random_reads _ (fill_destinations ?n _ _ _).2 =>
      destruct (fill_destinations_reads n cur ∅ (after_random w)) as [k Hk]
  end.
  rewrite Hk. by eexists.
Qed.

(** A property of the world that does not depend on how many random values
    were read is kept by a computation that only reads random values. *)
Lemma preserves_random_reads {A} (P : World → Prop) (m : Eff A) :
  (∀ w, more_random_reads w (exec m w)) →
  (∀ w k, P w →
     P (mkWorld (state w) (timers w) (callIdCounter w)
          (Date_now w) (clock_reads w) (Math_random w) k)) →
  preserves P m.
Proof. intros Hm HP w Hw. destruct (Hm w) as [k ->]. by apply HP. Qed.

(** The call the factory makes at random, and what making it costs. *)
Lemma generateRandomCall_run w :
  ∃ call,
    generateRandomCall w =
      (call, mkWorld (state w) (timers w) (callIdCounter w + 1)
               (Date_now w) (S (S (clock_reads w)))
               (Math_random w) (S (S (random_reads w))))
    ∧ call_id call = (callIdCounter w + 1, Date_now w (clock_reads w))
    ∧ assignedElevator call = None.
Proof.
  unfold generateRandomCall, bind. rewrite random_below_run.
  eexists. split; [reflexivity|]. done.
Qed.

Lemma preserves_generateRandomCall (P : World → Prop) :
  (∀ w, P w →
     P (mkWorld (state w) (timers w) (callIdCounter w + 1)
          (Date_now w) (S (S (clock_reads w)))
          (Math_random w) (S (S (random_reads w))))) →
  preserves P generateRandomCall.
Proof.
  intros HP w Hw. destruct (generateRandomCall_run w) as (call & Hrun & _).
  unfold exec. rewrite Hrun. by apply HP.
Qed.

Lemma preserves_next_callId (P : World → Prop) :
  (∀ w, P w →
     P (mkWorld (state w) (timers w) (callIdCounter w + 1)
          (Date_now w) (clock_reads w) (Math_random w) (random_reads w))) →
  preserves P next_callId.
Proof. intros HP w Hw. by apply HP. Qed.

(** A timer that fires keeps what its callback keeps, if the property does
    not depend on the pending timers. *)
Lemma preserves_fire (P : World → Prop) n :
  (∀ w tms, P w →
     P (mkWorld (state w) tms (callIdCounter w)
          (Date_now w) (clock_reads w) (Math_random w) (random_reads w))) →
  (∀ callback, preserves P (run_callback callback)) →
  preserves P (fire n).
Proof.
  intros HP Hcb w Hw. unfold exec, fire.
  destruct (timers w !! n) as [[callback ms]|]; [|done].
  apply (Hcb callback). by apply HP.
Qed.

Lemma preserves_happen (P : World → Prop) ev :
  (∀ fl d, preserves P (handleFloorCall fl d)) →
  preserves P ElevatorControlService.generateRandomCall →
  preserves P processElevatorLogic →
  (∀ n, preserves P (fire n)) →
  preserves P toggleSimulation →
  preserves P clearLogs →
  preserves P getSystemMetrics →
  preserves P (happen ev).
Proof.
  intros Hcall Hrandom Htick Hfire Htoggle Hclear Hmetrics.
  destruct ev; simpl; try done;
    (apply preserves_bind; [done|]; intros _; apply preserves_ret).
Qed.

(** What the constructor establishes and every event keeps holds all life
    long. *)
Lemma lifetime_invariant (P : World → Prop) evs w :
  P (exec constructor w) →
  (∀ ev, preserves P (happen ev)) →
  P (exec (lifetime evs) w).
Proof.
  intros H0 Hev. unfold lifetime. rewrite exec_bind.
  apply preserves_forEach; [|done]. intros ev _. apply Hev.
Qed.

(** Properties of the world outside the state of the service. *)
Ltac world_known P_reads P_call P_counter :=
  first
    [ apply preserves_random_reads;
        [ intros ?; apply generatePassengerDestinations_reads | P_reads ]
    | apply preserves_generateRandomCall; P_call
    | apply preserves_next_callId; P_counter ].

Ltac preserves_world known finish :=
  preserves_structure (λ _ : ElevatorSystemState, False) known;
  unfold getSystemMetrics, counter_is, clock_started, random_in_unit_interval,
    queue_is, scene_is;
  preserves_step_run; finish.

(** *** The oracle of random numbers *)

Lemma random_in_unit_interval_kept ev :
  preserves random_in_unit_interval (happen ev).
Proof.
  apply preserves_happen; intros;
    try (apply preserves_fire; [by intros [] ? ?|intros]);
    preserves_world
      ltac:(world_known ltac:(by intros [] ? ?) ltac:(by intros [] ?)
              ltac:(by intros [] ?))
      ltac:(assumption).
Qed.

(** *** The fleet, the counter and the clock *)

Lemma numbered_update l i (f : Elevator → Elevator) :
  (∀ e, id (f e) = id e) →
  preserves (λ w, numbered l (state w)) (update_elevator i f).
Proof.
  intros Hf. unfold numbered. preserves_step_run.
  rewrite <- Hw. clear Hw. revert i.
  induction els as [|e els IH]; intros [|i]; simpl; try done.
  - by rewrite Hf.
  - f_equal. apply IH.
Qed.

Lemma numbered_addLog l type message elevatorId fl :
  preserves (λ w, numbered l (state w)) (addLog type message elevatorId fl).
Proof. unfold numbered. by preserves_step_run. Qed.

Lemma numbered_kept l ev : preserves (λ w, numbered l (state w)) (happen ev).
Proof.
  apply preserves_happen; intros;
    try (apply preserves_fire; [by intros [] ? ?|intros]);
    preserves_by_steps (numbered l)
      ltac:(first [ apply numbered_addLog
                  | apply numbered_update; by intros [] ])
      ltac:(assumption).
Qed.

Lemma processed_so_far_kept ev :
  preserves (λ w, processed_so_far (state w)) (happen ev).
Proof.
  apply preserves_happen; intros;
    try (apply preserves_fire; [by intros [] ? ?|intros]);
    preserves_by_steps processed_so_far ltac:(fail)
      ltac:(first [ assumption | lia ]).
Qed.

Ltac clock_started_finish :=
  idtac;
  match goal with
  | H : _ ∧ _ ∧ _ |- _ =>
      destruct H as (? & ? & ?); split_and!; [assumption|lia|assumption]
  end.

Lemma clock_started_kept D j ev : preserves (clock_started D j) (happen ev).
Proof.
  apply preserves_happen; intros;
    try (apply preserves_fire; [by intros [] ? ?|intros]);
    preserves_world
      ltac:(world_known ltac:(by intros [] ? ?)
              ltac:(intros [] ?; unfold clock_started in *; simpl in *;
                    clock_started_finish)
              ltac:(by intros [] ?))
      ltac:(clock_started_finish).
Qed.

(** X21. All life long the fleet is the one the constructor made,
    [ELEVATOR_COUNT] cars numbered from 1 in fleet order: no event adds,
    removes or renumbers a car. The counter of processed calls is never
    negative; and if the clock never runs backwards, the uptime reported
    by [getSystemMetrics] is never negative. *)
Theorem fleet_counter_and_uptime (w : World) (evs : list Event) :
  let w' := exec (lifetime evs) w in
  id <$> elevators (state w') = [1; 2; 3; 4]
  ∧ length (elevators (state w')) = ELEVATOR_COUNT
  ∧ 0 ≤ totalCallsProcessed (state w')
  ∧ (monotone_clock w → 0 ≤ uptime (eval getSystemMetrics w')).
Proof.
  assert (numbered [1; 2; 3; 4] (state (exec (lifetime evs) w))) as Hfleet.
  { apply (lifetime_invariant (λ w, numbered [1; 2; 3; 4] (state w))).
    - destruct w as [[els pcs lgs sim start total] tms ctr clock cr rnd rr].
      unfold numbered, constructor, createInitialSystemState,
        createInitialElevators, ELEVATOR_COUNT.
      cbn [seq]. by eff_run.
    - apply numbered_kept. }
  assert (processed_so_far (state (exec (lifetime evs) w))) as Htotal.
  { apply (lifetime_invariant (λ w, processed_so_far (state w))).
    - destruct w as [[els pcs lgs sim start total] tms ctr clock cr rnd rr].
      unfold processed_so_far, constructor, createInitialSystemState,
        createInitialElevators, ELEVATOR_COUNT.
      cbn [seq]. by eff_run.
    - apply processed_so_far_kept. }
  assert (clock_started (Date_now w) (clock_reads w + ELEVATOR_COUNT)
            (exec (lifetime evs) w)) as (Hclock & Hreads & Hstart).
  { apply lifetime_invariant; [|apply clock_started_kept].
    destruct w as [[els pcs lgs sim start total] tms ctr clock cr rnd rr].
    unfold clock_started, constructor, createInitialSystemState,
      createInitialElevators, ELEVATOR_COUNT.
    cbn [seq]. eff_run. split_and!; [done|lia|f_equal; lia]. }
  simpl. split_and!; try done.
  - unfold numbered in Hfleet.
    by rewrite <- (length_fmap id), Hfleet.
  - intros Hmono. unfold eval, getSystemMetrics, bind, now, get_state, ret.
    cbn [fst uptime state]. rewrite Hstart, Hclock.
    specialize (Hmono _ _ Hreads). lia.
Qed.

(** *** What the parts of a tick and the callbacks leave alone *)

Lemma counter_is_kept c :
  (∀ i, preserves (counter_is c) (handleElevatorAtFloor i))
  ∧ (∀ i, preserves (counter_is c) (moveElevatorToNextDestination i))
  ∧ preserves (counter_is c) reassignUnassignedCalls
  ∧ (∀ callback, preserves (counter_is c) (run_callback callback))
  ∧ preserves (counter_is c) toggleSimulation
  ∧ preserves (counter_is c) clearLogs
  ∧ preserves (counter_is c) getSystemMetrics.
Proof.
  split_and!; intros;
    preserves_world
      ltac:(world_known ltac:(by intros [] ? ?) ltac:(fail) ltac:(fail))
      ltac:(assumption).
Qed.

Lemma callIdCounter_kept {A} (m : Eff A) w :
  (∀ c, preserves (counter_is c) m) →
  callIdCounter (exec m w) = callIdCounter w.
Proof. intros Hm. by apply (Hm (callIdCounter w) w). Qed.

(** The floor [getNextDestination] gives is a floor the car has to
    visit. *)
Lemma getNextDestination_is_destination car calls t :
  getNextDestination car calls = Some t → is_destination car calls t.
Proof.
  destruct (sorted_destinations car calls) as (Hs & Hl & Hsize).
  unfold getNextDestination.
  set (D := destinationFloors car ∪ _) in *.
  set (l := array_sort _ (elements D)) in *. clearbody l.
  assert (∀ r, array_reduce (closer (currentFloor car)) l = Some r → r ∈ l)
    as Hnear.
  { intros r. destruct l as [|a l']; [done|]. simpl. intros [= <-].
    apply (foldl_closer (currentFloor car) a l' Hs). }
  intros Hres. apply Hl. case_decide; [done|].
  repeat case_decide; try (by apply Hnear); try congruence;
    first [ by apply (head_filter_sorted _ _ _ Hs) in Hres as [? _]
          | by apply (last_filter_sorted _ _ _ Hs) in Hres as [? _] ].
Qed.

(** What the two callbacks do, for any elevator reference. *)
Lemma move_done_effect i t w :
  let w' := exec (move_done i t) w in
  elevators (state w') =
    (if isMoving (elevators (state w) !!! i)
     then alter (λ e, set_isMoving false (set_currentFloor t e)) i
            (elevators (state w))
     else elevators (state w))
  ∧ pendingCalls (state w') = pendingCalls (state w)
  ∧ totalCallsProcessed (state w') = totalCallsProcessed (state w)
  ∧ timers w' = timers w.
Proof.
  destruct w as [[els pcs lgs sim start total] tms ctr clock cr rnd rr].
  unfold move_done. eff_run.
  destruct (isMoving (els !!! i)); eff_run; [|done].
  by rewrite list_alter_alter_eq.
Qed.

Lemma loading_done_effect i fl w :
  random_in_unit_interval w →
  let w' := exec (loading_done i fl) w in
  (∃ D : gset Z,
     (∀ x, x ∈ D → in_building x)
     ∧ elevators (state w') =
         (if isLoading (elevators (state w) !!! i)
          then alter (λ e, set_isLoading false
                             (set_passengers (size (destinationFloors e ∪ D))
                                (set_destinationFloors (destinationFloors e ∪ D) e)))
                 i (elevators (state w))
          else elevators (state w)))
  ∧ pendingCalls (state w') = pendingCalls (state w)
  ∧ totalCallsProcessed (state w') = totalCallsProcessed (state w)
  ∧ timers w' = timers w.
Proof.
  intros Hr.
  destruct (generatePassengerDestinations_run fl 3 w ltac:(lia) Hr)
    as (D & k & Hrun & Hrange & _).
  destruct w as [[els pcs lgs sim start total] tms ctr clock cr rnd rr].
  cbn [state timers callIdCounter Date_now clock_reads Math_random] in Hrun.
  unfold loading_done. eff_run.
  destruct (isLoading (els !!! i)); eff_run.
  - rewrite !(bind_run _ _ _ _ _ Hrun). eff_run.
    split_and!; try done. exists D. split; [by intros x [? _]%Hrange|].
    rewrite !list_alter_alter_eq. apply list_alter_ext; [|done].
    by intros [] _.
  - split_and!; try done. exists ∅. split; [by intros ? ?%not_elem_of_empty|done].
Qed.

Lemma elem_of_alter_inv {A} (f : A → A) i (l : list A) x :
  x ∈ alter f i l → x ∈ l ∨ ∃ y, y ∈ l ∧ x = f y.
Proof.
  revert i. induction l as [|a l IH]; intros [|i]; simpl; try by left.
  - intros [->|?]%elem_of_cons; [right; exists a; split; [left|done]|].
    left. by right.
  - intros [->|[?|(y & ? & ->)]%IH]%elem_of_cons.
    + left. left.
    + left. by right.
    + right. exists y. split; [by right|done].
Qed.

(** *** Every call is pending or processed *)

Lemma queue_is_kept queue processed counter :
  (∀ callback, preserves (queue_is queue processed counter) (run_callback callback))
  ∧ preserves (queue_is queue processed counter) toggleSimulation
  ∧ preserves (queue_is queue processed counter) clearLogs
  ∧ preserves (queue_is queue processed counter) getSystemMetrics.
Proof.
  split_and!; intros;
    preserves_world
      ltac:(world_known ltac:(by intros [] ? ?) ltac:(fail) ltac:(fail))
      ltac:(assumption).
Qed.

Lemma calls_accounted_frame c0 w w' :
  pendingCalls (state w') = pendingCalls (state w) →
  totalCallsProcessed (state w') = totalCallsProcessed (state w) →
  callIdCounter w' = callIdCounter w →
  calls_accounted c0 w → calls_accounted c0 w'.
Proof. unfold calls_accounted. by intros -> -> ->. Qed.

Lemma calls_accounted_queue_kept c0 {A} (m : Eff A) :
  (∀ pcs total ctr, preserves (queue_is pcs total ctr) m) →
  preserves (calls_accounted c0) m.
Proof.
  intros Hm w Hw.
  destruct (Hm _ _ _ w (conj eq_refl (conj eq_refl eq_refl))) as (H1 & H2 & H3).
  by apply (calls_accounted_frame c0 w).
Qed.

(** A call fresh from the factory joins the queue. *)
Lemma calls_accounted_new c0 w w' queued :
  pendingCalls (state w') = pendingCalls (state w) ++ [queued] →
  totalCallsProcessed (state w') = totalCallsProcessed (state w) →
  callIdCounter w' = callIdCounter w + 1 →
  (call_id queued).1 = callIdCounter w + 1 →
  calls_accounted c0 w → calls_accounted c0 w'.
Proof.
  unfold calls_accounted.
  intros -> -> -> Hid (Hnd & Hissued & Htotal & Hsum). split_and!.
  - rewrite fmap_app. apply NoDup_app. split_and!; [done| |apply NoDup_singleton].
    intros x (c & -> & Hc)%list_elem_of_fmap Hx%list_elem_of_singleton.
    destruct (Hissued c Hc) as [_ Hle]. rewrite Hx, Hid in Hle. lia.
  - intros c [Hc| ->%list_elem_of_singleton]%elem_of_app.
    + destruct (Hissued c Hc). lia.
    + rewrite Hid. lia.
  - done.
  - rewrite length_app. simpl. lia.
Qed.

(** A call of the queue is picked up. *)
Lemma calls_accounted_pickup c0 w w' call :
  call ∈ pendingCalls (state w) →
  pendingCalls (state w') =
    filter (λ c, call_id c ≠ call_id call) (pendingCalls (state w)) →
  totalCallsProcessed (state w') = totalCallsProcessed (state w) + 1 →
  callIdCounter w' = callIdCounter w →
  calls_accounted c0 w → calls_accounted c0 w'.
Proof.
  unfold calls_accounted.
  intros (l1 & l2 & Heq)%list_elem_of_split -> -> -> (Hnd & Hissued & Htotal & Hsum).
  rewrite Heq in *. rewrite filter_call_id by done. split_and!.
  - eapply sublist_NoDup; [exact Hnd|]. apply fmap_sublist.
    apply sublist_app; [done|]. by apply sublist_cons.
  - intros c Hc. apply Hissued.
    apply elem_of_app in Hc as [?|?]; apply elem_of_app; [by left|].
    right. by right.
  - lia.
  - rewrite !length_app in *. simpl in *. lia.
Qed.

Lemma call_id_reassigned fleet c : call_id (reassigned fleet c) = call_id c.
Proof.
  unfold reassigned. destruct (not_assigned c); [|done].
  by destruct (findBestElevator fleet c).
Qed.

Lemma calls_accounted_reassign c0 :
  preserves (calls_accounted c0) reassignUnassignedCalls.
Proof.
  intros w (Hnd & Hissued & Htotal & Hsum).
  destruct (reassignUnassignedCalls_closed_form w Hnd) as (Hcalls & _ & Htotal' & _).
  pose proof (callIdCounter_kept reassignUnassignedCalls w
                (λ c, proj1 (proj2 (proj2 (counter_is_kept c))))) as Hctr.
  simpl in *. unfold calls_accounted. rewrite Hcalls, Htotal', Hctr.
  assert (call_id <$> (reassigned (elevators (state w)) <$> pendingCalls (state w))
          = call_id <$> pendingCalls (state w)) as Hids.
  { rewrite <- list_fmap_compose. apply list_fmap_ext.
    intros ? c _. apply call_id_reassigned. }
  split_and!.
  - by rewrite Hids.
  - intros c' (c & -> & Hc)%list_elem_of_fmap. rewrite call_id_reassigned.
    by apply Hissued.
  - done.
  - by rewrite length_fmap.
Qed.

Lemma calls_accounted_handleElevatorAtFloor c0 n i :
  (i < n)%nat →
  preserves (λ w, calls_accounted c0 w ∧ length (elevators (state w)) = n)
    (handleElevatorAtFloor i).
Proof.
  intros Hi w [Hacc Hlen].
  destruct (lookup_lt_is_Some_2 (elevators (state w)) i) as [e He]; [lia|].
  destruct (handleElevatorAtFloor_effect i w e He)
    as ((e' & Hels & _) & Hcalls & Htotal & _).
  pose proof (callIdCounter_kept (handleElevatorAtFloor i) w
                (λ c, proj1 (counter_is_kept c) i)) as Hctr.
  simpl in *. split.
  - destruct (shouldElevatorStop e (currentFloor e) (pendingCalls (state w)));
      [destruct (find _ (pendingCalls (state w))) as [call|] eqn:Hfind|].
    + apply (calls_accounted_pickup c0 w _ call); try done.
      apply find_split in Hfind as (l1 & l2 & -> & _).
      apply elem_of_app. right. left.
    + apply (calls_accounted_frame c0 w); [done|lia|done|done].
    + apply (calls_accounted_frame c0 w); [done|lia|done|done].
  - unfold elevator_becomes in Hels. by rewrite Hels, length_insert.
Qed.

Lemma calls_accounted_moveElevatorToNextDestination c0 n i :
  (i < n)%nat →
  preserves (λ w, calls_accounted c0 w ∧ length (elevators (state w)) = n)
    (moveElevatorToNextDestination i).
Proof.
  intros Hi w [Hacc Hlen].
  destruct (lookup_lt_is_Some_2 (elevators (state w)) i) as [e He]; [lia|].
  destruct (moveElevatorToNextDestination_effect i w e He)
    as ((e' & Hels & _) & Hcalls & Htotal & _).
  pose proof (callIdCounter_kept (moveElevatorToNextDestination i) w
                (λ c, proj1 (proj2 (counter_is_kept c)) i)) as Hctr.
  split.
  - by apply (calls_accounted_frame c0 w).
  - unfold elevator_becomes in Hels. by rewrite Hels, length_insert.
Qed.

(** A tick works on the cars of the fleet, one after the other, and then
    on the queue. *)
Lemma preserves_process_elevator (P : World → Prop) i :
  preserves P (handleElevatorAtFloor i) →
  preserves P (moveElevatorToNextDestination i) →
  preserves P (process_elevator i).
Proof.
  intros Hh Hm. unfold process_elevator.
  apply preserves_bind; [by intros ? ?|]. intros e.
  destruct (_ || _); [apply preserves_ret|].
  apply preserves_bind; [done|]. by intros _.
Qed.

Lemma preserves_processElevatorLogic (P : World → Prop) :
  (∀ n i, (i < n)%nat →
     preserves (λ w, P w ∧ length (elevators (state w)) = n)
       (handleElevatorAtFloor i)) →
  (∀ n i, (i < n)%nat →
     preserves (λ w, P w ∧ length (elevators (state w)) = n)
       (moveElevatorToNextDestination i)) →
  preserves P reassignUnassignedCalls →
  preserves P processElevatorLogic.
Proof.
  intros Hh Hm Hr w Hw. unfold processElevatorLogic. rewrite exec_bind.
  change (exec get_state w) with w. change (eval get_state w) with (state w).
  rewrite exec_bind. apply Hr.
  set (n := length (elevators (state w))).
  assert (preserves (λ w, P w ∧ length (elevators (state w)) = n)
            (forEach (seq 0 n) process_elevator)) as Hloop.
  { apply preserves_forEach. intros i [_ Hi]%elem_of_seq.
    apply preserves_process_elevator; [apply Hh|apply Hm]; lia. }
  by destruct (Hloop w) as [? _].
Qed.

Lemma calls_accounted_handleFloorCall c0 fl d :
  preserves (calls_accounted c0) (handleFloorCall fl d).
Proof.
  intros w Hw. destruct (decide (legal_request fl d)) as [Hlegal|Hill].
  - unfold exec, handleFloorCall, bind.
    rewrite (createFloorCall_legal _ _ _ Hlegal).
    set (call := mkFloorCall _ _ _ _ _). set (w1 := mkWorld _ _ _ _ _ _ _).
    destruct (addFloorCall_effect call w1) as (_ & Hcalls & Htotal & _ & _ & Hctr & _).
    unfold exec in *. destruct (addFloorCall call w1) as [[] w2]. simpl in *.
    eapply (calls_accounted_new c0 w w2); [exact Hcalls|done|done| |done].
    by destruct (findBestElevator _ _).
  - destruct (createFloorCall_illegal fl d w Hill) as [err Herr].
    unfold exec, handleFloorCall, bind. by rewrite Herr.
Qed.

Lemma calls_accounted_generateRandomCall c0 :
  preserves (calls_accounted c0) ElevatorControlService.generateRandomCall.
Proof.
  intros w Hw. destruct (generateRandomCall_run w) as (call & Hrun & Hid & _).
  unfold exec, ElevatorControlService.generateRandomCall, bind. rewrite Hrun.
  set (w1 := mkWorld _ _ _ _ _ _ _).
  destruct (addFloorCall_effect call w1) as (_ & Hcalls & Htotal & _ & _ & Hctr & _).
  unfold exec in *. destruct (addFloorCall call w1) as [[] w2]. simpl in *.
  eapply (calls_accounted_new c0 w w2); [exact Hcalls|done|done| |done].
  destruct (findBestElevator _ _); simpl; by rewrite Hid.
Qed.

Lemma calls_accounted_kept c0 ev : preserves (calls_accounted c0) (happen ev).
Proof.
  apply preserves_happen.
  - apply calls_accounted_handleFloorCall.
  - apply calls_accounted_generateRandomCall.
  - apply preserves_processElevatorLogic.
    + apply calls_accounted_handleElevatorAtFloor.
    + apply calls_accounted_moveElevatorToNextDestination.
    + apply calls_accounted_reassign.
  - intros n. apply preserves_fire; [by intros [] ? ?|]. intros callback.
    apply calls_accounted_queue_kept. intros. apply queue_is_kept.
  - apply calls_accounted_queue_kept. intros. apply queue_is_kept.
  - apply calls_accounted_queue_kept. intros. apply queue_is_kept.
  - apply calls_accounted_queue_kept. intros. apply queue_is_kept.
Qed.

(** X22. All life long the pending calls have pairwise distinct
    identifiers, and every call the factory has issued since the service
    was constructed is either pending or counted as processed: the number
    of pending calls and the counter of processed calls add up to the
    number of calls issued. No call is lost, and none is counted twice. *)
Theorem every_call_is_pending_or_processed (w : World) (evs : list Event) :
  let w' := exec (lifetime evs) w in
  NoDup (call_id <$> pendingCalls (state w'))
  ∧ (∀ c, c ∈ pendingCalls (state w') →
       callIdCounter w < (call_id c).1 ≤ callIdCounter w')
  ∧ Z.of_nat (length (pendingCalls (state w'))) + totalCallsProcessed (state w')
    = callIdCounter w' - callIdCounter w.
Proof.
  assert (calls_accounted (callIdCounter w) (exec (lifetime evs) w))
    as (Hnd & Hissued & _ & Hsum); [|done].
  apply lifetime_invariant; [|apply calls_accounted_kept].
  destruct w as [[els pcs lgs sim start total] tms ctr clock cr rnd rr].
  unfold calls_accounted, constructor, createInitialSystemState,
    createInitialElevators, ELEVATOR_COUNT.
  cbn [seq]. eff_run. split_and!; [constructor|by intros ? ?%elem_of_nil|done|].
  simpl. lia.
Qed.

(** *** The cars stay in the building *)

Lemma scene_is_kept fleet queue pending :
  preserves (scene_is fleet queue pending) toggleSimulation
  ∧ preserves (scene_is fleet queue pending) clearLogs
  ∧ preserves (scene_is fleet queue pending) getSystemMetrics.
Proof.
  split_and!; preserves_world ltac:(fail) ltac:(assumption).
Qed.

Lemma floors_in_building_frame w w' :
  elevators (state w') = elevators (state w) →
  pendingCalls (state w') = pendingCalls (state w) →
  timers w' = timers w →
  floors_in_building w → floors_in_building w'.
Proof. unfold floors_in_building. by intros -> -> ->. Qed.

Lemma floors_in_building_scene_kept {A} (m : Eff A) :
  (∀ fleet queue pending, preserves (scene_is fleet queue pending) m) →
  preserves floors_in_building m.
Proof.
  intros Hm w Hw.
  destruct (Hm _ _ _ w (conj eq_refl (conj eq_refl eq_refl))) as (H1 & H2 & H3).
  by apply (floors_in_building_frame w).
Qed.

Lemma legal_request_in_building fl d : legal_request fl d → in_building fl.
Proof. by intros [? _]. Qed.

(** A legal call joins the queue. *)
Lemma floors_in_building_new w w' queued :
  elevators (state w') = elevators (state w) →
  pendingCalls (state w') = pendingCalls (state w) ++ [queued] →
  timers w' = timers w →
  legal_request (floor queued) (call_direction queued) →
  floors_in_building w → floors_in_building w'.
Proof.
  unfold floors_in_building. intros -> -> -> Hlegal (Hcars & Hcalls & Htimers).
  split_and!; [done| |done].
  intros c [?| ->%list_elem_of_singleton]%elem_of_app; auto.
Qed.

Lemma floors_in_building_handleFloorCall fl d :
  preserves floors_in_building (handleFloorCall fl d).
Proof.
  intros w Hw. destruct (decide (legal_request fl d)) as [Hlegal|Hill].
  - unfold exec, handleFloorCall, bind.
    rewrite (createFloorCall_legal _ _ _ Hlegal).
    set (call := mkFloorCall _ _ _ _ _). set (w1 := mkWorld _ _ _ _ _ _ _).
    destruct (addFloorCall_effect call w1) as (Hels & Hcalls & _ & _ & Htm & _).
    unfold exec in *. destruct (addFloorCall call w1) as [[] w2]. simpl in *.
    eapply (floors_in_building_new w w2); [done|exact Hcalls|done| |done].
    by destruct (findBestElevator _ _).
  - destruct (createFloorCall_illegal fl d w Hill) as [err Herr].
    unfold exec, handleFloorCall, bind. by rewrite Herr.
Qed.

Lemma floors_in_building_generateRandomCall w :
  random_in_unit_interval w → floors_in_building w →
  floors_in_building (exec ElevatorControlService.generateRandomCall w).
Proof.
  intros Hr Hw.
  destruct (generateRandomCall_effect w Hr)
    as (Hlegal & _ & _ & _ & _ & _ & Hstate & _ & Htimers).
  unfold ElevatorControlService.generateRandomCall. rewrite exec_bind.
  destruct (addFloorCall_effect (eval generateRandomCall w)
              (exec generateRandomCall w)) as (Hels & Hcalls & _ & _ & Htm & _).
  rewrite Hstate in Hels, Hcalls. rewrite Htimers in Htm.
  eapply (floors_in_building_new w); [exact Hels|exact Hcalls|exact Htm| |done].
  by destruct (findBestElevator _ _).
Qed.

Lemma elem_of_insert_inv {A} i (l : list A) x y :
  y ∈ <[i := x]> l → y = x ∨ y ∈ l.
Proof.
  rewrite list_insert_alter.
  intros [?|(? & _ & ->)]%elem_of_alter_inv; auto.
Qed.

Lemma floors_in_building_handleElevatorAtFloor n i :
  (i < n)%nat →
  preserves (λ w, floors_in_building w ∧ length (elevators (state w)) = n)
    (handleElevatorAtFloor i).
Proof.
  intros Hi w [(Hcars & Hcalls & Htimers) Hlen].
  destruct (lookup_lt_is_Some_2 (elevators (state w)) i) as [e He]; [lia|].
  destruct (handleElevatorAtFloor_effect i w e He)
    as ((e' & Hels & _ & Hcur & _ & _ & Hdest & _) & Hcalls' & _ & Htimers').
  destruct (Hcars e) as [He1 He2]; [by eapply list_elem_of_lookup_2|].
  unfold elevator_becomes in Hels. simpl in *. split.
  - unfold floors_in_building. rewrite Hels, Hcalls', Htimers'. split_and!.
    + intros x [->|?]%elem_of_insert_inv; [|by apply Hcars].
      rewrite Hcur, Hdest. split; [done|]. intros y Hy. apply He2.
      destruct (_ && _); [|done]. by apply elem_of_difference in Hy as [? _].
    + intros c Hc. apply Hcalls.
      destruct (shouldElevatorStop _ _ _); [|done].
      destruct (find _ _); [|done]. by apply list_elem_of_filter in Hc as [_ ?].
    + intros j t ms [?|Hin]%elem_of_app; [by eapply Htimers|].
      destruct (shouldElevatorStop _ _ _); [|by apply elem_of_nil in Hin].
      destruct (find _ _); [|by apply elem_of_nil in Hin].
      by apply list_elem_of_singleton in Hin.
  - by rewrite Hels, length_insert.
Qed.

Lemma floors_in_building_moveElevatorToNextDestination n i :
  (i < n)%nat →
  preserves (λ w, floors_in_building w ∧ length (elevators (state w)) = n)
    (moveElevatorToNextDestination i).
Proof.
  intros Hi w [(Hcars & Hcalls & Htimers) Hlen].
  destruct (lookup_lt_is_Some_2 (elevators (state w)) i) as [e He]; [lia|].
  destruct (moveElevatorToNextDestination_effect i w e He)
    as ((e' & Hels & _ & Hcur & _ & Hdest & _) & Hcalls' & _ & Htimers').
  destruct (Hcars e) as [He1 He2]; [by eapply list_elem_of_lookup_2|].
  unfold elevator_becomes in Hels. simpl in *. split.
  - unfold floors_in_building. rewrite Hels, Hcalls', Htimers'. split_and!.
    + intros x [->|?]%elem_of_insert_inv; [|by apply Hcars].
      by rewrite Hcur, Hdest.
    + done.
    + intros j t ms [?|Hin]%elem_of_app; [by eapply Htimers|].
      unfold departure in Hin.
      destruct (getNextDestination e _) as [t'|] eqn:Hnext;
        [|by apply elem_of_nil in Hin].
      destruct (_ || _); [by apply elem_of_nil in Hin|].
      apply list_elem_of_singleton in Hin. injection Hin as _ -> _.
      apply getNextDestination_is_destination in Hnext as [?|(c & Hc & _ & <-)].
      * by apply He2.
      * eapply legal_request_in_building. by apply Hcalls.
  - by rewrite Hels, length_insert.
Qed.

Lemma floors_in_building_reassign_call call :
  legal_request (floor call) (call_direction call) →
  preserves floors_in_building (reassign_call call).
Proof.
  intros Hlegal w (Hcars & Hcalls & Htimers).
  destruct (reassign_call_effect call w) as (Hels & _ & Htm & _ & Hcalls').
  simpl in *. unfold floors_in_building. rewrite Hels, Htm, Hcalls'.
  split_and!; [done| |done].
  destruct (findBestElevator _ _); [|done].
  destruct (list_find _ _) as [[idx ?]|]; [|done].
  intros c [->|?]%elem_of_insert_inv; [done|by apply Hcalls].
Qed.

Lemma floors_in_building_reassign :
  preserves floors_in_building reassignUnassignedCalls.
Proof.
  intros w Hw. rewrite reassignUnassignedCalls_unfold, exec_bind.
  change (exec get_state w) with w. change (eval get_state w) with (state w).
  apply preserves_forEach; [|done].
  intros call [_ Hcall]%list_elem_of_filter.
  apply floors_in_building_reassign_call. by apply Hw.
Qed.

Lemma floors_in_building_fire n w :
  random_in_unit_interval w → floors_in_building w →
  floors_in_building (exec (fire n) w).
Proof.
  intros Hr (Hcars & Hcalls & Htimers). unfold exec, fire.
  destruct (timers w !! n) as [[callback ms]|] eqn:Hn; [|done].
  set (w1 := mkWorld _ _ _ _ _ _ _).
  assert (∀ j t ms', (MoveDone j t, ms') ∈ timers w1 → in_building t) as Htimers1.
  { intros j t ms' Hin%list_elem_of_delete_inv. by eapply Htimers. }
  destruct callback as [i fl|i t]; simpl.
  - destruct (loading_done_effect i fl w1 Hr)
      as ((D & HD & Hels) & Hcalls' & _ & Htm').
    unfold exec in *. destruct (loading_done i fl w1) as [[] w2]. simpl in *.
    unfold floors_in_building. rewrite Hels, Hcalls', Htm'.
    split_and!; [|done|done].
    destruct (isLoading _); [|done].
    intros e [?|(e0 & He0 & ->)]%elem_of_alter_inv; [by apply Hcars|].
    destruct (Hcars e0 He0) as [? Hd]. simpl. split; [done|].
    intros x [?|?]%elem_of_union; auto.
  - destruct (move_done_effect i t w1) as (Hels & Hcalls' & _ & Htm').
    unfold exec in *. destruct (move_done i t w1) as [[] w2]. simpl in *.
    unfold floors_in_building. rewrite Hels, Hcalls', Htm'.
    split_and!; [|done|done].
    destruct (isMoving _); [|done].
    intros e [?|(e0 & He0 & ->)]%elem_of_alter_inv; [by apply Hcars|].
    destruct (Hcars e0 He0) as [? Hd]. simpl. split; [|done].
    eapply Htimers. by eapply list_elem_of_lookup_2.
Qed.

Lemma floors_in_building_kept ev :
  preserves (λ w, floors_in_building w ∧ random_in_unit_interval w) (happen ev).
Proof.
  intros w [Hw Hr]. split; [|by apply random_in_unit_interval_kept].
  destruct ev; simpl.
  - rewrite exec_bind. by apply floors_in_building_handleFloorCall.
  - by apply floors_in_building_generateRandomCall.
  - revert w Hw Hr. intros w Hw _. revert w Hw.
    apply preserves_processElevatorLogic.
    + apply floors_in_building_handleElevatorAtFloor.
    + apply floors_in_building_moveElevatorToNextDestination.
    + apply floors_in_building_reassign.
  - by apply floors_in_building_fire.
  - revert w Hw Hr. intros w Hw _. revert w Hw.
    apply floors_in_building_scene_kept. intros. apply scene_is_kept.
  - revert w Hw Hr. intros w Hw _. revert w Hw.
    apply floors_in_building_scene_kept. intros. apply scene_is_kept.
  - rewrite exec_bind. revert w Hw Hr. intros w Hw _. revert w Hw.
    apply floors_in_building_scene_kept. intros. apply scene_is_kept.
Qed.

(** X23. The cars never leave the building. If no timer is pending when
    the service is constructed and the random numbers lie in [0,1), then
    all life long every car stands at a floor between 1 and [FLOORS], all
    its destinations are such floors, every pending call is a request the
    factory accepts, and every move under way ends at such a floor. *)
Theorem cars_never_leave_the_building (w : World) (evs : list Event) :
  timers w = [] →
  random_in_unit_interval w →
  floors_in_building (exec (lifetime evs) w).
Proof.
  intros Htimers Hr.
  apply (lifetime_invariant
           (λ w, floors_in_building w ∧ random_in_unit_interval w));
    [|apply floors_in_building_kept].
  destruct w as [[els pcs lgs sim start total] tms ctr clock cr rnd rr].
  simpl in Htimers. subst tms. split.
  - unfold floors_in_building, constructor, createInitialSystemState,
      createInitialElevators, ELEVATOR_COUNT.
    cbn [seq]. eff_run. split_and!.
    + intros e He. unfold in_building, FLOORS.
      repeat (apply elem_of_cons in He as [->|He];
              [simpl; split; [lia|by intros ? ?%not_elem_of_empty]|]).
      by apply elem_of_nil in He.
    + by intros ? ?%elem_of_nil.
    + by intros ? ? ? ?%elem_of_nil.
  - unfold constructor, createInitialSystemState, createInitialElevators,
      ELEVATOR_COUNT.
    cbn [seq]. by eff_run.
Qed.

Lemma cars_never_leave_the_building_witness :
  timers (blank_world (1 # 2)) = []
  ∧ random_in_unit_interval (blank_world (1 # 2))
  ∧ floors_in_building
      (exec (lifetime [FloorButton 5 UP; Tick; Timeout 0; Tick; RandomCall])
         (blank_world (1 # 2))).
Proof.
  assert (timers (blank_world (1 # 2)) = []) as Htimers by reflexivity.
  assert (random_in_unit_interval (blank_world (1 # 2))) as Hr.
  { intros k. split; vm_compute; [discriminate|reflexivity]. }
  split; [exact Htimers|]. split; [exact Hr|].
  exact (cars_never_leave_the_building (blank_world (1 # 2)) _ Htimers Hr).
Defined.

Example a_short_life :
  let w' := exec (lifetime [FloorButton 5 UP; Tick; Timeout 0; Tick; RandomCall])
              (blank_world (1 # 2)) in
  (λ e, (id e, currentFloor e, isLoading e)) <$> elevators (state w')
    = [(1, 5, true); (2, 1, false); (3, 1, false); (4, 1, false)]
  ∧ (λ c, (floor c, call_direction c, assignedElevator c)) <$> pendingCalls (state w')
    = [(6, DOWN, Some 2)]
  ∧ totalCallsProcessed (state w') = 1
  ∧ callIdCounter w' = 2.
Proof. by vm_compute. Qed.

(** ** A tick, car by car *)

(** The work of a tick on one car does not reach another car. *)
Lemma elevator_is_other_car j e i :
  i ≠ j → preserves (λ w, elevator_is j e (state w)) (process_elevator i).
Proof.
  intros Hne.
  preserves_by_steps (elevator_is j e)
    ltac:(first [ apply elevator_is_addLog | by apply elevator_is_update ])
    ltac:(assumption).
Qed.

Lemma elevator_is_reassign j e :
  preserves (λ w, elevator_is j e (state w)) reassignUnassignedCalls.
Proof.
  preserves_by_steps (elevator_is j e) ltac:(apply elevator_is_addLog)
    ltac:(assumption).
Qed.

Lemma process_elevator_available i w e :
  elevators (state w) !! i = Some e → is_available e = true →
  exec (process_elevator i) w =
  exec (moveElevatorToNextDestination i) (exec (handleElevatorAtFloor i) w).
Proof.
  intros Hi Hav. unfold process_elevator. rewrite exec_bind.
  change (exec (read_elevator i) w) with w.
  change (eval (read_elevator i) w) with (elevators (state w) !!! i).
  rewrite (list_lookup_total_correct _ _ _ Hi).
  unfold is_available in Hav.
  destruct (isMoving e), (isLoading e); try done. simpl.
  by rewrite exec_bind.
Qed.

(** What a tick makes of a car is what [process_elevator] makes of it in
    the world [w1] the loop has reached by then, in which the car is still
    as the tick found it. *)
Lemma processElevatorLogic_car i w e :
  elevators (state w) !! i = Some e →
  ∃ w1, elevators (state w1) !! i = Some e
    ∧ ∀ e2, elevators (state (exec (process_elevator i) w1)) !! i = Some e2 →
            elevators (state (exec processElevatorLogic w)) !! i = Some e2.
Proof.
  intros Hi. pose proof (lookup_lt_Some _ _ _ Hi) as Hlt.
  unfold processElevatorLogic. rewrite exec_bind.
  change (exec get_state w) with w. change (eval get_state w) with (state w).
  replace (length (elevators (state w)))
    with (i + S (length (elevators (state w)) - S i))%nat by lia.
  rewrite seq_app. cbn [seq]. rewrite exec_bind, exec_forEach_app.
  set (w1 := exec (forEach (seq 0 i) process_elevator) w).
  exists w1. split.
  - apply (preserves_forEach (λ w, elevator_is i e (state w))); [|done].
    intros j [_ Hj]%elem_of_seq. apply elevator_is_other_car. lia.
  - intros e2 He2. cbn [forEach]. rewrite exec_bind.
    apply (elevator_is_reassign i e2).
    apply (preserves_forEach (λ w, elevator_is i e2 (state w))); [|done].
    intros j [Hj _]%elem_of_seq. apply elevator_is_other_car. lia.
Qed.

(** X24. A tick lets the passengers of a waiting car out: a car that is
    neither moving nor loading and stands at one of its destinations has
    lost that destination after the tick, whatever the tick does to the
    other cars, and it counts one passenger per destination left. It is
    still at the same floor. *)
Theorem tick_drops_off (i : nat) (w : World) (e : Elevator) :
  elevators (state w) !! i = Some e →
  is_available e = true →
  currentFloor e ∈ destinationFloors e →
  ∃ e', elevators (state (exec processElevatorLogic w)) !! i = Some e'
    ∧ id e' = id e
    ∧ currentFloor e' = currentFloor e
    ∧ destinationFloors e' = destinationFloors e ∖ {[currentFloor e]}
    ∧ passengers e' = size (destinationFloors e').
Proof.
  intros Hi Hav Hin.
  destruct (processElevatorLogic_car i w e Hi) as (w1 & Hi1 & Htick).
  pose proof (lookup_lt_Some _ _ _ Hi1) as Hlt.
  destruct (handleElevatorAtFloor_effect i w1 e Hi1)
    as ((e1 & Hels1 & Hid1 & Hcur1 & _ & _ & Hdest1 & Hpass1 & _) & _).
  rewrite shouldElevatorStop_destination in Hdest1, Hpass1 by done.
  rewrite bool_decide_eq_true_2 in Hdest1, Hpass1 by done.
  simpl in Hdest1, Hpass1. unfold elevator_becomes in Hels1.
  assert (elevators (state (exec (handleElevatorAtFloor i) w1)) !! i = Some e1)
    as Hi2 by (rewrite Hels1; by apply list_lookup_insert_eq).
  destruct (moveElevatorToNextDestination_effect i _ e1 Hi2)
    as ((e2 & Hels2 & Hid2 & Hcur2 & _ & Hdest2 & Hpass2 & _) & _).
  unfold elevator_becomes in Hels2.
  exists e2. split_and!.
  - apply Htick. rewrite (process_elevator_available i w1 e Hi1 Hav), Hels2.
    apply list_lookup_insert_eq. by rewrite Hels1, length_insert.
  - congruence.
  - congruence.
  - congruence.
  - congruence.
Qed.

Lemma tick_drops_off_witness :
  elevators (state dropoff_world) !! 0%nat = Some dropoff_car
  ∧ is_available dropoff_car = true
  ∧ currentFloor dropoff_car ∈ destinationFloors dropoff_car
  ∧ ∃ e', elevators (state (exec processElevatorLogic dropoff_world)) !! 0%nat
            = Some e'
          ∧ passengers e' = size (destinationFloors e').
Proof.
  assert (elevators (state dropoff_world) !! 0%nat = Some dropoff_car) as Hi
    by reflexivity.
  assert (is_available dropoff_car = true) as Hav by reflexivity.
  assert (currentFloor dropoff_car ∈ destinationFloors dropoff_car) as Hin
    by (apply (bool_decide_unpack _); vm_compute; exact I).
  split; [exact Hi|]. split; [exact Hav|]. split; [exact Hin|].
  destruct (tick_drops_off 0 dropoff_world dropoff_car Hi Hav Hin)
    as (e' & He' & _ & _ & _ & Hpass).
  exists e'. split; [exact He'|exact Hpass].
Defined.

(** ** Leaving while loading *)

Lemma getNextDestination_up car calls x :
  direction car = MOVING_UP →
  is_destination car calls x → currentFloor car < x →
  ∃ r, getNextDestination car calls = Some r ∧ next_above car calls r.
Proof.
  intros Hd Hx Hgt.
  destruct (sorted_destinations car calls) as (Hs & Hl & Hsize).
  unfold getNextDestination.
  set (D := destinationFloors car ∪ _) in *.
  set (l := array_sort _ (elements D)) in *.
  rewrite decide_False by (intros H0; exact (proj1 Hsize H0 x Hx)).
  rewrite Hd. simpl.
  assert (x ∈ filter (λ fl, currentFloor car < fl) l) as Hf
    by (apply list_elem_of_filter; split; [done|by apply Hl]).
  destruct (filter (λ fl, currentFloor car < fl) l) as [|r up] eqn:Hup;
    [by apply elem_of_nil in Hf|].
  rewrite decide_True by (simpl; lia). exists r. split; [done|].
  destruct (head_filter_sorted (λ fl, currentFloor car < fl) l r Hs)
    as (? & ? & Hmin); [by rewrite Hup|].
  split_and!; [by apply Hl|done|]. intros y Hy%Hl. by apply Hmin.
Qed.

(** X25. A car does not wait for its passengers. When a tick reaches a
    car on its way up that has a destination above and finds a call for it
    waiting at its floor, the car starts loading and, in the same pass,
    leaves for the next floor above: it ends the pass both loading and
    moving, with the two timers pending, the end of loading scheduled
    first. *)
Theorem process_elevator_departs_while_loading
    (i : nat) (w : World) (e : Elevator) (call : FloorCall) (d : Z) :
  elevators (state w) !! i = Some e →
  is_available e = true →
  direction e = MOVING_UP →
  1 ≤ currentFloor e →
  d ∈ destinationFloors e →
  currentFloor e < d →
  call ∈ pendingCalls (state w) →
  waits_for e call →
  call_direction call = UP →
  let w' := exec (process_elevator i) w in
  ∃ e' t,
    elevators (state w') = <[i := e']> (elevators (state w))
    ∧ isLoading e' = true
    ∧ isMoving e' = true
    ∧ direction e' = MOVING_UP
    ∧ currentFloor e' = currentFloor e
    ∧ currentFloor e < t ≤ d
    ∧ timers w' =
        timers w ++ [(LoadingDone i (currentFloor e), LOADING_DURATION_MS);
                     (MoveDone i t, MOVE_DURATION_MS)]
    ∧ totalCallsProcessed (state w') = totalCallsProcessed (state w) + 1.
Proof.
  intros Hi Hav Hdir Hcur Hd Hlt Hcall [Hfloor Hassigned] Hup. simpl.
  pose proof (lookup_lt_Some _ _ _ Hi) as Hlen.
  rewrite (process_elevator_available i w e Hi Hav).
  destruct (handleElevatorAtFloor_effect i w e Hi)
    as ((e1 & Hels1 & Hid1 & Hcur1 & Hmv1 & Hld1 & Hdest1 & _ & Hdir1)
        & Hcalls1 & Htotal1 & Htimers1).
  simpl in *. unfold elevator_becomes in Hels1.
  set (f := λ c : FloorCall,
         bool_decide (floor c = currentFloor e)
         && bool_decide (assignedElevator c = Some (id e))) in *.
  assert (shouldElevatorStop e (currentFloor e) (pendingCalls (state w)) = true)
    as Hstop.
  { unfold shouldElevatorStop. case_decide; [done|].
    apply existsb_exists. exists call. split; [by apply list_elem_of_In|].
    unfold isCallCompatibleWithDirection.
    rewrite (bool_decide_eq_true_2 (floor call = _)) by done.
    rewrite (bool_decide_eq_true_2 (assignedElevator call = _)) by done.
    rewrite (bool_decide_eq_true_2 (as_elevator_direction _ = _))
      by (by rewrite Hup, Hdir).
    by rewrite orb_true_r. }
  rewrite Hstop in *. simpl in *.
  destruct (find f (pendingCalls (state w))) as [picked|] eqn:Hfind.
  2:{ rewrite find_none_iff in Hfind. specialize (Hfind call Hcall).
      unfold f in Hfind. by rewrite !bool_decide_eq_true_2 in Hfind. }
  assert (d ∈ destinationFloors e1) as Hd1.
  { rewrite Hdest1. destruct (bool_decide _); [|done].
    apply elem_of_difference. split; [done|]. intros ?%elem_of_singleton. lia. }
  assert (direction e1 = MOVING_UP) as Hdir1'.
  { rewrite Hdir1. destruct (bool_decide (currentFloor e ∈ _)); [|done]. simpl.
    rewrite bool_decide_eq_false_2; [done|]. intros Hsize.
    apply size_empty_inv in Hsize. apply (not_elem_of_empty (C:=gset Z) d).
    apply Hsize.
    apply elem_of_difference. split; [done|]. intros ?%elem_of_singleton. lia. }
  set (w1 := exec (handleElevatorAtFloor i) w) in *.
  assert (elevators (state w1) !! i = Some e1) as Hi1
    by (rewrite Hels1; by apply list_lookup_insert_eq).
  destruct (getNextDestination_up e1 (pendingCalls (state w1)) d Hdir1')
    as (t & Hnext & Ht & Habove & Hmin); [by left|lia|].
  rewrite Hcur1 in Habove.
  assert (t ≤ d) as Htd by (apply Hmin; [by left|lia]).
  destruct (moveElevatorToNextDestination_effect i w1 e1 Hi1)
    as ((e2 & Hels2 & _ & Hcur2 & Hld2 & _ & _ & Hmv2 & Hdir2)
        & _ & Htotal2 & Htimers2).
  unfold elevator_becomes, departure in *. rewrite Hnext in *.
  assert ((t =? 0) || (t =? currentFloor e1) = false) as Hgo.
  { rewrite Hcur1. apply orb_false_iff. split; apply Z.eqb_neq; lia. }
  rewrite Hgo in *. rewrite Hcur1 in *.
  exists e2, t. split_and!.
  - by rewrite Hels2, Hels1, list_insert_insert_eq.
  - congruence.
  - done.
  - rewrite Hdir2. by destruct (Z.gtb_spec t (currentFloor e)); [|lia].
  - done.
  - lia.
  - done.
  - by rewrite Htimers2, Htimers1, <- app_assoc.
  - rewrite Htotal2, Htotal1. done.
Qed.

Lemma process_elevator_departs_while_loading_witness :
  elevators (state passing_world) !! 0%nat = Some passing_car
  ∧ is_available passing_car = true
  ∧ direction passing_car = MOVING_UP
  ∧ 1 ≤ currentFloor passing_car
  ∧ 5 ∈ destinationFloors passing_car
  ∧ currentFloor passing_car < 5
  ∧ call_at 1 3 UP (Some 1) ∈ pendingCalls (state passing_world)
  ∧ waits_for passing_car (call_at 1 3 UP (Some 1))
  ∧ ∃ e' t,
      elevators (state (exec (process_elevator 0) passing_world))
        = <[0%nat := e']> (elevators (state passing_world))
      ∧ isLoading e' = true ∧ isMoving e' = true ∧ 3 < t ≤ 5.
Proof.
  assert (elevators (state passing_world) !! 0%nat = Some passing_car) as Hi
    by reflexivity.
  assert (is_available passing_car = true) as Hav by reflexivity.
  assert (direction passing_car = MOVING_UP) as Hdir by reflexivity.
  assert (1 ≤ currentFloor passing_car) as Hcur by (vm_compute; discriminate).
  assert (5 ∈ destinationFloors passing_car) as Hd
    by (apply (bool_decide_unpack _); vm_compute; exact I).
  assert (currentFloor passing_car < 5) as Hlt by (vm_compute; reflexivity).
  assert (call_at 1 3 UP (Some 1) ∈ pendingCalls (state passing_world)) as Hcall
    by left.
  assert (waits_for passing_car (call_at 1 3 UP (Some 1))) as Hwaits
    by (split; reflexivity).
  split_and!; try assumption.
  destruct (process_elevator_departs_while_loading 0 passing_world passing_car
              (call_at 1 3 UP (Some 1)) 5 Hi Hav Hdir Hcur Hd Hlt Hcall Hwaits
              eq_refl)
    as (e' & t & He' & Hld & Hmv & _ & _ & [Ht1 Ht2] & _).
  exists e', t. split_and!; [exact He'|exact Hld|exact Hmv|exact Ht1|exact Ht2].
Defined.

Example car_is_loading_and_moving_after_a_tick :
  let w' := exec processElevatorLogic passing_world in
  (λ e, (isLoading e, isMoving e, currentFloor e)) <$> elevators (state w')
    = [(true, true, 3); (false, false, 1)]
  ∧ timers w' = [(LoadingDone 0 3, LOADING_DURATION_MS);
                 (MoveDone 0 5, MOVE_DURATION_MS)].
Proof. by vm_compute. Qed.

(** ** The earlier dispatch functions *)

Lemma foldl_closer_car call a l :
  let r := foldl (Legacy.closer_car call) a l in
  ∃ l1 l2, a :: l = l1 ++ r :: l2
    ∧ (∀ x, x ∈ l1 → distance_to call r < distance_to call x)
    ∧ (∀ x, x ∈ l2 → distance_to call r ≤ distance_to call x).
Proof.
  revert a. induction l as [|b l IH]; intros a; simpl.
  - exists [], []. split_and!; [done|by intros ? ?%elem_of_nil..].
  - assert (Legacy.closer_car call a b =
            if distance_to call b <? distance_to call a then b else a) as ->
      by reflexivity.
    destruct (Z.ltb_spec (distance_to call b) (distance_to call a)) as [Hlt|Hge].
    + destruct (IH b) as (l1 & l2 & Heq & Hl1 & Hl2).
      exists (a :: l1), l2. split_and!; [by rewrite Heq| |done].
      intros x [->|Hx]%elem_of_cons; [|by apply Hl1].
      destruct l1 as [|b' l1]; simpl in Heq; injection Heq as <- _; [done|].
      specialize (Hl1 b ltac:(left)). lia.
    + destruct (IH a) as (l1 & l2 & Heq & Hl1 & Hl2).
      set (r := foldl (Legacy.closer_car call) a l) in *. clearbody r.
      destruct l1 as [|a' l1]; simpl in Heq.
      * injection Heq as <- <-. exists [], (b :: l).
        split_and!; [done|by intros ? ?%elem_of_nil|].
        intros x [->|Hx]%elem_of_cons; [done|]. by apply Hl2.
      * injection Heq as <- ->. exists (a :: b :: l1), l2.
        split_and!; [done| |done].
        intros x [->|[->|Hx]%elem_of_cons]%elem_of_cons.
        -- apply Hl1. left.
        -- specialize (Hl1 a ltac:(left)). lia.
        -- apply Hl1. by right.
Qed.

Lemma array_reduce_closer_car call l best :
  array_reduce (Legacy.closer_car call) l = Some best →
  ∃ l1 l2, l = l1 ++ best :: l2
    ∧ (∀ x, x ∈ l1 → distance_to call best < distance_to call x)
    ∧ (∀ x, x ∈ l2 → distance_to call best ≤ distance_to call x).
Proof.
  destruct l as [|a l]; [done|]. simpl. intros [= <-]. apply foldl_closer_car.
Qed.

Lemma legacy_same_direction car call :
  (if decide (direction car = IDLE) then true
   else if decide (direction car = as_elevator_direction (call_direction call))
   then
     if decide (call_direction call = UP)
     then currentFloor car <=? floor call
     else currentFloor car >=? floor call
   else false) = true
  ↔ reaches_without_reversing car call.
Proof.
  unfold reaches_without_reversing.
  destruct (direction car), (call_direction call); simpl;
    rewrite ?Z.leb_le, ?Z.geb_le; split;
    first [ by left | by intros [?|[? _]] | by intros [?|[_ ?]]
          | by right | intros _; by left | idtac ].
Qed.

(** X26. The earlier [findBestElevator] returns nothing exactly when no
    car is available. Otherwise it returns a candidate (an available car,
    one that reaches the call without reversing if any available car does)
    that is nearest the call floor among the candidates, and the first
    such car in fleet order. Unlike the dispatcher of the class it never
    looks at the number of destinations of a car. *)
Theorem legacy_findBestElevator_spec (fleet : list Elevator) (call : FloorCall) :
  (Legacy.findBestElevator fleet call = None
     ↔ ∀ car, car ∈ fleet → is_available car = false)
  ∧ (∀ best, Legacy.findBestElevator fleet call = Some best →
       ∃ i, fleet !! i = Some best
         ∧ candidate fleet call best
         ∧ (∀ car, car ∈ fleet → candidate fleet call car →
              distance_to call best ≤ distance_to call car)
         ∧ (∀ j car, (j < i)%nat → fleet !! j = Some car →
              candidate fleet call car →
              distance_to call best < distance_to call car)).
Proof.
  unfold Legacy.findBestElevator.
  set (avail := filter (λ e, is_available e = true) fleet).
  set (same := filter _ avail).
  assert (∀ car, car ∈ same ↔
            car ∈ fleet ∧ is_available car = true
            ∧ reaches_without_reversing car call) as Hsame.
  { intros car. unfold same, avail.
    rewrite !list_elem_of_filter, legacy_same_direction. tauto. }
  assert (∀ car, car ∈ avail ↔ car ∈ fleet ∧ is_available car = true) as Havail.
  { intros car. unfold avail. rewrite list_elem_of_filter. tauto. }
  split.
  - case_decide as Hlen.
    + split; [intros _|done]. apply nil_length_inv in Hlen.
      intros car Hin. destruct (is_available car) eqn:Hav; [|done].
      assert (car ∈ avail) as Hf by by apply Havail.
      rewrite Hlen in Hf. by apply elem_of_nil in Hf.
    + split.
      * intros Hnone. exfalso. case_decide as Hs.
        -- destruct same; [simpl in Hs; lia|done].
        -- destruct avail; [done|done].
      * intros Hall. exfalso. apply Hlen.
        destruct avail as [|car l] eqn:Hf; [done|].
        assert (car ∈ car :: l) as Hin by left.
        apply Havail in Hin as [Hin Hav]. by rewrite (Hall _ Hin) in Hav.
  - intros best. case_decide as Hlen; [done|]. case_decide as Hs.
    + intros (l1 & l2 & Heq & Hl1 & Hl2)%array_reduce_closer_car.
      assert (∃ c, c ∈ fleet ∧ is_available c = true
                   ∧ reaches_without_reversing c call) as Hex.
      { exists best. apply Hsame. rewrite Heq. apply elem_of_app. right. left. }
      pose proof Heq as Heq'. unfold same in Heq'.
      apply filter_split in Heq' as (m1 & m2 & Hm & Hm1 & Hm2 & Hbest).
      apply legacy_same_direction in Hbest.
      pose proof Hm as Hm'. unfold avail in Hm'.
      apply filter_split in Hm' as (k1 & k2 & Hk & Hk1 & Hk2 & Hav).
      exists (length k1). split_and!.
      * rewrite Hk. by apply list_lookup_middle.
      * by split.
      * intros car Hin [Hcar Hreach].
        assert (car ∈ same) as Hc by (apply Hsame; auto).
        rewrite Heq in Hc.
        apply elem_of_app in Hc as [Hc|[->|Hc]%elem_of_cons].
        -- apply Hl1 in Hc. lia.
        -- lia.
        -- by apply Hl2.
      * intros j car Hj Hlook [Hcar Hreach]. apply Hl1.
        rewrite Hk, lookup_app_l in Hlook by done.
        rewrite <- Hm1, <- Hk1.
        apply list_elem_of_filter. split; [by apply legacy_same_direction; auto|].
        apply list_elem_of_filter. split; [done|].
        by eapply list_elem_of_lookup_2.
    + intros (l1 & l2 & Heq & Hl1 & Hl2)%array_reduce_closer_car.
      assert (¬ ∃ c, c ∈ fleet ∧ is_available c = true
                     ∧ reaches_without_reversing c call) as Hnone.
      { intros (c & Hc). apply Hsame in Hc.
        destruct same; [by apply elem_of_nil in Hc|simpl in Hs; lia]. }
      pose proof Heq as Heq'. unfold avail in Heq'.
      apply filter_split in Heq' as (k1 & k2 & Hk & Hk1 & Hk2 & Hav).
      exists (length k1). split_and!.
      * rewrite Hk. by apply list_lookup_middle.
      * by split.
      * intros car Hin [Hcar _].
        assert (car ∈ avail) as Hc by (by apply Havail).
        rewrite Heq in Hc.
        apply elem_of_app in Hc as [Hc|[->|Hc]%elem_of_cons].
        -- apply Hl1 in Hc. lia.
        -- lia.
        -- by apply Hl2.
      * intros j car Hj Hlook [Hcar _]. apply Hl1.
        rewrite Hk, lookup_app_l in Hlook by done.
        rewrite <- Hk1. apply list_elem_of_filter. split; [done|].
        by eapply list_elem_of_lookup_2.
Qed.

Lemma up_destinations car calls l :
  StronglySorted Z.le l →
  (∀ x, x ∈ l ↔ is_destination car calls x) →
  ((∃ x, is_destination car calls x ∧ currentFloor car < x) →
     (0 < length (filter (λ fl, (currentFloor car < fl)%Z) l))%nat
     ∧ ∃ r, head (filter (λ fl, currentFloor car < fl) l) = Some r
            ∧ next_above car calls r)
  ∧ ((∀ x, is_destination car calls x → x ≤ currentFloor car) →
     filter (λ fl, currentFloor car < fl) l = []).
Proof.
  intros Hs Hl. split.
  - intros (x & Hx & Hgt).
    assert (x ∈ filter (λ fl, currentFloor car < fl) l) as Hf
      by (apply list_elem_of_filter; split; [done|by apply Hl]).
    destruct (filter (λ fl, currentFloor car < fl) l) as [|r up] eqn:Hup;
      [by apply elem_of_nil in Hf|].
    split; [simpl; lia|]. exists r. split; [done|].
    destruct (head_filter_sorted (λ fl, currentFloor car < fl) l r Hs)
      as (? & ? & Hmin); [by rewrite Hup|].
    split_and!; [by apply Hl|done|]. intros y Hy%Hl. by apply Hmin.
  - intros Hnone. destruct (filter _ l) as [|y ?] eqn:Hf; [done|].
    assert (y ∈ filter (λ fl, currentFloor car < fl) l) as Hy by (rewrite Hf; left).
    apply list_elem_of_filter in Hy as [Hgt Hy%Hl%Hnone]. lia.
Qed.

Lemma down_destinations car calls l :
  StronglySorted Z.le l →
  (∀ x, x ∈ l ↔ is_destination car calls x) →
  ((∃ x, is_destination car calls x ∧ x < currentFloor car) →
     (0 < length (filter (λ fl, (fl < currentFloor car)%Z) l))%nat
     ∧ ∃ r, last (filter (λ fl, fl < currentFloor car) l) = Some r
            ∧ next_below car calls r)
  ∧ ((∀ x, is_destination car calls x → currentFloor car ≤ x) →
     filter (λ fl, fl < currentFloor car) l = []).
Proof.
  intros Hs Hl. split.
  - intros (x & Hx & Hlt).
    assert (x ∈ filter (λ fl, fl < currentFloor car) l) as Hf
      by (apply list_elem_of_filter; split; [done|by apply Hl]).
    destruct (last (filter (λ fl, fl < currentFloor car) l)) as [r|] eqn:Hlast;
      [|apply last_None in Hlast; rewrite Hlast in Hf; by apply elem_of_nil in Hf].
    split; [destruct (filter _ l); [done|simpl; lia]|].
    exists r. split; [done|].
    destruct (last_filter_sorted (λ fl, fl < currentFloor car) l r Hs Hlast)
      as (? & ? & Hmax).
    split_and!; [by apply Hl|done|]. intros y Hy%Hl. by apply Hmax.
  - intros Hnone. destruct (filter _ l) as [|y ?] eqn:Hf; [done|].
    assert (y ∈ filter (λ fl, fl < currentFloor car) l) as Hy by (rewrite Hf; left).
    apply list_elem_of_filter in Hy as [Hgt Hy%Hl%Hnone]. lia.
Qed.

Lemma first_destination car calls l :
  StronglySorted Z.le l →
  (∀ x, x ∈ l ↔ is_destination car calls x) →
  (∃ x, is_destination car calls x) →
  ∃ r, head l = Some r ∧ lowest_destination car calls r.
Proof.
  intros Hs Hl [x Hx]. destruct l as [|r l]; [by apply Hl, elem_of_nil in Hx|].
  exists r. split; [done|]. split; [apply Hl; left|].
  apply StronglySorted_inv in Hs as [_ Hr]. rewrite Forall_forall in Hr.
  intros y [->|Hy]%Hl%elem_of_cons; [done|by apply Hr].
Qed.

(** X27. The earlier [getNextDestination] returns nothing exactly when
    the car has no floor to visit. A car that is idle or on its way up
    goes to the lowest floor to visit above it when there is one; failing
    that an idle car, and a car on its way down, goes to the highest floor
    to visit below it; and a car with nothing ahead goes to the lowest
    floor to visit. For a moving car with a floor ahead it gives the same
    floor as the function of the class; for an idle car the two differ,
    the earlier one preferring the way up to the nearest floor. *)
Theorem legacy_getNextDestination_spec (car : Elevator) (calls : list FloorCall) :
  (Legacy.getNextDestination car calls = None
     ↔ ∀ x, ¬ is_destination car calls x)
  ∧ (direction car ≠ MOVING_DOWN →
       (∃ x, is_destination car calls x ∧ currentFloor car < x) →
       ∃ r, Legacy.getNextDestination car calls = Some r ∧ next_above car calls r)
  ∧ (direction car ≠ MOVING_UP →
       (direction car = IDLE →
          ∀ x, is_destination car calls x → x ≤ currentFloor car) →
       (∃ x, is_destination car calls x ∧ x < currentFloor car) →
       ∃ r, Legacy.getNextDestination car calls = Some r ∧ next_below car calls r)
  ∧ ((∃ x, is_destination car calls x) →
     (direction car ≠ MOVING_DOWN →
        ∀ x, is_destination car calls x → x ≤ currentFloor car) →
     (direction car ≠ MOVING_UP →
        ∀ x, is_destination car calls x → currentFloor car ≤ x) →
     ∃ r, Legacy.getNextDestination car calls = Some r
          ∧ lowest_destination car calls r)
  ∧ (direction car = MOVING_UP →
       (∃ x, is_destination car calls x ∧ currentFloor car < x) →
       Legacy.getNextDestination car calls = getNextDestination car calls)
  ∧ (direction car = MOVING_DOWN →
       (∃ x, is_destination car calls x ∧ x < currentFloor car) →
       Legacy.getNextDestination car calls = getNextDestination car calls).
Proof.
  destruct (sorted_destinations car calls) as (Hs & Hl & Hsize).
  destruct (up_destinations car calls _ Hs Hl) as [Hup Hup_none].
  destruct (down_destinations car calls _ Hs Hl) as [Hdown Hdown_none].
  pose proof (first_destination car calls _ Hs Hl) as Hfirst.
  unfold Legacy.getNextDestination, getNextDestination.
  set (D := destinationFloors car ∪ _) in *.
  set (l := array_sort _ (elements D)) in *.
  assert ((∃ x, is_destination car calls x) → size D ≠ 0%nat) as Hne.
  { intros [x Hx] H0. exact (proj1 Hsize H0 x Hx). }
  split_and!.
  - case_decide as H0; [by rewrite <- Hsize|].
    split; [|by intros ?%Hsize].
    assert (∃ x, is_destination car calls x) as Hex.
    { apply size_non_empty_iff, set_choose in H0 as [x Hx].
      exists x. apply Hl. unfold l. by rewrite array_sort_perm, elem_of_elements. }
    destruct (Hfirst Hex) as (r & Hr & _). intros Hnone. exfalso.
    destruct (filter (λ fl, currentFloor car < fl) l) as [|u up] eqn:Hu;
      destruct (filter (λ fl, fl < currentFloor car) l) as [|? ? _] eqn:Hd
        using rev_ind;
      repeat case_decide; simpl in *; rewrite ?last_snoc in Hnone;
      try congruence; lia.
  - intros Hd Hex. destruct (Hup Hex) as (Hlen & r & Hr & Habove).
    rewrite decide_False by (destruct Hex as (x & ? & _); eauto).
    rewrite (decide_True (P := direction car = MOVING_UP ∨ _))
      by (destruct (direction car); auto; done).
    rewrite decide_True by done. eauto.
  - intros Hd Hidle Hex. destruct (Hdown Hex) as (Hlen & r & Hr & Hbelow).
    rewrite decide_False by (destruct Hex as (x & ? & _); eauto).
    rewrite (decide_True (P := direction car = MOVING_DOWN ∨ _))
      by (destruct (direction car); auto; done).
    rewrite (decide_True (P := (0 < length (filter (λ fl, (fl < _)%Z) l))%nat))
      by done.
    exists r. split; [|done].
    case_decide as Hdir; [|done].
    destruct Hdir as [?|Hdir]; [done|].
    rewrite (Hup_none (Hidle Hdir)). by rewrite decide_False by (simpl; lia).
  - intros Hex Habove Hbelow. destruct (Hfirst Hex) as (r & Hr & Hlow).
    rewrite decide_False by auto. exists r. split; [|done].
    assert ((if decide (direction car = MOVING_DOWN ∨ direction car = IDLE)
             then if decide (0 < length (filter (λ fl, (fl < currentFloor car)%Z) l))%nat
                  then last (filter (λ fl, fl < currentFloor car) l)
                  else head l
             else head l) = Some r) as ->.
    { case_decide as Hdir; [|done].
      rewrite Hdown_none; [by rewrite decide_False by (simpl; lia)|].
      apply Hbelow. by destruct Hdir as [-> | ->]. }
    case_decide as Hdir; [|done].
    rewrite Hup_none; [by rewrite decide_False by (simpl; lia)|].
    apply Habove. by destruct Hdir as [-> | ->].
  - intros Hd Hex. destruct (Hup Hex) as (Hlen & r & Hr & _).
    assert (size D ≠ 0%nat) as HD by (destruct Hex as (x & ? & _); eauto).
    rewrite Hd. repeat case_decide; try done; try lia; naive_solver.
  - intros Hd Hex. destruct (Hdown Hex) as (Hlen & r & Hr & _).
    assert (size D ≠ 0%nat) as HD by (destruct Hex as (x & ? & _); eauto).
    rewrite Hd. repeat case_decide; try done; try lia; naive_solver.
Qed.

Example earlier_idle_car_prefers_the_way_up :
  let idle := car 1 5 IDLE {[4; 8]} in
  Legacy.getNextDestination idle [] = Some 8
  ∧ getNextDestination idle [] = Some 4.
Proof. by vm_compute. Qed.

Example earlier_dispatcher_ignores_the_load :
  let fleet := [car 1 3 IDLE {[7; 8; 9]}; car 2 3 IDLE ∅] in
  let call := call_at 1 4 UP None in
  id <$> Legacy.findBestElevator fleet call = Some 1
  ∧ id <$> findBestElevator fleet call = Some 2.
Proof. by vm_compute. Qed.
